(** * Address Resolution Pipeline of volterra-asset-map

    A shallow embedding of the two batch scripts, [scripts/sync-hubspot.ts]
    (CRM matching stage) and the batch geocoding script kept in
    [scripts/check-geocode-status.ts] (geocoding stage), together with the
    stored procedures of [supabase/migrations] they call, and the properties
    of the pipeline that hold, or fail, on that code. *)

From Stdlib Require Import ZArith NArith QArith Lia Lqa Ascii String Sorted.
From stdpp Require Import base list gmap.

Local Open Scope nat_scope.

(** ** JavaScript strings

    A JavaScript string is a sequence of UTF-16 code units; [length],
    [charAt], [trim], [split] and the regular expressions of the scripts (none
    has the [u] flag) all work on code units. *)

Module JS.

Abbreviation char := N (only parsing).
Abbreviation jsstring := (list N) (only parsing).

(** An ASCII literal as a JavaScript string. *)
Definition lit (s : string) : jsstring :=
  map N_of_ascii (list_ascii_of_string s).

(** The Latin-1 letters that occur in the tables of the scripts. *)
Definition a_uml : char := 228%N.   (* U+00E4 *)
Definition a_ring : char := 229%N.  (* U+00E5 *)
Definition o_uml : char := 246%N.   (* U+00F6 *)
Definition O_uml : char := 214%N.   (* U+00D6 *)
Definition A_ring : char := 197%N.  (* U+00C5 *)

Definition in_range (lo hi c : N) : bool := ((lo <=? c) && (c <=? hi))%N.

(** [WhiteSpace] and [LineTerminator] of ECMAScript: what [\s] matches and
    what [trim] strips. *)
Definition is_space (c : char) : bool :=
  in_range 9 13 c || (c =? 32)%N || (c =? 160)%N || (c =? 5760)%N
  || in_range 8192 8202 c || (c =? 8232)%N || (c =? 8233)%N
  || (c =? 8239)%N || (c =? 8287)%N || (c =? 12288)%N || (c =? 65279)%N.

(** [LineTerminator]: what [.] does not match. *)
Definition is_line_terminator (c : char) : bool :=
  (c =? 10)%N || (c =? 13)%N || (c =? 8232)%N || (c =? 8233)%N.

(** Simple case mappings on Basic Latin and Latin-1, the alphabet of every
    literal in the scripts. Code units above U+00FF are left as they are. *)
Definition lower_char (c : char) : char :=
  if in_range 65 90 c then (c + 32)%N
  else if in_range 192 222 c && negb (c =? 215)%N then (c + 32)%N
  else c.

Definition upper_char (c : char) : char :=
  if in_range 97 122 c then (c - 32)%N
  else if in_range 224 254 c && negb (c =? 247)%N then (c - 32)%N
  else c.

Definition toLowerCase (s : jsstring) : jsstring := map lower_char s.

Definition eqb (a b : jsstring) : bool := bool_decide (a = b).

(** [s.charAt(i)]: the code unit at [i], or the empty string ([None]). *)
Definition charAt (s : jsstring) (i : nat) : option char := s !! i.

Fixpoint drop_while (p : char -> bool) (s : jsstring) : jsstring :=
  match s with
  | [] => []
  | c :: s' => if p c then drop_while p s' else s
  end.

(** [s.trim()]: white space is stripped from both ends. *)
Definition trim_start (s : jsstring) : jsstring := drop_while is_space s.

Fixpoint trim_end (s : jsstring) : jsstring :=
  match s with
  | [] => []
  | c :: s' =>
      match trim_end s' with
      | [] => if is_space c then [] else [c]
      | t => c :: t
      end
  end.

Definition trim (s : jsstring) : jsstring := trim_end (trim_start s).

(** [a.includes(b)] *)
Fixpoint starts_with (b a : jsstring) : bool :=
  match b, a with
  | [], _ => true
  | x :: b', y :: a' => (x =? y)%N && starts_with b' a'
  | _ :: _, [] => false
  end.

Fixpoint includes (a b : jsstring) : bool :=
  starts_with b a ||
  match a with
  | [] => false
  | _ :: a' => includes a' b
  end.

End JS.

(** ** Similarity Scorer ([similarity] of [sync-hubspot.ts])

    The script keeps one row [costs] of the edit-distance table and rewrites
    it in place, row after row. The array is modelled by a list with the
    JavaScript store: an index equal to the length appends. *)

Module Similarity.
Import JS.

(** [costs[j] = v]. The script only ever stores inside the array or exactly at
    its end, so no hole is created; a store further out pads with 0. *)
Definition store (costs : list nat) (j v : nat) : list nat :=
  if j <? length costs then <[j:=v]> costs
  else costs ++ replicate (j - length costs) 0 ++ [v].

(** [costs[j]] *)
Definition load (costs : list nat) (j : nat) : nat := default 0 (costs !! j).

Definition char_differs (x y : option char) : bool :=
  negb (bool_decide (x = y)).

(** Body of the inner loop, for row [i] and column [j], on the state
    [(costs, lastValue)]. *)
Definition inner_step (shorter longer : jsstring) (i : nat)
    (st : list nat * nat) (j : nat) : list nat * nat :=
  let '(costs, lastValue) := st in
  if i =? 0 then (store costs j j, lastValue)
  else if 0 <? j then
    let newValue := load costs (j - 1) in
    let newValue :=
      if char_differs (charAt shorter (i - 1)) (charAt longer (j - 1))
      then Nat.min (Nat.min newValue lastValue) (load costs j) + 1
      else newValue in
    (store costs (j - 1) lastValue, newValue)
  else (costs, lastValue).

(** Body of the outer loop: one row. *)
Definition outer_step (shorter longer : jsstring) (costs : list nat)
    (i : nat) : list nat :=
  let '(costs', lastValue) :=
    fold_left (inner_step shorter longer i) (seq 0 (S (length longer)))
              (costs, i) in
  if 0 <? i then store costs' (length longer) lastValue else costs'.

(** The array [costs] when both loops are over. *)
Definition final_costs (shorter longer : jsstring) : list nat :=
  fold_left (outer_step shorter longer) (seq 0 (S (length shorter))) [].

(** [similarity(a, b)]. The result of the final division of two integers is
    kept as the exact rational; [1.0] is [1]. *)
Definition similarity (a b : jsstring) : Q :=
  let longer := if length b <? length a then a else b in
  let shorter := if length b <? length a then b else a in
  if length longer =? 0 then 1%Q
  else
    let costs := final_costs shorter longer in
    Qmake (Z.of_nat (length longer) - Z.of_nat (load costs (length longer)))
          (Pos.of_nat (length longer)).

(** The edit-distance table the loops fill in: [table s l i j] is the entry of
    row [i] and column [j]. It is used in the proofs only. *)
Fixpoint table (s l : jsstring) (i : nat) : nat -> nat :=
  match i with
  | 0 => fun j => j
  | S i' =>
      fix row (j : nat) : nat :=
        match j with
        | 0 => S i'
        | S j' =>
            if char_differs (charAt s i') (charAt l j')
            then Nat.min (Nat.min (table s l i' j') (row j'))
                         (table s l i' (S j')) + 1
            else table s l i' j'
        end
  end.

(** The array holds row [i] of the table. *)
Definition holds_row (shorter longer : jsstring) (i : nat)
    (costs : list nat) : Prop :=
  costs = map (table shorter longer i) (seq 0 (S (length longer))).

End Similarity.

(** ** Regular expressions

    The constructs that occur in the patterns of [sync-hubspot.ts]: literal
    characters, [^], [$], sequence, alternation, and the greedy [*] and [+] of
    a character class ([\s], [.], a bracket class). Matching is the
    backtracking matcher of ECMAScript with the rest of the pattern as a
    continuation. *)

Module Regex.
Import JS.

Inductive regex : Type :=
  | Eps
  | Chr (c : char)
  | Bol
  | Eol
  | Seq (r1 r2 : regex)
  | Alt (r1 r2 : regex)
  | Star (p : char -> bool)
  | Plus (p : char -> bool).

(** A literal character against an input character; with the [i] flag both
    are canonicalized first. [upper_char] agrees with the canonicalization on
    every comparison against a pattern character of the script: Basic Latin
    letters and the Latin-1 letters of the tables. *)
Definition chr_matches (ignoreCase : bool) (c x : char) : bool :=
  if ignoreCase then (upper_char c =? upper_char x)%N else (c =? x)%N.

(** Greedy [p*]: take as many characters as possible, and give them back one
    at a time while the continuation fails. *)
Fixpoint star (p : char -> bool) (pos : nat) (s : jsstring)
    (k : nat -> jsstring -> option jsstring) : option jsstring :=
  match s with
  | c :: s' =>
      if p c then
        match star p (S pos) s' k with
        | Some rest => Some rest
        | None => k pos s
        end
      else k pos s
  | [] => k pos []
  end.

(** [run ignoreCase r pos s k]: match [r] at index [pos], where [s] is the
    input from [pos] on; the result is the input left after the whole match. *)
Fixpoint run (ignoreCase : bool) (r : regex) (pos : nat) (s : jsstring)
    (k : nat -> jsstring -> option jsstring) : option jsstring :=
  match r with
  | Eps => k pos s
  | Chr c =>
      match s with
      | x :: s' => if chr_matches ignoreCase c x then k (S pos) s' else None
      | [] => None
      end
  | Bol => if pos =? 0 then k pos s else None
  | Eol => match s with [] => k pos s | _ :: _ => None end
  | Seq r1 r2 =>
      run ignoreCase r1 pos s (fun pos' s' => run ignoreCase r2 pos' s' k)
  | Alt r1 r2 =>
      match run ignoreCase r1 pos s k with
      | Some rest => Some rest
      | None => run ignoreCase r2 pos s k
      end
  | Star p => star p pos s k
  | Plus p =>
      match s with
      | x :: s' => if p x then star p (S pos) s' k else None
      | [] => None
      end
  end.

Definition match_at (ignoreCase : bool) (r : regex) (pos : nat)
    (s : jsstring) : option jsstring :=
  run ignoreCase r pos s (fun _ rest => Some rest).

(** The leftmost match: its start index and the input after it. *)
Fixpoint search (ignoreCase : bool) (r : regex) (pos : nat) (s : jsstring)
    : option (nat * jsstring) :=
  match match_at ignoreCase r pos s with
  | Some rest => Some (pos, rest)
  | None =>
      match s with
      | [] => None
      | _ :: s' => search ignoreCase r (S pos) s'
      end
  end.

(** [s.replace(re, by)] for a pattern without the [g] flag ([by] has no [$]). *)
Definition replace (ignoreCase : bool) (r : regex) (by_ : jsstring)
    (s : jsstring) : jsstring :=
  match search ignoreCase r 0 s with
  | Some (start, rest) => take start s ++ by_ ++ rest
  | None => s
  end.

(** [s.replace(re, by)] for a pattern with the [g] flag. [skip] counts the
    characters of the current match that are still to be dropped. *)
Fixpoint replace_all_from (ignoreCase : bool) (r : regex) (by_ : jsstring)
    (skip pos : nat) (s : jsstring) : jsstring :=
  match s with
  | [] =>
      match skip, match_at ignoreCase r pos [] with
      | 0, Some _ => by_
      | _, _ => []
      end
  | c :: s' =>
      match skip with
      | S n => replace_all_from ignoreCase r by_ n (S pos) s'
      | 0 =>
          match match_at ignoreCase r pos s with
          | Some rest =>
              match length s - length rest with
              | 0 => by_ ++ c :: replace_all_from ignoreCase r by_ 0 (S pos) s'
              | S n => by_ ++ replace_all_from ignoreCase r by_ n (S pos) s'
              end
          | None => c :: replace_all_from ignoreCase r by_ 0 (S pos) s'
          end
      end
  end.

Definition replace_all (ignoreCase : bool) (r : regex) (by_ : jsstring)
    (s : jsstring) : jsstring :=
  replace_all_from ignoreCase r by_ 0 0 s.

(** [s.split(re)] for a pattern [[...]+] of class [sep]: the pieces between
    the runs of separators, an empty piece in front of a leading run and
    behind a trailing one. *)
Fixpoint split_from (sep : char -> bool) (in_run : bool) (s : jsstring)
    : list jsstring :=
  match s with
  | [] => [[]]
  | c :: s' =>
      if sep c then
        if in_run then split_from sep true s'
        else [] :: split_from sep true s'
      else
        match split_from sep false s' with
        | w :: ws => (c :: w) :: ws
        | [] => [[c]]
        end
  end.

Definition split (sep : char -> bool) (s : jsstring) : list jsstring :=
  split_from sep false s.

(** Pattern builders. *)
Definition word (w : jsstring) : regex :=
  fold_right (fun c r => Seq (Chr c) r) Eps w.

Fixpoint alts (ws : list jsstring) : regex :=
  match ws with
  | [] => Eps
  | [w] => word w
  | w :: ws' => Alt (word w) (alts ws')
  end.

Definition seqs (rs : list regex) : regex := fold_right Seq Eps rs.

Definition any_char (c : char) : bool := negb (is_line_terminator c).

End Regex.

(** ** Name Normalizer ([normalizeName], [extractTokens]) *)

Module Normalizer.
Import JS Regex.

Record housing_patterns : Type := {
  prefixes : list jsstring;
  suffixes : list jsstring
}.

Definition bostadsrattsforening : jsstring :=
  lit "Bostadsr" ++ [a_uml] ++ lit "ttsf" ++ [o_uml] ++ lit "rening".

Definition Norway : housing_patterns := {|
  prefixes := [lit "Sameiet"; lit "Borettslaget"; lit "Boligsameiet";
               lit "AL"; lit "AS"; lit "Andelslaget"];
  suffixes := [lit "Borettslag"; lit "Sameie"; lit "Boligsameie";
               lit "Garasjelag"; lit "Garasjesameie"; lit "SA"; lit "AS"]
|}.

Definition Sweden : housing_patterns := {|
  prefixes := [bostadsrattsforening ++ lit "en"; lit "BRF"; lit "Brf";
               lit "HSB " ++ bostadsrattsforening;
               lit "Riksbyggen " ++ bostadsrattsforening;
               lit "Riksbyggens " ++ bostadsrattsforening;
               lit "Anl" ++ [a_uml] ++ lit "ggningssamf" ++ [a_uml]
                 ++ lit "lligheten"];
  suffixes := [lit "Samf" ++ [a_uml] ++ lit "llighetsf" ++ [o_uml]
                 ++ lit "rening";
               bostadsrattsforening;
               lit "Samf" ++ [a_uml] ++ lit "llighet";
               lit "i Stockholm"; lit "i G" ++ [o_uml] ++ lit "teborg";
               lit "i Uppsala"]
|}.

Definition Denmark : housing_patterns := {|
  prefixes := [lit "Andelsboligforening"; lit "A/B"; lit "Ejerforening";
               lit "E/F"];
  suffixes := [lit "Andelsboligforening"; lit "Ejerforening"]
|}.

(** [HOUSING_PATTERNS[country] || HOUSING_PATTERNS.Norway]. A country is one
    of the country names stored with the facilities; the property names every
    JavaScript object inherits are not among them. *)
Definition HOUSING_PATTERNS (country : jsstring) : housing_patterns :=
  if eqb country (lit "Norway") then Norway
  else if eqb country (lit "Sweden") then Sweden
  else if eqb country (lit "Denmark") then Denmark
  else Norway.

(** [new RegExp(`^${prefix}\\s+`, "i")]; no entry of the tables contains a
    character that is special in a pattern. *)
Definition prefix_regex (prefix : jsstring) : regex :=
  seqs [Bol; word prefix; Plus is_space].

(** [new RegExp(`\\s+${suffix}$`, "i")] *)
Definition suffix_regex (suffix : jsstring) : regex :=
  seqs [Plus is_space; word suffix; Eol].

Definition remove_prefixes (p : housing_patterns) (s : jsstring) : jsstring :=
  fold_left (fun normalized prefix =>
               replace true (prefix_regex prefix) [] normalized)
            (prefixes p) s.

Definition remove_suffixes (p : housing_patterns) (s : jsstring) : jsstring :=
  fold_left (fun normalized suffix =>
               replace true (suffix_regex suffix) [] normalized)
            (suffixes p) s.

(** [/\s+(I|II|III|IV|V|1|2|3|4|5)\s*$/i] *)
Definition roman_regex : regex :=
  seqs [Plus is_space;
        alts [lit "I"; lit "II"; lit "III"; lit "IV"; lit "V";
              lit "1"; lit "2"; lit "3"; lit "4"; lit "5"];
        Star is_space; Eol].

(** [/\s*-\s*(Zaptec|Easee|laddboxar|all).*$/i] *)
Definition vendor_regex : regex :=
  seqs [Star is_space; Chr 45; Star is_space;
        alts [lit "Zaptec"; lit "Easee"; lit "laddboxar"; lit "all"];
        Star any_char; Eol].

(** [/\s*-\s*all\s*$/i] *)
Definition all_regex : regex :=
  seqs [Star is_space; Chr 45; Star is_space; word (lit "all");
        Star is_space; Eol].

(** [/\s+A\/L\s*$/i] *)
Definition al_regex : regex :=
  seqs [Plus is_space; word (lit "A/L"); Star is_space; Eol].

(** [/\s+\(fellesplass\)\s*$/i] *)
Definition fellesplass_regex : regex :=
  seqs [Plus is_space; word (lit "(fellesplass)"); Star is_space; Eol].

(** [/\s+i\s+(Stockholm|Göteborg|...|Vaxholm)\s*$/i] *)
Definition city_regex : regex :=
  seqs [Plus is_space; Chr 105; Plus is_space;
        alts [lit "Stockholm"; lit "G" ++ [o_uml] ++ lit "teborg";
              lit "Uppsala"; lit "Malm" ++ [o_uml];
              [O_uml] ++ lit "rebro"; lit "Sundbyberg";
              lit "Sk" ++ [o_uml] ++ lit "ndal"; lit "Lund"; lit "Karlstad";
              lit "Link" ++ [o_uml] ++ lit "ping"; lit "Bromma";
              [A_ring] ++ lit "rsta"; lit "Vaxholm"];
        Star is_space; Eol].

(** [[,.:;!?]] *)
Definition is_punctuation (c : char) : bool :=
  (c =? 44)%N || (c =? 46)%N || (c =? 58)%N || (c =? 59)%N
  || (c =? 33)%N || (c =? 63)%N.

(** The six removals of "common noise and suffixes". *)
Definition remove_noise (s : jsstring) : jsstring :=
  let s := replace true roman_regex [] s in
  let s := replace true vendor_regex [] s in
  let s := replace true all_regex [] s in
  let s := replace true al_regex [] s in
  let s := replace true fellesplass_regex [] s in
  replace true city_regex [] s.

(** The three last steps of the chain: punctuation, runs of spaces, trim. *)
Definition tidy (s : jsstring) : jsstring :=
  let s := replace_all false (Plus is_punctuation) [] s in
  let s := replace_all false (Plus is_space) (lit " ") s in
  trim s.

(** Everything between the first [trim] and the punctuation step. *)
Definition remove_affixes (country : jsstring) (s : jsstring) : jsstring :=
  let patterns := HOUSING_PATTERNS country in
  remove_noise (remove_suffixes patterns (remove_prefixes patterns s)).

Definition normalizeName (name country : jsstring) : jsstring :=
  tidy (remove_affixes country (trim name)).

Definition stopwords : list jsstring :=
  [lit "i"; lit "och"; lit "og"; lit "nr"; lit "number"; lit "ved";
   lit "p" ++ [a_ring]; lit "av"; lit "til"; lit "for"; lit "all";
   lit "a/l"; lit "al"; lit "as"; lit "sa";
   lit "sameiet"; lit "borettslaget"; lit "boligsameiet"; lit "boligsameie";
   lit "borettslag"; lit "sameie"; lit "garasjelag"; lit "garasjesameie";
   lit "brf";
   lit "bostadsr" ++ [a_uml] ++ lit "ttsf" ++ [o_uml] ++ lit "reningen"].

(** [[\s\-\/\(\)]] *)
Definition is_token_separator (c : char) : bool :=
  is_space c || (c =? 45)%N || (c =? 47)%N || (c =? 40)%N || (c =? 41)%N.

Definition extractTokens (name : jsstring) : list jsstring :=
  let normalized := toLowerCase name in
  take 4
    (List.filter (fun token => negb (existsb (eqb token) stopwords))
       (List.filter (fun token => 2 <? length token)
          (split is_token_separator normalized))).

(** What the three last steps establish: no punctuation character is left,
    and every white-space character is a single U+0020 between two other
    characters. *)
Definition no_punctuation (s : jsstring) : Prop :=
  Forall (fun c => is_punctuation c = false) s.

Definition starts_without_space (s : jsstring) : Prop :=
  match s with
  | [] => True
  | d :: _ => is_space d = false
  end.

Fixpoint single_spaced (s : jsstring) : Prop :=
  match s with
  | [] => True
  | c :: s' =>
      (is_space c = true -> c = 32%N /\ starts_without_space s')
      /\ single_spaced s'
  end.

End Normalizer.

(** ** Stored facilities

    The table [asset_map.facilities] and the stored procedures the two scripts
    call. Coordinates and confidences are exact rationals (the scale of the
    [DECIMAL] columns is not modelled), time stamps are numbers. *)

Module Storage.
Import JS.

(** ["pending" | "success" | "failed" | "manual"], the values the [CHECK]
    constraint of the column admits. *)
Inductive status_value : Type := pending | success | failed | manual.

Record facility_row : Type := {
  id : jsstring;
  hubspot_id : option jsstring;
  name : jsstring;
  address : option jsstring;
  city : option jsstring;
  postal_code : option jsstring;
  country : jsstring;
  latitude : option Q;
  longitude : option Q;
  geocode_status : status_value;
  geocode_confidence : option Q;
  charger_count : nat;
  created_at : nat;
  updated_at : nat
}.

Abbreviation table := (list facility_row) (only parsing).

(** [ORDER BY] on text columns; code-unit order stands for the collation of
    the database. *)
Fixpoint text_leb (a b : jsstring) : bool :=
  match a, b with
  | [], _ => true
  | _ :: _, [] => false
  | x :: a', y :: b' => (x <? y)%N || ((x =? y)%N && text_leb a' b')
  end.

Fixpoint insert_sorted (leb : facility_row -> facility_row -> bool)
    (r : facility_row) (rows : table) : table :=
  match rows with
  | [] => [r]
  | r' :: rows' =>
      if leb r r' then r :: rows else r' :: insert_sorted leb r rows'
  end.

Definition order_by (leb : facility_row -> facility_row -> bool)
    (rows : table) : table :=
  fold_right (insert_sorted leb) [] rows.

(** [p_country IS NULL OR f.country = p_country] *)
Definition country_matches (p_country : option jsstring) (f : facility_row)
    : bool :=
  match p_country with
  | None => true
  | Some c => eqb (country f) c
  end.

Definition is_null {A} (x : option A) : bool :=
  match x with None => true | Some _ => false end.

(** The [WHERE] clause of [asset_map_get_facilities_for_sync]. *)
Definition needs_sync (p_country : option jsstring) (f : facility_row)
    : bool :=
  is_null (address f) && is_null (hubspot_id f) && country_matches p_country f.

Definition asset_map_get_facilities_for_sync (db : table) (p_limit : nat)
    (p_country : option jsstring) : table :=
  take p_limit
    (order_by (fun a b => text_leb (name a) (name b))
       (List.filter (needs_sync p_country) db)).

(** The [WHERE] clause of [asset_map_get_facilities_for_geocoding]. *)
Definition needs_geocoding (p_country : option jsstring) (f : facility_row)
    : bool :=
  negb (is_null (address f)) && is_null (latitude f)
  && country_matches p_country f.

Definition by_country_then_name (a b : facility_row) : bool :=
  if eqb (country a) (country b) then text_leb (name a) (name b)
  else text_leb (country a) (country b).

Definition asset_map_get_facilities_for_geocoding (db : table)
    (p_country : option jsstring) (p_limit : nat) : table :=
  take p_limit
    (order_by by_country_then_name
       (List.filter (needs_geocoding p_country) db)).

(** [hubspot_id TEXT UNIQUE]: the value is taken by another row. *)
Definition hubspot_id_taken (db : table) (p_facility_id p_hubspot_id : jsstring)
    : bool :=
  existsb (fun f => negb (eqb (id f) p_facility_id)
                    && bool_decide (hubspot_id f = Some p_hubspot_id)) db.

(** [asset_map_update_facility_from_hubspot], at time [now]. [None]: the
    statement fails on the unique constraint and changes nothing. *)
Definition asset_map_update_facility_from_hubspot (now : nat) (db : table)
    (p_facility_id p_hubspot_id : jsstring)
    (p_address p_city p_postal_code : option jsstring) : option table :=
  if existsb (fun f => eqb (id f) p_facility_id) db
     && hubspot_id_taken db p_facility_id p_hubspot_id
  then None
  else Some (map (fun f =>
    if eqb (id f) p_facility_id then
      {| id := id f; hubspot_id := Some p_hubspot_id; name := name f;
         address := p_address; city := p_city; postal_code := p_postal_code;
         country := country f; latitude := latitude f;
         longitude := longitude f; geocode_status := geocode_status f;
         geocode_confidence := geocode_confidence f;
         charger_count := charger_count f; created_at := created_at f;
         updated_at := now |}
    else f) db).

(** [COALESCE(a, b)] *)
Definition COALESCE {A} (a b : option A) : option A :=
  match a with Some _ => a | None => b end.

(** [asset_map_update_facility_geocode] as the migration
    [fix_geocode_rpc_null] leaves it: a [NULL] coordinate keeps the stored
    one. *)
Definition asset_map_update_facility_geocode (now : nat) (db : table)
    (p_facility_id : jsstring) (p_latitude p_longitude : option Q)
    (p_geocode_status : status_value) (p_geocode_confidence : option Q)
    : table :=
  map (fun f =>
    if eqb (id f) p_facility_id then
      {| id := id f; hubspot_id := hubspot_id f; name := name f;
         address := address f; city := city f; postal_code := postal_code f;
         country := country f;
         latitude := COALESCE p_latitude (latitude f);
         longitude := COALESCE p_longitude (longitude f);
         geocode_status := p_geocode_status;
         geocode_confidence := p_geocode_confidence;
         charger_count := charger_count f; created_at := created_at f;
         updated_at := now |}
    else f) db.

(** [r'] differs from [r] at most in the CRM reference, the address fields and
    the time stamp of the last update. *)
Definition crm_fields_only (r r' : facility_row) : Prop :=
  id r' = id r /\ name r' = name r /\ country r' = country r
  /\ latitude r' = latitude r /\ longitude r' = longitude r
  /\ geocode_status r' = geocode_status r
  /\ geocode_confidence r' = geocode_confidence r
  /\ charger_count r' = charger_count r /\ created_at r' = created_at r.

(** [r'] is [r] after the failure update for [facility_id]: other rows are
    untouched; the row of the facility is failed, without confidence, and
    keeps every other column but the time stamp, coordinates included. *)
Definition marked_failed (facility_id : jsstring) (r r' : facility_row)
    : Prop :=
  if eqb (id r) facility_id then
    geocode_status r' = failed /\ geocode_confidence r' = None
    /\ latitude r' = latitude r /\ longitude r' = longitude r
    /\ id r' = id r /\ hubspot_id r' = hubspot_id r /\ name r' = name r
    /\ address r' = address r /\ city r' = city r
    /\ postal_code r' = postal_code r /\ country r' = country r
  else r' = r.

End Storage.

(** ** Effects of the scripts

    A script runs on a state: the table, the clock, the external calls issued
    so far, and its own mutable locals. A step returns, throws, or ends the
    process. The answers of the external services are given by oracles; an
    oracle answers equal requests equally during a run.
    Console output and the delays between calls ([sleep]) do not act on this
    state and are left out. *)

Module Effects.
Import JS.

(** The CRM search API. *)
Inductive operator : Type := Eq | ContainsToken.

Record search_request : Type := {
  req_operator : operator;
  req_value : jsstring;
  req_limit : nat
}.

Record company_properties : Type := {
  prop_name : option jsstring;
  prop_address : option jsstring;
  prop_city : option jsstring;
  prop_zip : option jsstring;
  prop_country : option jsstring
}.

Record HubSpotCompany : Type := {
  company_id : jsstring;
  properties : company_properties
}.

(** A response of [doSearch]; a missing [total] counts as 0 and missing
    [results] as no results, which is how every use in the script reads
    them. *)
Record search_response : Type := {
  total : nat;
  results : list HubSpotCompany
}.

(** The answer to [fetch]: the call throws, or answers with a status that is
    not [ok], or answers [ok] with a body ([None]: [resp.json()] throws). *)
Inductive fetch_result (Body : Type) : Type :=
  | FetchThrows
  | HttpError (http_status : nat)
  | HttpOk (body : option Body).
Arguments FetchThrows {Body}.
Arguments HttpError {Body} http_status.
Arguments HttpOk {Body} body.

Record kartverket_address : Type := {
  representasjonspunkt : Q * Q;        (* lat, lon *)
  adressetekst : jsstring;
  postnummer : jsstring;
  poststed : jsstring
}.

(** [adresser] may be missing from the body. *)
Record KartverketResult : Type := {
  adresser : option (list kartverket_address)
}.

Record here_item : Type := {
  position : Q * Q;                    (* lat, lng *)
  scoring : option Q;                  (* scoring?.queryScore *)
  label : jsstring
}.

Record HereResult : Type := {
  items : option (list here_item)
}.

(** External calls, as they are logged. *)
Inductive event : Type :=
  | CrmSearch (req : search_request)
  | KartverketFetch (sok : jsstring)
  | HereFetch (q apiKey : jsstring)
  | RpcBacklog (fn : jsstring)
  | RpcUpdate (fn : jsstring) (facility_id : jsstring).

Record services : Type := {
  doSearch_answer : search_request -> option search_response;
  kartverket_answer : jsstring -> fetch_result KartverketResult;
  here_answer : jsstring -> fetch_result HereResult;
  (** the RPC endpoint answers this call with an error status *)
  rpc_rejects : event -> bool
}.

Record environment : Type := {
  HUBSPOT_API_KEY : option jsstring;
  SUPABASE_URL : option jsstring;
  SUPABASE_SERVICE_KEY : option jsstring;
  HERE_API_KEY : option jsstring
}.

(** A variable of the environment is usable when it is set and not empty. *)
Definition truthy (x : option jsstring) : bool :=
  match x with
  | Some (_ :: _) => true
  | _ => false
  end.

Record state (L : Type) : Type := {
  db : Storage.table;
  clock : nat;
  log : list event;
  locals : L
}.
Arguments db {L} _.
Arguments clock {L} _.
Arguments log {L} _.
Arguments locals {L} _.

Inductive outcome (A : Type) : Type :=
  | Return (a : A)
  | Throw (message : jsstring)
  | Exit (code : nat).
Arguments Return {A} a.
Arguments Throw {A} message.
Arguments Exit {A} code.

(** The value of a step that returns. *)
Definition returned {A} (o : outcome A) : option A :=
  match o with
  | Return a => Some a
  | _ => None
  end.

Definition prog (L A : Type) : Type := state L -> outcome A * state L.

Definition ret {L A} (a : A) : prog L A := fun st => (Return a, st).

Definition bind {L A B} (m : prog L A) (f : A -> prog L B) : prog L B :=
  fun st =>
    match m st with
    | (Return a, st') => f a st'
    | (Throw e, st') => (Throw e, st')
    | (Exit c, st') => (Exit c, st')
    end.

Definition throw {L A} (message : jsstring) : prog L A :=
  fun st => (Throw message, st).

Definition exit {L A} (code : nat) : prog L A := fun st => (Exit code, st).

(** [try { m } catch (error) { handler }] *)
Definition try_catch {L A} (m : prog L A) (handler : jsstring -> prog L A)
    : prog L A :=
  fun st =>
    match m st with
    | (Throw e, st') => handler e st'
    | r => r
    end.

(** The state after the external calls [calls]. *)
Definition logged {L} (st : state L) (calls : list event) : state L :=
  {| db := db st; clock := clock st; log := log st ++ calls;
     locals := locals st |}.

Definition emit {L} (e : event) : prog L unit :=
  fun st => (Return tt, logged st [e]).

Definition update_locals {L} (f : L -> L) : prog L unit :=
  fun st => (Return tt, {| db := db st; clock := clock st; log := log st;
                           locals := f (locals st) |}).

Definition read_db {L} : prog L Storage.table :=
  fun st => (Return (db st), st).

(** A statement on the table, at the time of the clock; a statement that
    fails ([None]) throws and changes nothing. *)
Definition write_db {L}
    (statement : nat -> Storage.table -> option Storage.table)
    : prog L unit :=
  fun st =>
    match statement (clock st) (db st) with
    | Some rows => (Return tt, {| db := rows; clock := S (clock st);
                                  log := log st; locals := locals st |})
    | None => (Throw (lit "statement failed"), st)
    end.

(** The scripts are written with the monad notations of stdpp:
    [x ← m; k] and [m;; k]. *)
#[export] Instance prog_ret {L} : MRet (prog L) := fun A a => ret a.
#[export] Instance prog_bind {L} : MBind (prog L) := fun A B f m => bind m f.

(** [for (const x of xs) body] with the loop state [acc] passed along. *)
Fixpoint for_each {L A X} (xs : list X) (body : A -> X -> prog L A) (acc : A)
    : prog L A :=
  match xs with
  | [] => ret acc
  | x :: xs' => acc' ← body acc x; for_each xs' body acc'
  end.

End Effects.

(** ** Candidate Matcher ([searchHubSpotCompany] of [sync-hubspot.ts])

    Console output and the [verbose] flag, which only adds output, are left
    out. The scores are exact rationals. *)

Module Matcher.
Import JS Normalizer Similarity Effects.

Record Facility : Type := {
  id : jsstring;
  name : jsstring;
  country : jsstring;
  address : option jsstring;
  city : option jsstring;
  postal_code : option jsstring;
  hubspot_id : option jsstring
}.

(** ["exact" | "normalized" | "token" | "fuzzy" | "none"] *)
Inductive match_type : Type := MExact | MNormalized | MToken | MFuzzy | MNone.

Record MatchResult : Type := {
  facility : Facility;
  company : option HubSpotCompany;
  matchType : match_type;
  confidence : Q
}.

(** [a > b] on numbers *)
Definition gt (a b : Q) : bool := negb (Qle_bool a b).

(** [hubspot.crm.companies.searchApi.doSearch(...)] *)
Definition doSearch {L} (svc : services) (req : search_request)
    : prog L search_response :=
  emit (CrmSearch req);;
  match doSearch_answer svc req with
  | Some response => mret response
  | None => throw (lit "search failed")
  end.

(** [company.properties.address] as a condition *)
Definition has_address (c : HubSpotCompany) : bool :=
  truthy (prop_address (properties c)).

(** [company.properties.name || ""] *)
Definition name_or_empty (c : HubSpotCompany) : jsstring :=
  default [] (prop_name (properties c)).

(** The request of the exact name search. *)
Definition exact_request (f : Facility) : search_request :=
  {| req_operator := Eq; req_value := name f; req_limit := 5 |}.

(** The request of a token search. *)
Definition token_request (token : jsstring) : search_request :=
  {| req_operator := ContainsToken; req_value := token; req_limit := 50 |}.

(** Try exact name search first. *)
Definition exact_search {L} (svc : services) (f : Facility)
    : prog L (option MatchResult) :=
  try_catch
    (exactResult ← doSearch svc (exact_request f);
     match results exactResult with
     | match_ :: _ =>
         if has_address match_ then
           mret (Some {| facility := f; company := Some match_;
                         matchType := MExact; confidence := 1 |})
         else mret None
     | [] => mret None
     end)
    (fun _ => mret None).

(** [normalizedName.split(" ")[0]] *)
Fixpoint first_word (s : jsstring) : jsstring :=
  match s with
  | [] => []
  | c :: s' => if (c =? 32)%N then [] else c :: first_word s'
  end.

(** The loop over the results of the normalized search. *)
Fixpoint first_similar (f : Facility) (normalizedName : jsstring)
    (companies : list HubSpotCompany) : option MatchResult :=
  match companies with
  | [] => None
  | c :: rest =>
      let companyNormalized := normalizeName (name_or_empty c) (country f) in
      let sim := similarity (toLowerCase normalizedName)
                            (toLowerCase companyNormalized) in
      if gt sim (65 # 100) && has_address c then
        Some {| facility := f; company := Some c; matchType := MNormalized;
                confidence := sim |}
      else first_similar f normalizedName rest
  end.

(** Try normalized name search. *)
Definition normalized_search {L} (svc : services) (f : Facility)
    (normalizedName : jsstring) : prog L (option MatchResult) :=
  try_catch
    (normalizedResult ← doSearch svc
        {| req_operator := ContainsToken;
           req_value := first_word normalizedName; req_limit := 20 |};
     mret (first_similar f normalizedName (results normalizedResult)))
    (fun _ => mret None).

(** "Try each token until we get manageable results": the loop over the
    tokens, with the variables [tokenResult] and [searchToken]. *)
Fixpoint token_searches {L} (svc : services) (tokens : list jsstring)
    (tokenResult : option search_response) (searchToken : jsstring)
    : prog L (option search_response * jsstring) :=
  match tokens with
  | [] => mret (tokenResult, searchToken)
  | token :: rest =>
      result ← doSearch svc (token_request token);
      if Storage.is_null tokenResult || (total result <? 100) then
        if total result <? 100 then mret (Some result, token)
        else token_searches svc rest (Some result) token
      else token_searches svc rest tokenResult searchToken
  end.

(** The candidates that are scored: [tokenResult?.results || []]. *)
Definition scored_candidates (tokenResult : option search_response)
    : list HubSpotCompany :=
  match tokenResult with
  | Some r => results r
  | None => []
  end.

Definition token_overlap (tokens companyTokens : list jsstring) : nat :=
  length (List.filter
            (fun t => existsb (fun ct => includes ct t || includes t ct
                                         || gt (similarity t ct) (8 # 10))
                              companyTokens)
            tokens).

Definition combined_score (f : Facility) (normalizedName : jsstring)
    (tokens : list jsstring) (c : HubSpotCompany) : Q :=
  let companyNormalized := normalizeName (name_or_empty c) (country f) in
  let companyTokens := extractTokens companyNormalized in
  let overlap := token_overlap tokens companyTokens in
  let tokenScore :=
    (inject_Z (Z.of_nat overlap)
     / inject_Z (Z.of_nat (Nat.max (length tokens) 1)))%Q in
  let nameScore := similarity (toLowerCase normalizedName)
                              (toLowerCase companyNormalized) in
  (tokenScore * (4 # 10) + nameScore * (6 # 10))%Q.

(** "Score each result": one pass of the loop on [(bestMatch, bestScore)]. *)
Definition score_step (f : Facility) (normalizedName : jsstring)
    (tokens : list jsstring) (best : option HubSpotCompany * Q)
    (c : HubSpotCompany) : option HubSpotCompany * Q :=
  if negb (has_address c) then best
  else
    let combinedScore := combined_score f normalizedName tokens c in
    if gt combinedScore (snd best) && gt combinedScore (55 # 100)
    then (Some c, combinedScore)
    else best.

(** Try token-based search with multiple tokens. *)
Definition token_search {L} (svc : services) (f : Facility)
    (normalizedName : jsstring) (tokens : list jsstring)
    : prog L (option MatchResult) :=
  try_catch
    ('(tokenResult, _) ←
       token_searches svc tokens None (default [] (head tokens));
     let '(bestMatch, bestScore) :=
       fold_left (score_step f normalizedName tokens)
                 (scored_candidates tokenResult) (None, 0%Q) in
     match bestMatch with
     | Some c => mret (Some {| facility := f; company := Some c;
                               matchType := MToken; confidence := bestScore |})
     | None => mret None
     end)
    (fun _ => mret None).

Definition searchHubSpotCompany {L} (svc : services) (f : Facility)
    : prog L MatchResult :=
  let normalizedName := normalizeName (name f) (country f) in
  let tokens := extractTokens normalizedName in
  found ← exact_search svc f;
  match found with
  | Some result => mret result
  | None =>
      found ← (if negb (eqb normalizedName (name f))
               then normalized_search svc f normalizedName
               else mret None);
      match found with
      | Some result => mret result
      | None =>
          found ← (if 0 <? length tokens
                   then token_search svc f normalizedName tokens
                   else mret None);
          match found with
          | Some result => mret result
          | None => mret {| facility := f; company := None;
                            matchType := MNone; confidence := 0 |}
          end
      end
  end.

End Matcher.

(** ** Calls to the stored procedures

    [rpc] of both scripts: the call throws when the endpoint answers with an
    error status, which it does when the oracle says so or when the statement
    fails. *)

Module Rpc.
Import JS Effects.

Definition rpc_read {L A} (svc : services) (fn : jsstring)
    (query : Storage.table -> A) : prog L A :=
  emit (RpcBacklog fn);;
  if rpc_rejects svc (RpcBacklog fn) then throw (lit "RPC failed")
  else rows ← read_db; mret (query rows).

Definition rpc_write {L} (svc : services) (fn facility_id : jsstring)
    (statement : nat -> Storage.table -> option Storage.table)
    : prog L unit :=
  emit (RpcUpdate fn facility_id);;
  if rpc_rejects svc (RpcUpdate fn facility_id) then throw (lit "RPC failed")
  else write_db statement.

End Rpc.

(** ** Geocoding Router and the geocoding batch script *)

Module Geocoder.
Import JS Effects Rpc.

(** A row of the backlog as the script receives it; [city] and [postal_code]
    are [null] when the column is. *)
Record FacilityToGeocode : Type := {
  id : jsstring;
  name : jsstring;
  address : jsstring;
  city : option jsstring;
  postal_code : option jsstring;
  country : jsstring
}.

Record GeocodeResult : Type := {
  latitude : Q;
  longitude : Q;
  confidence : Q;
  provider : jsstring
}.

(** [`${x}`] *)
Definition template (x : option jsstring) : jsstring :=
  match x with Some s => s | None => lit "null" end.

(** [await fetch(url)] followed by the test of [resp.ok] and, on success,
    [await resp.json()]: [None] when the status is not ok. *)
Definition fetch_json {L Body} (e : event) (answer : fetch_result Body)
    : prog L (option Body) :=
  emit e;;
  match answer with
  | FetchThrows => throw (lit "fetch failed")
  | HttpError _ => mret None
  | HttpOk (Some data) => mret (Some data)
  | HttpOk None => throw (lit "invalid json")
  end.

Definition kartverket_hit (best : kartverket_address) (confidence : Q)
    : GeocodeResult :=
  {| latitude := fst (representasjonspunkt best);
     longitude := snd (representasjonspunkt best);
     confidence := confidence;
     provider := lit "kartverket" |}.

(** The query of the first request: address + postal code. *)
Definition primary_query (f : FacilityToGeocode) : jsstring :=
  trim (address f ++ lit " " ++ template (postal_code f)).

(** The query of the fallback: "try with just city name". *)
Definition fallback_query (f : FacilityToGeocode) : jsstring :=
  address f ++ lit " " ++ template (city f).

(** Kartverket geocoder for Norway. *)
Definition geocodeKartverket {L} (svc : services) (f : FacilityToGeocode)
    : prog L (option GeocodeResult) :=
  let searchQuery := primary_query f in
  try_catch
    (resp ← fetch_json (KartverketFetch searchQuery)
                       (kartverket_answer svc searchQuery);
     match resp with
     | None => mret None
     | Some data =>
         match adresser data with
         | Some (best :: _) =>
             let postalMatch :=
               bool_decide (Some (postnummer best) = postal_code f) in
             let confidence := if postalMatch then 95 # 100 else 75 # 100 in
             mret (Some (kartverket_hit best confidence))
         | _ =>
             resp2 ← fetch_json (KartverketFetch (fallback_query f))
                                (kartverket_answer svc (fallback_query f));
             match resp2 with
             | Some data2 =>
                 match adresser data2 with
                 | Some (best :: _) =>
                     mret (Some (kartverket_hit best (6 # 10)))
                 | _ => mret None
                 end
             | None => mret None
             end
         end
     end)
    (fun _ => mret None).

(** The candidates a query returns: [None] when the request fails, no
    candidate when [adresser] is missing from the answer. *)
Definition candidates (svc : services) (sok : jsstring)
    : option (list kartverket_address) :=
  match kartverket_answer svc sok with
  | HttpOk (Some data) => Some (default [] (adresser data))
  | _ => None
  end.

(** [parts.join(", ")] *)
Fixpoint join (parts : list jsstring) : jsstring :=
  match parts with
  | [] => []
  | [p] => p
  | p :: rest => p ++ lit ", " ++ join rest
  end.

(** HERE geocoder for Sweden/Denmark. *)
Definition geocodeHere {L} (env : environment) (svc : services)
    (f : FacilityToGeocode) : prog L (option GeocodeResult) :=
  match HERE_API_KEY env with
  | Some (c :: key) =>
      let addressParts :=
        omap (fun x => if truthy x then x else None)
             [Some (address f); postal_code f; city f; Some (country f)] in
      let q := join addressParts in
      try_catch
        (resp ← fetch_json (HereFetch q (c :: key)) (here_answer svc q);
         match resp with
         | None => mret None
         | Some data =>
             match items data with
             | Some (best :: _) =>
                 let confidence :=
                   match scoring best with
                   | Some score => if Qeq_bool score 0 then 7 # 10 else score
                   | None => 7 # 10
                   end in
                 mret (Some {| latitude := fst (position best);
                               longitude := snd (position best);
                               confidence := confidence;
                               provider := lit "here" |})
             | _ => mret None
             end
         end)
        (fun _ => mret None)
  | _ => mret None
  end.

(** Main geocoding function. *)
Definition geocodeFacility {L} (env : environment) (svc : services)
    (f : FacilityToGeocode) : prog L (option GeocodeResult) :=
  if eqb (country f) (lit "Norway") then geocodeKartverket svc f
  else geocodeHere env svc f.

(** Update facility with geocode result. *)
Definition updateFacilityGeocode {L} (svc : services) (facilityId : jsstring)
    (result : GeocodeResult) : prog L unit :=
  rpc_write svc (lit "asset_map_update_facility_geocode") facilityId
    (fun now rows =>
       Some (Storage.asset_map_update_facility_geocode now rows facilityId
               (Some (latitude result)) (Some (longitude result))
               Storage.success (Some (confidence result)))).

(** Mark facility as failed. *)
Definition markFacilityFailed {L} (svc : services) (facilityId : jsstring)
    : prog L unit :=
  rpc_write svc (lit "asset_map_update_facility_geocode") facilityId
    (fun now rows =>
       Some (Storage.asset_map_update_facility_geocode now rows facilityId
               None None Storage.failed None)).

(** The command line, parsed: [--country=], [--limit=] (100 when absent),
    [--dry-run]. *)
Record options : Type := {
  countryFilter : option jsstring;
  limit : nat;
  dryRun : bool
}.

(** The counters [success] and [failed] of [main]. *)
Record counters : Type := {
  success : nat;
  failed : nat
}.

Definition to_geocode (r : Storage.facility_row) : FacilityToGeocode :=
  {| id := Storage.id r; name := Storage.name r;
     address := default [] (Storage.address r);
     city := Storage.city r; postal_code := Storage.postal_code r;
     country := Storage.country r |}.

(** [x || null] *)
Definition or_null (x : option jsstring) : option jsstring :=
  if truthy x then x else None.

(** The body of the loop of [main]. *)
Definition geocode_one (env : environment) (svc : services) (dry : bool)
    (_ : unit) (f : FacilityToGeocode) : prog counters unit :=
  result ← geocodeFacility env svc f;
  match result with
  | Some r =>
      (if dry then mret tt else updateFacilityGeocode svc (id f) r);;
      update_locals (fun c => {| success := S (success c);
                                 failed := failed c |})
  | None =>
      (if dry then mret tt else markFacilityFailed svc (id f));;
      update_locals (fun c => {| success := success c;
                                 failed := S (failed c) |})
  end.

(** Main execution. A missing [HERE_API_KEY] only prints a warning. The
    promise [main()] returns is rejected when a step throws; the script then
    prints the error and the process ends. *)
Definition main (env : environment) (svc : services) (opts : options)
    : prog counters unit :=
  facilities ← rpc_read svc (lit "asset_map_get_facilities_for_geocoding")
    (fun rows => map to_geocode
       (Storage.asset_map_get_facilities_for_geocoding rows
          (or_null (countryFilter opts)) (limit opts)));
  if length facilities =? 0 then mret tt
  else
    update_locals (fun _ => {| success := 0; failed := 0 |});;
    for_each facilities (geocode_one env svc (dryRun opts)) tt.

End Geocoder.

(** ** The matching batch script ([syncHubSpotAddresses]) *)

Module Sync.
Import JS Effects Rpc Matcher.

Definition BATCH_SIZE : nat := 50.

Definition to_facility (r : Storage.facility_row) : Facility :=
  {| id := Storage.id r; name := Storage.name r;
     country := Storage.country r; address := Storage.address r;
     city := Storage.city r; postal_code := Storage.postal_code r;
     hubspot_id := Storage.hubspot_id r |}.

Record by_match_type : Type := {
  n_exact : nat;
  n_normalized : nat;
  n_token : nat;
  n_fuzzy : nat;
  n_none : nat
}.

Record stats : Type := {
  processed : nat;
  matched : nat;
  updated : nat;
  failed : nat;
  byMatchType : by_match_type;
  byCountry : gmap (list N) (nat * nat)     (* matched, total *)
}.

Definition no_stats : stats :=
  {| processed := 0; matched := 0; updated := 0; failed := 0;
     byMatchType := {| n_exact := 0; n_normalized := 0; n_token := 0;
                       n_fuzzy := 0; n_none := 0 |};
     byCountry := ∅ |}.

Record options : Type := {
  dryRun : bool;
  limit : option nat;
  country : option jsstring;
  verbose : bool
}.

(** [x || null] *)
Definition or_null (x : option jsstring) : option jsstring :=
  if truthy x then x else None.

(** Fetch facilities missing addresses: [p_limit: limit || 5000],
    [p_country: country || null]. *)
Definition fetchFacilitiesWithoutAddresses {L} (svc : services)
    (limit : option nat) (country : option jsstring)
    : prog L (list Facility) :=
  let p_limit := match limit with Some (S n) => S n | _ => 5000 end in
  rpc_read svc (lit "asset_map_get_facilities_for_sync")
    (fun rows => map to_facility
       (Storage.asset_map_get_facilities_for_sync rows p_limit
          (or_null country))).

(** Update facility via RPC. *)
Definition updateFacility {L} (svc : services) (f : Facility)
    (c : HubSpotCompany) : prog L unit :=
  rpc_write svc (lit "asset_map_update_facility_from_hubspot") (id f)
    (fun now rows =>
       Storage.asset_map_update_facility_from_hubspot now rows (id f)
         (company_id c) (or_null (prop_address (properties c)))
         (or_null (prop_city (properties c)))
         (or_null (prop_zip (properties c)))).

Definition count_processed (country : jsstring) (s : stats) : stats :=
  let '(m, t) := default (0, 0) (byCountry s !! country) in
  {| processed := S (processed s); matched := matched s;
     updated := updated s; failed := failed s;
     byMatchType := byMatchType s;
     byCountry := <[country := (m, S t)]> (byCountry s) |}.

Definition count_match_type (t : match_type) (s : stats) : stats :=
  let b := byMatchType s in
  let b' :=
    match t with
    | MExact => {| n_exact := S (n_exact b); n_normalized := n_normalized b;
                   n_token := n_token b; n_fuzzy := n_fuzzy b;
                   n_none := n_none b |}
    | MNormalized => {| n_exact := n_exact b;
                        n_normalized := S (n_normalized b);
                        n_token := n_token b; n_fuzzy := n_fuzzy b;
                        n_none := n_none b |}
    | MToken => {| n_exact := n_exact b; n_normalized := n_normalized b;
                   n_token := S (n_token b); n_fuzzy := n_fuzzy b;
                   n_none := n_none b |}
    | MFuzzy => {| n_exact := n_exact b; n_normalized := n_normalized b;
                   n_token := n_token b; n_fuzzy := S (n_fuzzy b);
                   n_none := n_none b |}
    | MNone => {| n_exact := n_exact b; n_normalized := n_normalized b;
                  n_token := n_token b; n_fuzzy := n_fuzzy b;
                  n_none := S (n_none b) |}
    end in
  {| processed := processed s; matched := matched s; updated := updated s;
     failed := failed s; byMatchType := b'; byCountry := byCountry s |}.

Definition count_matched (country : jsstring) (s : stats) : stats :=
  let '(m, t) := default (0, 0) (byCountry s !! country) in
  {| processed := processed s; matched := S (matched s);
     updated := updated s; failed := failed s;
     byMatchType := byMatchType s;
     byCountry := <[country := (S m, t)]> (byCountry s) |}.

Definition count_updated (s : stats) : stats :=
  {| processed := processed s; matched := matched s;
     updated := S (updated s); failed := failed s;
     byMatchType := byMatchType s; byCountry := byCountry s |}.

Definition count_failed (s : stats) : stats :=
  {| processed := processed s; matched := matched s; updated := updated s;
     failed := S (failed s);
     byMatchType := byMatchType s; byCountry := byCountry s |}.

(** The body of the loop over a batch. *)
Definition sync_one (svc : services) (dry : bool) (_ : unit) (f : Facility)
    : prog stats unit :=
  update_locals (count_processed (Matcher.country f));;
  try_catch
    (result ← searchHubSpotCompany svc f;
     update_locals (count_match_type (matchType result));;
     match company result with
     | Some c =>
         update_locals (count_matched (Matcher.country f));;
         if dry then mret tt
         else updateFacility svc f c;; update_locals count_updated
     | None => mret tt
     end)
    (fun _ => update_locals count_failed).

(** The start indices [0, 50, 100, ...] of the batches. *)
Definition batch_starts (n : nat) : list nat :=
  map (fun k => k * BATCH_SIZE) (seq 0 ((n + BATCH_SIZE - 1) / BATCH_SIZE)).

(** Main sync function. [process.exit(1)] on a missing variable of the
    environment. *)
Definition syncHubSpotAddresses (env : environment) (svc : services)
    (opts : options) : prog stats unit :=
  if negb (truthy (HUBSPOT_API_KEY env)) || negb (truthy (SUPABASE_URL env))
     || negb (truthy (SUPABASE_SERVICE_KEY env))
  then exit 1
  else
    facilities ← fetchFacilitiesWithoutAddresses svc (limit opts)
                   (country opts);
    if length facilities =? 0 then mret tt
    else
      update_locals (fun _ => no_stats);;
      for_each (batch_starts (length facilities))
        (fun _ i =>
           let batch := take BATCH_SIZE (drop i facilities) in
           for_each batch (sync_one svc (dryRun opts)) tt)
        tt.

End Sync.

(** ** Concrete inputs used in the examples *)

Module Examples.
Import JS Effects.

(** A stored facility that has not been resolved yet. *)
Definition new_row (id name country : string) (address : option string)
    : Storage.facility_row :=
  {| Storage.id := lit id; Storage.hubspot_id := None;
     Storage.name := lit name; Storage.address := lit <$> address;
     Storage.city := None; Storage.postal_code := None;
     Storage.country := lit country;
     Storage.latitude := None; Storage.longitude := None;
     Storage.geocode_status := Storage.pending;
     Storage.geocode_confidence := None;
     Storage.charger_count := 0; Storage.created_at := 0;
     Storage.updated_at := 0 |}.

(** A facility that is already geocoded. *)
Definition oslo_row : Storage.facility_row :=
  {| Storage.id := lit "f1"; Storage.hubspot_id := None;
     Storage.name := lit "Solsiden"; Storage.address := Some (lit "Storgata 5");
     Storage.city := Some (lit "Oslo");
     Storage.postal_code := Some (lit "0155");
     Storage.country := lit "Norway";
     Storage.latitude := Some (5991 # 100);
     Storage.longitude := Some (1075 # 100);
     Storage.geocode_status := Storage.success;
     Storage.geocode_confidence := Some (95 # 100);
     Storage.charger_count := 4; Storage.created_at := 0;
     Storage.updated_at := 1 |}.

Definition start {L} (rows : Storage.table) (l : L) : state L :=
  {| db := rows; clock := 10; log := []; locals := l |}.

(** Services that answer every call and find nothing. *)
Definition nothing_found : services :=
  {| doSearch_answer := fun _ => Some {| total := 0; results := [] |};
     kartverket_answer := fun _ => HttpOk (Some {| adresser := Some [] |});
     here_answer := fun _ => HttpOk (Some {| items := Some [] |});
     rpc_rejects := fun _ => false |}.

Definition all_credentials : environment :=
  {| HUBSPOT_API_KEY := Some (lit "pat-1");
     SUPABASE_URL := Some (lit "https://db");
     SUPABASE_SERVICE_KEY := Some (lit "key");
     HERE_API_KEY := Some (lit "here-1") |}.

Definition no_here_key : environment :=
  {| HUBSPOT_API_KEY := Some (lit "pat-1");
     SUPABASE_URL := Some (lit "https://db");
     SUPABASE_SERVICE_KEY := Some (lit "key");
     HERE_API_KEY := None |}.

Definition new_company (id name : string) (address : option string)
    : HubSpotCompany :=
  {| company_id := lit id;
     properties := {| prop_name := Some (lit name);
                      prop_address := lit <$> address;
                      prop_city := None; prop_zip := None;
                      prop_country := None |} |}.

Definition new_facility (id name country : string) : Matcher.Facility :=
  {| Matcher.id := lit id; Matcher.name := lit name;
     Matcher.country := lit country; Matcher.address := None;
     Matcher.city := None; Matcher.postal_code := None;
     Matcher.hubspot_id := None |}.

(** A CRM with two companies of the same name, the first one without an
    address; every search returns both. *)
Definition without_address : HubSpotCompany :=
  new_company "100" "Sameiet Solsiden Borettslag" None.

Definition with_address : HubSpotCompany :=
  new_company "101" "Sameiet Solsiden Borettslag" (Some "Storgata 5"%string).

Definition crm_with_duplicates : services :=
  {| doSearch_answer := fun _ =>
       Some {| total := 2; results := [without_address; with_address] |};
     kartverket_answer := fun _ => HttpOk (Some {| adresser := Some [] |});
     here_answer := fun _ => HttpOk (Some {| items := Some [] |});
     rpc_rejects := fun _ => false |}.

(** A CRM where both tokens of "Solsiden Park" are frequent. *)
Definition solsiden_hage : HubSpotCompany :=
  new_company "200" "Solsiden Hage" (Some "Hageveien 1"%string).

Definition solsiden_park : HubSpotCompany :=
  new_company "201" "Solsiden Park" (Some "Parkveien 2"%string).

Definition answer_solsiden : search_response :=
  {| total := 150; results := [solsiden_hage] |}.

Definition answer_park : search_response :=
  {| total := 300; results := [solsiden_park] |}.

Definition crowded_crm : services :=
  {| doSearch_answer := fun req =>
       match req_operator req with
       | ContainsToken =>
           if eqb (req_value req) (lit "solsiden") then Some answer_solsiden
           else if eqb (req_value req) (lit "park") then Some answer_park
           else Some {| total := 0; results := [] |}
       | Eq => Some {| total := 0; results := [] |}
       end;
     kartverket_answer := fun _ => HttpOk (Some {| adresser := Some [] |});
     here_answer := fun _ => HttpOk (Some {| items := Some [] |});
     rpc_rejects := fun _ => false |}.

(** A registry that knows one address. *)
Definition kongens_gate : kartverket_address :=
  {| representasjonspunkt := (599087 # 10000, 107416 # 10000);
     adressetekst := lit "Kongens gate 1"; postnummer := lit "0150";
     poststed := lit "OSLO" |}.

Definition registry : services :=
  {| doSearch_answer := fun _ => Some {| total := 0; results := [] |};
     kartverket_answer := fun sok =>
       if eqb sok (lit "Kongens gate 1 0150")
       then HttpOk (Some {| adresser := Some [kongens_gate] |})
       else HttpOk (Some {| adresser := Some [] |});
     here_answer := fun _ => HttpOk (Some {| items := Some [] |});
     rpc_rejects := fun _ => false |}.

Definition to_geocode (id address postal_code city country : string)
    : Geocoder.FacilityToGeocode :=
  {| Geocoder.id := lit id; Geocoder.name := lit id;
     Geocoder.address := lit address;
     Geocoder.city := Some (lit city);
     Geocoder.postal_code := Some (lit postal_code);
     Geocoder.country := lit country |}.

(** A Norwegian facility with a full address. *)
Definition norwegian_row (id name address postal_code : string)
    : Storage.facility_row :=
  {| Storage.id := lit id; Storage.hubspot_id := None;
     Storage.name := lit name; Storage.address := Some (lit address);
     Storage.city := Some (lit "Oslo");
     Storage.postal_code := Some (lit postal_code);
     Storage.country := lit "Norway";
     Storage.latitude := None; Storage.longitude := None;
     Storage.geocode_status := Storage.pending;
     Storage.geocode_confidence := None;
     Storage.charger_count := 0; Storage.created_at := 0;
     Storage.updated_at := 0 |}.

(** The registry finds every address; the storage endpoint rejects the
    updates of facility "f1". *)
Definition rejecting_f1 : services :=
  {| doSearch_answer := fun _ =>
       Some {| total := 1; results := [with_address] |};
     kartverket_answer := fun _ =>
       HttpOk (Some {| adresser := Some [kongens_gate] |});
     here_answer := fun _ => HttpOk (Some {| items := Some [] |});
     rpc_rejects := fun e =>
       match e with
       | RpcUpdate _ facility_id => eqb facility_id (lit "f1")
       | _ => false
       end |}.

End Examples.

(** ** Notions used to state further properties *)

Module RegexSpec.
Import JS.

(** What a continuation leaves after a match is an end of its input. *)
Definition shrinks (k : nat -> jsstring -> option jsstring) : Prop :=
  forall pos s rest, k pos s = Some rest -> rest `suffix_of` s.

End RegexSpec.

Module MatcherSpec.
Import JS Effects Matcher.

(** The call is a CRM search. *)
Definition is_search (e : event) : Prop :=
  match e with
  | CrmSearch _ => True
  | _ => False
  end.

(** A result for facility [f] as the tiers build it: a company, which has an
    address, with the confidence of its tier, which is at most 1, or no
    company at all. *)
Definition sound_result (f : Facility) (r : MatchResult) : Prop :=
  facility r = f
  /\ match matchType r with
     | MExact =>
         (exists c, company r = Some c /\ has_address c = true)
         /\ confidence r = 1%Q
     | MNormalized =>
         (exists c, company r = Some c /\ has_address c = true)
         /\ gt (confidence r) (65 # 100) = true /\ (confidence r <= 1)%Q
     | MToken =>
         (exists c, company r = Some c /\ has_address c = true)
         /\ gt (confidence r) (55 # 100) = true /\ (confidence r <= 1)%Q
     | MFuzzy => False
     | MNone => company r = None /\ confidence r = 0%Q
     end.

(** The state of the scoring loop: nothing chosen yet, or a company with an
    address and a score above the threshold and at most 1. *)
Definition sound_best (best : option HubSpotCompany * Q) : Prop :=
  match fst best with
  | None => snd best = 0%Q
  | Some c => has_address c = true /\ gt (snd best) (55 # 100) = true
              /\ (snd best <= 1)%Q
  end.

(** The call is a CRM search by token. *)
Definition is_token_search (e : event) : Prop :=
  match e with
  | CrmSearch req => req_operator req = ContainsToken
  | _ => False
  end.

End MatcherSpec.

Module Frame.
Import JS Effects.

(** [m] leaves the table and the clock as they are, and every external call
    it issues satisfies [P]. *)
Definition quiet {L A} (P : event -> Prop) (m : prog L A) : Prop :=
  forall st,
    db (snd (m st)) = db st
    /\ clock (snd (m st)) = clock st
    /\ exists calls, log (snd (m st)) = log st ++ calls /\ Forall P calls.

(** The call does not write to the table. *)
Definition is_read (e : event) : Prop :=
  match e with
  | RpcUpdate _ _ => False
  | _ => True
  end.

(** The call goes to the national registry. *)
Definition is_kartverket (e : event) : Prop :=
  match e with
  | KartverketFetch _ => True
  | _ => False
  end.

(** The call goes to the commercial service. *)
Definition is_here (e : event) : Prop :=
  match e with
  | HereFetch _ _ => True
  | _ => False
  end.

End Frame.

Module Examples2.
Import JS Effects.

(** A CRM that fails on every search. *)
Definition crm_down : services :=
  {| doSearch_answer := fun _ => None;
     kartverket_answer := fun _ => FetchThrows;
     here_answer := fun _ => FetchThrows;
     rpc_rejects := fun _ => false |}.

(** A CRM where "solsiden" is frequent and "park" is not. *)
Definition answer_few : search_response :=
  {| total := 3; results := [Examples.solsiden_park] |}.

Definition selective_crm : services :=
  {| doSearch_answer := fun req =>
       match req_operator req with
       | ContainsToken =>
           if eqb (req_value req) (lit "solsiden")
           then Some Examples.answer_solsiden
           else if eqb (req_value req) (lit "park") then Some answer_few
           else Some {| total := 0; results := [] |}
       | Eq => Some {| total := 0; results := [] |}
       end;
     kartverket_answer := fun _ => HttpOk (Some {| adresser := Some [] |});
     here_answer := fun _ => HttpOk (Some {| items := Some [] |});
     rpc_rejects := fun _ => false |}.

End Examples2.

Module GeocoderSpec.
Import JS Effects Geocoder.

(** The query sent to the commercial service: address, postal code, city and
    country, without the empty ones, joined by ", ". *)
Definition here_query (f : FacilityToGeocode) : jsstring :=
  join (omap (fun x => if truthy x then x else None)
          [Some (address f); postal_code f; city f; Some (country f)]).

(** The items a query returns: [None] when the request fails, no item when
    [items] is missing from the answer. *)
Definition here_items (svc : services) (q : jsstring)
    : option (list here_item) :=
  match here_answer svc q with
  | HttpOk (Some data) => Some (default [] (items data))
  | _ => None
  end.

(** [best.scoring?.queryScore || 0.7] *)
Definition here_confidence (best : here_item) : Q :=
  match scoring best with
  | Some score => if Qeq_bool score 0 then 7 # 10 else score
  | None => 7 # 10
  end.

Definition here_hit (best : here_item) : GeocodeResult :=
  {| latitude := fst (position best); longitude := snd (position best);
     confidence := here_confidence best; provider := lit "here" |}.

End GeocoderSpec.

Module StorageSpec.
Import JS Storage.

(** [asset_map_update_facility_geocode] as the migration [add_geocoding_rpc]
    first defined it: the coordinates are overwritten, with [NULL] too. *)
Definition asset_map_update_facility_geocode_first (now : nat) (db : table)
    (p_facility_id : jsstring) (p_latitude p_longitude : option Q)
    (p_geocode_status : status_value) (p_geocode_confidence : option Q)
    : table :=
  map (fun f =>
    if eqb (id f) p_facility_id then
      {| id := id f; hubspot_id := hubspot_id f; name := name f;
         address := address f; city := city f; postal_code := postal_code f;
         country := country f;
         latitude := p_latitude;
         longitude := p_longitude;
         geocode_status := p_geocode_status;
         geocode_confidence := p_geocode_confidence;
         charger_count := charger_count f; created_at := created_at f;
         updated_at := now |}
    else f) db.

(** The number of rows that satisfy a [FILTER (WHERE ...)] clause. *)
Definition count_where (P : facility_row -> bool) (db : table) : nat :=
  length (List.filter P db).

Record geocode_stats : Type := {
  total_facilities : nat;
  geocoded : nat;
  needs_geocoding : nat;
  no_address : nat;
  norway_needs : nat;
  sweden_needs : nat;
  denmark_needs : nat
}.

Definition needs_in (c : string) (f : facility_row) : bool :=
  negb (is_null (address f)) && is_null (latitude f)
  && eqb (country f) (lit c).

(** [asset_map_get_geocode_stats] *)
Definition asset_map_get_geocode_stats (db : table) : geocode_stats :=
  {| total_facilities := length db;
     geocoded := count_where (fun f => negb (is_null (latitude f))) db;
     needs_geocoding :=
       count_where (fun f => negb (is_null (address f))
                             && is_null (latitude f)) db;
     no_address := count_where (fun f => is_null (address f)) db;
     norway_needs := count_where (needs_in "Norway") db;
     sweden_needs := count_where (needs_in "Sweden") db;
     denmark_needs := count_where (needs_in "Denmark") db |}.

(** A number that a column [DECIMAL(precision, scale)] stores as it is: it
    has at most [scale] decimals and fewer than [precision - scale] digits
    before the point. Any other number is rounded on assignment, or the
    statement fails. *)
Definition fits_decimal (precision scale : nat) (q : Q) : bool :=
  let n := (Qnum q * 10 ^ Z.of_nat scale)%Z in
  ((n mod Z.pos (Qden q) =? 0)
   && (Z.abs n <? 10 ^ Z.of_nat precision * Z.pos (Qden q)))%Z.

(** [r'] is [r] after the success update for [facility_id] with [lat], [lon]
    and [conf]: a row of another facility is as it was; a row of the facility
    has the new status, confidence and coordinates and keeps every other
    column but the time stamp of the update. *)
Definition marked_success (facility_id : jsstring) (lat lon conf : Q)
    (r r' : facility_row) : Prop :=
  if eqb (id r) facility_id then
    geocode_status r' = success /\ geocode_confidence r' = Some conf
    /\ latitude r' = Some lat /\ longitude r' = Some lon
    /\ id r' = id r /\ hubspot_id r' = hubspot_id r /\ name r' = name r
    /\ address r' = address r /\ city r' = city r
    /\ postal_code r' = postal_code r /\ country r' = country r
    /\ charger_count r' = charger_count r /\ created_at r' = created_at r
  else r' = r.

(** [r'] is the row [r] after the update from the CRM for [facility_id]: a
    row of another facility is as it was; a row of the facility differs at
    most in the CRM reference, the address, the city, the postal code and the
    time stamp of the update. *)
Definition crm_update_only (facility_id : jsstring) (r r' : facility_row)
    : Prop :=
  if eqb (id r) facility_id then
    id r' = id r /\ name r' = name r /\ country r' = country r
    /\ latitude r' = latitude r /\ longitude r' = longitude r
    /\ geocode_status r' = geocode_status r
    /\ geocode_confidence r' = geocode_confidence r
    /\ charger_count r' = charger_count r /\ created_at r' = created_at r
  else r' = r.

(** The rows are in the order of [leb]: each row comes before every later
    one. *)
Definition in_order (leb : facility_row -> facility_row -> bool)
    (rows : table) : Prop :=
  StronglySorted (fun a b => leb a b = true) rows.

End StorageSpec.

(** ** The map layer ([facilitiesToGeoJSON]) *)

Module GeoJSON.
Import JS Storage.

Record FacilityProperties : Type := {
  p_id : jsstring;
  p_name : jsstring;
  p_country : jsstring;
  p_city : option jsstring;
  p_address : option jsstring;
  p_postal_code : option jsstring;
  p_charger_count : nat
}.

(** A feature with a point geometry; [coordinates] is the array
    [[f.longitude, f.latitude]] as it is built, [None] standing for [null]. *)
Record FacilityFeature : Type := {
  properties : FacilityProperties;
  coordinates : option Q * option Q
}.

(** Convert facilities array to the features of a GeoJSON collection. *)
Definition facilitiesToGeoJSON (facilities : table) : list FacilityFeature :=
  map (fun f =>
         {| properties :=
              {| p_id := id f; p_name := name f; p_country := country f;
                 p_city := city f; p_address := address f;
                 p_postal_code := postal_code f;
                 p_charger_count := charger_count f |};
            coordinates := (longitude f, latitude f) |})
    (List.filter (fun f => negb (is_null (latitude f))
                           && negb (is_null (longitude f))) facilities).

End GeoJSON.

Module Objects.
Import JS.

(** The property names that every object of the scripts inherits from
    [Object.prototype]. A lookup [table[key]] with one of them finds the
    inherited member, which is no entry of the table. *)
Definition inherited_names : list jsstring :=
  [lit "constructor"; lit "__defineGetter__"; lit "__defineSetter__";
   lit "hasOwnProperty"; lit "__lookupGetter__"; lit "__lookupSetter__";
   lit "isPrototypeOf"; lit "propertyIsEnumerable"; lit "toString";
   lit "valueOf"; lit "__proto__"; lit "toLocaleString"].

(** [key] is none of them: a lookup finds an entry of the table itself, or
    nothing. *)
Definition plain_key (key : jsstring) : bool :=
  negb (existsb (eqb key) inherited_names).

End Objects.

Module RunSpec.
Import JS Effects.

(** The statistics of the matching stage fit together: every processed
    record has one match type, never "fuzzy"; the matched ones are those of
    the three tiers; a dry run neither updates nor fails, and otherwise every
    matched record is either updated or failed. *)
Definition consistent (dry : bool) (s : Sync.stats) : Prop :=
  let b := Sync.byMatchType s in
  Sync.processed s
  = Sync.n_exact b + Sync.n_normalized b + Sync.n_token b + Sync.n_none b
  /\ Sync.n_fuzzy b = 0
  /\ Sync.matched s = Sync.n_exact b + Sync.n_normalized b + Sync.n_token b
  /\ if dry then Sync.updated s = 0 /\ Sync.failed s = 0
     else Sync.updated s + Sync.failed s = Sync.matched s.

(** [r'] is the row [r] after a geocoding run on the facilities [ids]: only
    the coordinates, the status, the confidence and the time stamp can have
    changed, and only for a facility of the run, whose status is then
    "success", with both coordinates, or "failed". *)
Definition geocoded_only (ids : list jsstring) (r r' : Storage.facility_row)
    : Prop :=
  Storage.id r' = Storage.id r /\ Storage.hubspot_id r' = Storage.hubspot_id r
  /\ Storage.name r' = Storage.name r
  /\ Storage.address r' = Storage.address r
  /\ Storage.city r' = Storage.city r
  /\ Storage.postal_code r' = Storage.postal_code r
  /\ Storage.country r' = Storage.country r
  /\ Storage.charger_count r' = Storage.charger_count r
  /\ (Storage.id r ∉ ids -> r' = r)
  /\ (Storage.id r ∈ ids ->
      (Storage.geocode_status r' = Storage.success
       /\ Storage.latitude r' <> None /\ Storage.longitude r' <> None)
      \/ Storage.geocode_status r' = Storage.failed).

(** The names that [calls] looks up by exact search, in order. *)
Definition exact_lookups (calls : list event) : list jsstring :=
  omap (fun e => match e with
                 | CrmSearch req =>
                     match req_operator req with
                     | Effects.Eq => Some (req_value req)
                     | ContainsToken => None
                     end
                 | _ => None
                 end) calls.

(** The facilities for which [calls] calls an updating procedure, in
    order. *)
Definition updated_ids (calls : list event) : list jsstring :=
  omap (fun e => match e with
                 | RpcUpdate _ facility_id => Some facility_id
                 | _ => None
                 end) calls.

End RunSpec.

Module TierSpec.
Import JS Effects Matcher.

(** The request of the normalized search: the first word of the normalized
    name, at most 20 results. *)
Definition normalized_request (normalizedName : jsstring) : search_request :=
  {| req_operator := ContainsToken; req_value := first_word normalizedName;
     req_limit := 20 |}.

(** [sim] of the normalized tier for a company. *)
Definition name_similarity (f : Facility) (normalizedName : jsstring)
    (c : HubSpotCompany) : Q :=
  Similarity.similarity (toLowerCase normalizedName)
    (toLowerCase (Normalizer.normalizeName (name_or_empty c) (country f))).

(** [sim > 0.65 && company.properties.address] *)
Definition similar_enough (f : Facility) (normalizedName : jsstring)
    (c : HubSpotCompany) : bool :=
  gt (name_similarity f normalizedName c) (65 # 100) && has_address c.

(** The scoring loop of the token tier with its arithmetic left open:
    [score c] stands for the value of [combinedScore] that the script computes
    for [c], and [threshold] for the value of its literal [0.55]. *)
Definition score_step_by (score : HubSpotCompany -> Q) (threshold : Q)
    (best : option HubSpotCompany * Q) (c : HubSpotCompany)
    : option HubSpotCompany * Q :=
  if negb (has_address c) then best
  else
    let combinedScore := score c in
    if gt combinedScore (snd best) && gt combinedScore threshold
    then (Some c, combinedScore)
    else best.

End TierSpec.

Module Examples3.
Import JS Effects.

(** A database endpoint that rejects the reading of a backlog. *)
Definition db_down : services :=
  {| doSearch_answer := fun _ => Some {| total := 0; results := [] |};
     kartverket_answer := fun _ => HttpOk (Some {| adresser := Some [] |});
     here_answer := fun _ => HttpOk (Some {| items := Some [] |});
     rpc_rejects := fun e =>
       match e with
       | RpcBacklog _ => true
       | _ => false
       end |}.

End Examples3.

(** ** The charger columns with a [CHECK] constraint *)

Module Chargers.
Import JS.

(** [CHECK (column IN (...))]: a [NULL] passes. *)
Definition check_in (admitted : list jsstring) (v : option jsstring) : bool :=
  match v with
  | None => true
  | Some s => existsb (eqb s) admitted
  end.

Definition charger_type_values : list jsstring :=
  [lit "Private"; lit "Shared"].

Definition status_values : list jsstring :=
  [lit "Enabled"; lit "Disabled"; lit "Out of order"].

Definition ownership_values : list jsstring :=
  [lit "Driver"; lit "Housing Association"; lit "Volterra"].

End Chargers.

(** ** The spreadsheet importer ([import-excel]) *)

Module Importer.
Import JS Effects.

(** The columns of a spreadsheet row that the modelled functions read. *)
Record ExcelRow : Type := {
  Serial_Number : jsstring;
  Country : jsstring;
  Charger_Type : option jsstring;
  Current_Status : option jsstring;
  Facility_Name : option jsstring;
  Ownership : option jsstring
}.

(** Normalize status to match DB enum. *)
Definition normalizeStatus (status : option jsstring) : option jsstring :=
  if negb (truthy status) then None
  else
    let s := trim (default [] status) in
    if eqb s (lit "Enabled") then Some (lit "Enabled")
    else if eqb s (lit "Disabled") then Some (lit "Disabled")
    else if eqb s (lit "Out of order") || eqb s (lit "Out of Order")
    then Some (lit "Out of order")
    else None.

(** Normalize charger type. *)
Definition normalizeChargerType (type : option jsstring) : option jsstring :=
  if negb (truthy type) then None
  else
    let t := trim (default [] type) in
    if eqb t (lit "Private") then Some (lit "Private")
    else if eqb t (lit "Shared") then Some (lit "Shared")
    else None.

(** Normalize ownership. *)
Definition normalizeOwnership (ownership : option jsstring)
    : option jsstring :=
  if negb (truthy ownership) then None
  else
    let o := trim (default [] ownership) in
    if eqb o (lit "Driver") then Some (lit "Driver")
    else if eqb o (lit "Housing Association")
            || eqb o (lit "Housing association")
    then Some (lit "Housing Association")
    else if eqb o (lit "Volterra") then Some (lit "Volterra")
    else None.

(** A value of [facilityMap]. *)
Record facility_group : Type := {
  country : jsstring;
  chargerCount : nat;
  chargers : list ExcelRow
}.

(** [facilityMap]: a [Map], which keeps its keys in the order of their
    insertion. *)
Abbreviation facility_map := (list (jsstring * facility_group)) (only parsing).

(** [facilityMap.get(facilityName)] *)
Fixpoint get (facilityName : jsstring) (m : facility_map)
    : option facility_group :=
  match m with
  | [] => None
  | (k, g) :: m' => if eqb k facilityName then Some g else get facilityName m'
  end.

(** The two branches on [existing]: the group of the name gets one more
    charger, or a new group is set at the end of the map. *)
Fixpoint add_row (facilityName : jsstring) (row : ExcelRow) (m : facility_map)
    : facility_map :=
  match m with
  | [] => [(facilityName, {| country := Country row; chargerCount := 1;
                             chargers := [row] |})]
  | (k, g) :: m' =>
      if eqb k facilityName
      then (k, {| country := country g; chargerCount := chargerCount g + 1;
                  chargers := chargers g ++ [row] |}) :: m'
      else (k, g) :: add_row facilityName row m'
  end.

(** [row["Facility Name"]?.trim()], when it is not empty. *)
Definition facility_of (row : ExcelRow) : option jsstring :=
  match Facility_Name row with
  | None => None
  | Some n => match trim n with
              | [] => None
              | name => Some name
              end
  end.

(** The body of the loop "Group by facility". *)
Definition group_step (m : facility_map) (row : ExcelRow) : facility_map :=
  match facility_of row with
  | None => m
  | Some facilityName => add_row facilityName row m
  end.

Definition group_by_facility (rows : list ExcelRow) : facility_map :=
  fold_left group_step rows [].

(** An element of [facilitiesData]. *)
Record facility_data : Type := {
  fd_name : jsstring;
  fd_country : jsstring;
  fd_charger_count : nat;
  fd_geocode_status : Storage.status_value
}.

Definition facilitiesData (rows : list ExcelRow) : list facility_data :=
  map (fun '(name, data) =>
         {| fd_name := name; fd_country := country data;
            fd_charger_count := chargerCount data;
            fd_geocode_status := Storage.pending |})
      (group_by_facility rows).

(** The rows of a facility, in the order of the sheet. *)
Definition rows_of (facilityName : jsstring) (rows : list ExcelRow)
    : list ExcelRow :=
  List.filter (fun row => bool_decide (facility_of row = Some facilityName))
    rows.

End Importer.

(** ** The report script ([stats]) *)

Module Report.
Import JS.

Definition pageSize : nat := 1000.

Inductive fetched (A : Type) : Type :=
  | Fetched (rows : list A)
  | Rejected
  | Unfinished.
Arguments Fetched {A} rows.
Arguments Rejected {A}.
Arguments Unfinished {A}.

(** [fetchAllFacilities]: the loop [while (true)], with the answer of
    [get_facilities] to an offset given by [page] ([None]: the call throws).
    [fuel] bounds the number of passes. *)
Fixpoint fetch_from {A} (fuel : nat) (page : nat -> option (list A))
    (offset : nat) (allFacilities : list A) : fetched A :=
  match fuel with
  | 0 => Unfinished
  | S fuel' =>
      match page offset with
      | None => Rejected
      | Some batch =>
          if length batch <? pageSize then Fetched (allFacilities ++ batch)
          else fetch_from fuel' page (offset + pageSize)
                 (allFacilities ++ batch)
      end
  end.

Definition fetchAllFacilities {A} (fuel : nat)
    (page : nat -> option (list A)) : fetched A :=
  fetch_from fuel page 0 [].

End Report.

(** * Proofs *)

Module SimilarityFacts.
Import JS Similarity.

Lemma char_differs_sym x y : char_differs x y = char_differs y x.
Proof.
  unfold char_differs. f_equal. apply bool_decide_ext. split; congruence.
Qed.

Lemma char_differs_refl x : char_differs x x = false.
Proof. unfold char_differs. by rewrite bool_decide_eq_true_2. Qed.

Lemma table_row s l i j :
  table s l (S i) (S j) =
    if char_differs (charAt s i) (charAt l j)
    then Nat.min (Nat.min (table s l i j) (table s l (S i) j))
                 (table s l i (S j)) + 1
    else table s l i j.
Proof. reflexivity. Qed.

Lemma table_col0 s l i : table s l i 0 = i.
Proof. by destruct i. Qed.

Lemma table_sym s l i : forall j, table s l i j = table l s j i.
Proof.
  induction i as [|i IHi]; intros j.
  - by rewrite table_col0.
  - induction j as [|j IHj]; [done|].
    rewrite !table_row, (char_differs_sym (charAt l j)).
    rewrite <- IHj, <- !IHi. destruct (char_differs _ _); lia.
Qed.

Lemma table_diag s i : table s s i i = 0.
Proof.
  induction i as [|i IH]; [done|].
  by rewrite table_row, char_differs_refl.
Qed.

Lemma store_inside costs j v :
  j < length costs -> store costs j v = <[j:=v]> costs.
Proof.
  intros H. unfold store. by rewrite (proj2 (Nat.ltb_lt _ _) H).
Qed.

Lemma store_at_end costs v : store costs (length costs) v = costs ++ [v].
Proof.
  unfold store. rewrite Nat.ltb_irrefl, Nat.sub_diag. reflexivity.
Qed.

Lemma load_lookup costs j v : costs !! j = Some v -> load costs j = v.
Proof. unfold load. by intros ->. Qed.

Section Rows.
Variables shorter longer : jsstring.
Let n := length longer.

Let holds_row := holds_row shorter longer.

(** Row 0: every pass of the inner loop appends its index. *)
Lemma first_row_prefix k last :
  fold_left (inner_step shorter longer 0) (seq 0 k) ([], last)
  = (seq 0 k, last).
Proof.
  induction k as [|k IH]; [done|].
  rewrite seq_S, fold_left_app, IH. simpl.
  pose proof (store_at_end (seq 0 k) k) as E.
  rewrite length_seq in E. by rewrite E.
Qed.

Lemma first_row : holds_row 0 (outer_step shorter longer [] 0).
Proof.
  unfold holds_row, Similarity.holds_row, outer_step.
  rewrite first_row_prefix. simpl Nat.ltb. cbv iota.
  symmetry. apply map_id.
Qed.

(** Row [S i], after the columns [0..k]: the array holds the new row below
    [k] and the old row from [k] on; [lastValue] is the new entry at [k]. *)
Lemma next_row_prefix i costs k :
  holds_row i costs -> k <= n ->
  exists costs',
    fold_left (inner_step shorter longer (S i)) (seq 0 (S k)) (costs, S i)
    = (costs', table shorter longer (S i) k)
    /\ length costs' = S n
    /\ (forall q, q < k -> costs' !! q = Some (table shorter longer (S i) q))
    /\ (forall q, k <= q -> q <= n ->
          costs' !! q = Some (table shorter longer i q)).
Proof.
  intros Hrow. induction k as [|k IH]; intros Hk.
  - unfold holds_row, Similarity.holds_row in Hrow. fold n in Hrow.
    exists costs. repeat split.
    + rewrite Hrow. by rewrite length_map, length_seq.
    + lia.
    + intros q _ Hq. rewrite Hrow, list_lookup_fmap.
      rewrite lookup_seq_lt by lia. reflexivity.
  - destruct IH as (c & Hfold & Hlen & Hnew & Hold); [lia|].
    exists (<[k := table shorter longer (S i) k]> c).
    rewrite seq_S, fold_left_app, Hfold. cbn [fold_left plus].
    unfold inner_step. cbn [Nat.eqb Nat.ltb Nat.leb].
    replace (S k - 1) with k by lia. replace (S i - 1) with i by lia.
    rewrite (load_lookup c k (table shorter longer i k)) by (apply Hold; lia).
    rewrite (load_lookup c (S k) (table shorter longer i (S k)))
      by (apply Hold; lia).
    rewrite store_inside by lia. rewrite <- table_row.
    repeat split.
    + by rewrite length_insert.
    + intros q Hq. destruct (decide (q = k)) as [->|Hne].
      * apply list_lookup_insert_eq. lia.
      * rewrite list_lookup_insert_ne by done. apply Hnew. lia.
    + intros q Hq Hqn. rewrite list_lookup_insert_ne by lia.
      apply Hold; lia.
Qed.

Lemma next_row i costs :
  holds_row i costs ->
  holds_row (S i) (outer_step shorter longer costs (S i)).
Proof.
  intros Hrow.
  destruct (next_row_prefix i costs n Hrow (Nat.le_refl n))
    as (c & Hfold & Hlen & Hnew & Hold).
  unfold outer_step. fold n. rewrite Hfold. cbn [Nat.ltb Nat.leb].
  rewrite store_inside by lia. unfold holds_row, Similarity.holds_row.
  fold n. apply list_eq. intros q. rewrite list_lookup_fmap.
  destruct (decide (q = n)) as [->|Hne].
  - rewrite list_lookup_insert_eq by lia.
    rewrite lookup_seq_lt by lia. reflexivity.
  - rewrite list_lookup_insert_ne by done.
    destruct (decide (q < n)) as [Hlt|Hge].
    + rewrite Hnew by done. rewrite lookup_seq_lt by lia. reflexivity.
    + rewrite lookup_seq_ge by lia.
      apply lookup_ge_None_2. lia.
Qed.

Lemma rows_upto r :
  holds_row r (fold_left (outer_step shorter longer) (seq 0 (S r)) []).
Proof.
  induction r as [|r IH].
  - apply first_row.
  - rewrite seq_S, fold_left_app. cbn [fold_left plus].
    by apply next_row.
Qed.

(** The entry the script reads at the end is the last entry of the table. *)
Lemma final_cost :
  load (final_costs shorter longer) (length longer)
  = table shorter longer (length shorter) (length longer).
Proof.
  apply load_lookup. unfold final_costs.
  rewrite (rows_upto (length shorter)). fold n.
  rewrite list_lookup_fmap, lookup_seq_lt by lia. reflexivity.
Qed.
End Rows.

End SimilarityFacts.

Module NormalizerFacts.
Import JS Regex Normalizer.

(** *** Trimming *)

Lemma drop_while_idem p s : drop_while p (drop_while p s) = drop_while p s.
Proof.
  induction s as [|c s IH]; [done|]. simpl.
  destruct (p c) eqn:E; [done|]. simpl. by rewrite E.
Qed.

Lemma drop_while_length p s : length (drop_while p s) <= length s.
Proof.
  induction s as [|c s IH]; simpl; [lia|]. destruct (p c); simpl; lia.
Qed.

Lemma drop_while_drop p s :
  drop (length s - length (drop_while p s)) s = drop_while p s.
Proof.
  induction s as [|c s IH]; [done|]. simpl drop_while.
  destruct (p c) eqn:E.
  - pose proof (drop_while_length p s).
    replace (length (c :: s) - length (drop_while p s))
      with (S (length s - length (drop_while p s))) by (simpl; lia).
    exact IH.
  - by rewrite Nat.sub_diag.
Qed.

Lemma trim_end_cons c s :
  trim_end (c :: s) =
    match trim_end s with
    | [] => if is_space c then [] else [c]
    | t => c :: t
    end.
Proof. reflexivity. Qed.

Lemma trim_end_idem s : trim_end (trim_end s) = trim_end s.
Proof.
  induction s as [|c s IH]; [done|]. rewrite trim_end_cons.
  destruct (trim_end s) as [|d t] eqn:E.
  - destruct (is_space c) eqn:Ec; [done|]. simpl. by rewrite Ec.
  - rewrite trim_end_cons, IH. reflexivity.
Qed.

(** Trimming the end keeps a first character that is not white space. *)
Lemma trim_end_keeps_head c s :
  is_space c = false -> exists t, trim_end (c :: s) = c :: t.
Proof.
  intros Ec. rewrite trim_end_cons, Ec.
  destruct (trim_end s); eauto.
Qed.

Lemma trim_start_trim s : trim_start (trim s) = trim s.
Proof.
  unfold trim, trim_start.
  destruct (drop_while is_space s) as [|c t] eqn:E; [done|].
  assert (Ec : is_space c = false).
  { pose proof (drop_while_idem is_space s) as H. rewrite E in H.
    simpl in H. destruct (is_space c); [|done].
    pose proof (drop_while_length is_space t) as L.
    apply (f_equal length) in H. simpl in H. lia. }
  destruct (trim_end_keeps_head c t Ec) as [u ->]. simpl. by rewrite Ec.
Qed.

Lemma trim_idem s : trim (trim s) = trim s.
Proof.
  unfold trim at 1. rewrite trim_start_trim.
  unfold trim. apply trim_end_idem.
Qed.

(** *** Global replacement of the runs of a character class *)

Lemma star_to_end p pos s :
  star p pos s (fun _ rest => Some rest) = Some (drop_while p s).
Proof.
  revert pos. induction s as [|c s IH]; intros pos; [done|]. simpl.
  destruct (p c); [|done]. by rewrite IH.
Qed.

Lemma match_at_plus ic p pos s :
  match_at ic (Plus p) pos s =
    match s with
    | c :: s' => if p c then Some (drop_while p s') else None
    | [] => None
    end.
Proof.
  unfold match_at. destruct s as [|c s]; [done|]. simpl.
  destruct (p c); [|done]. apply star_to_end.
Qed.

Section Runs.
Variable ic : bool.
Variable p : char -> bool.
Variable by_ : jsstring.

Lemma replace_all_from_pos s : forall skip pos pos',
  replace_all_from ic (Plus p) by_ skip pos s
  = replace_all_from ic (Plus p) by_ skip pos' s.
Proof.
  induction s as [|c s IH]; intros skip pos pos'.
  - cbn [replace_all_from]. by rewrite !match_at_plus.
  - cbn [replace_all_from]. destruct skip as [|n]; [|apply IH].
    rewrite !match_at_plus. destruct (p c).
    + destruct (_ - _); by rewrite (IH _ (S pos) (S pos')).
    + by rewrite (IH _ (S pos) (S pos')).
Qed.

Lemma replace_all_from_skip n : forall s pos,
  n <= length s ->
  replace_all_from ic (Plus p) by_ n pos s
  = replace_all_from ic (Plus p) by_ 0 pos (drop n s).
Proof.
  induction n as [|n IH]; intros s pos Hn; [done|].
  destruct s as [|c s]; simpl in Hn; [lia|]. cbn [replace_all_from drop].
  rewrite IH by lia. apply replace_all_from_pos.
Qed.

(** The equations of a global replacement of [p+]. *)
Lemma replace_all_nil : replace_all ic (Plus p) by_ [] = [].
Proof.
  unfold replace_all. cbn [replace_all_from]. by rewrite match_at_plus.
Qed.

Lemma replace_all_cons c s :
  replace_all ic (Plus p) by_ (c :: s) =
    if p c then by_ ++ replace_all ic (Plus p) by_ (drop_while p s)
    else c :: replace_all ic (Plus p) by_ s.
Proof.
  unfold replace_all. cbn [replace_all_from]. rewrite match_at_plus.
  destruct (p c) eqn:E.
  - pose proof (drop_while_length p s) as L.
    replace (length (c :: s) - length (drop_while p s))
      with (S (length s - length (drop_while p s))) by (simpl; lia).
    rewrite replace_all_from_skip by lia.
    rewrite drop_while_drop. f_equal. apply replace_all_from_pos.
  - f_equal. apply replace_all_from_pos.
Qed.

(** Induction along the equations above. *)
Lemma runs_ind (P : jsstring -> Prop) :
  P [] ->
  (forall c s, p c = true -> P (drop_while p s) -> P (c :: s)) ->
  (forall c s, p c = false -> P s -> P (c :: s)) ->
  forall s, P s.
Proof.
  intros Hnil Hrun Hchar s.
  remember (length s) as n eqn:En. revert s En.
  induction n as [n IH] using lt_wf_ind. intros [|c s] En; [done|].
  simpl in En. destruct (p c) eqn:E.
  - apply Hrun; [done|].
    pose proof (drop_while_length p s).
    apply (IH (length (drop_while p s))); [lia|done].
  - apply Hchar; [done|]. apply (IH (length s)); [lia|done].
Qed.
End Runs.

(** *** The last three steps of [normalizeName] *)

Lemma drop_while_starts p s :
  match drop_while p s with [] => True | d :: _ => p d = false end.
Proof.
  induction s as [|c s IH]; [done|]. simpl.
  destruct (p c) eqn:E; [exact IH|exact E].
Qed.

Lemma drop_while_id p s :
  match s with [] => True | d :: _ => p d = false end -> drop_while p s = s.
Proof. destruct s as [|c s]; [done|]. simpl. by intros ->. Qed.

Lemma no_punctuation_drop_while p s :
  no_punctuation s -> no_punctuation (drop_while p s).
Proof.
  induction 1 as [|c s Hc Hs IH]; [constructor|]. simpl.
  destruct (p c); [done|by constructor].
Qed.

Lemma single_spaced_drop_while p s :
  single_spaced s -> single_spaced (drop_while p s).
Proof.
  induction s as [|c s IH]; [done|]. intros [Hc Hs]. simpl.
  destruct (p c); [by apply IH|by split].
Qed.

Lemma trim_end_prefix s d t : trim_end s = d :: t -> exists s', s = d :: s'.
Proof.
  destruct s as [|c s]; [done|]. rewrite trim_end_cons.
  destruct (trim_end s); [destruct (is_space c)|]; intros [= <- _]; eauto.
Qed.

Lemma no_punctuation_trim_end s :
  no_punctuation s -> no_punctuation (trim_end s).
Proof.
  unfold no_punctuation.
  induction 1 as [|c s Hc Hs IH]; [constructor|]. rewrite trim_end_cons.
  destruct (trim_end s) as [|d t].
  - destruct (is_space c); [constructor|]. by constructor.
  - by constructor.
Qed.

Lemma single_spaced_trim_end s :
  single_spaced s -> single_spaced (trim_end s).
Proof.
  induction s as [|c s IH]; [done|]. intros [Hc Hs].
  rewrite trim_end_cons. specialize (IH Hs).
  destruct (trim_end s) as [|d t] eqn:E.
  - destruct (is_space c) eqn:Ec; [done|]. split; [congruence|done].
  - split; [|done]. intros Hsp. destruct (Hc Hsp) as [-> Hd].
    split; [done|]. destruct (trim_end_prefix _ _ _ E) as [s' ->].
    exact Hd.
Qed.

Lemma remove_punctuation_clean ic s :
  no_punctuation (replace_all ic (Plus is_punctuation) [] s).
Proof.
  induction s as [|c s Hc IH|c s Hc IH] using (runs_ind is_punctuation).
  - rewrite replace_all_nil. constructor.
  - by rewrite replace_all_cons, Hc.
  - rewrite replace_all_cons, Hc. by constructor.
Qed.

Lemma remove_punctuation_id ic s :
  no_punctuation s -> replace_all ic (Plus is_punctuation) [] s = s.
Proof.
  induction 1 as [|c s Hc Hs IH]; [apply replace_all_nil|].
  by rewrite replace_all_cons, Hc, IH.
Qed.

Lemma collapse_spaces_clean ic s :
  no_punctuation s ->
  no_punctuation (replace_all ic (Plus is_space) (lit " ") s).
Proof.
  induction s as [|c s Hc IH|c s Hc IH] using (runs_ind is_space);
    intros Hs.
  - by rewrite replace_all_nil.
  - rewrite replace_all_cons, Hc. inversion_clear Hs.
    constructor; [done|]. apply IH. by apply no_punctuation_drop_while.
  - rewrite replace_all_cons, Hc. inversion_clear Hs.
    constructor; [done|]. by apply IH.
Qed.

Lemma collapse_spaces_starts ic s :
  starts_without_space s ->
  starts_without_space (replace_all ic (Plus is_space) (lit " ") s).
Proof.
  destruct s as [|c s]; [by rewrite replace_all_nil|]. simpl. intros Hc.
  by rewrite replace_all_cons, Hc.
Qed.

Lemma collapse_spaces_single ic s :
  single_spaced (replace_all ic (Plus is_space) (lit " ") s).
Proof.
  induction s as [|c s Hc IH|c s Hc IH] using (runs_ind is_space).
  - by rewrite replace_all_nil.
  - rewrite replace_all_cons, Hc. split; [|done]. intros _.
    split; [done|]. apply collapse_spaces_starts.
    exact (drop_while_starts is_space s).
  - rewrite replace_all_cons, Hc. split; [congruence|done].
Qed.

Lemma collapse_spaces_id ic s :
  single_spaced s -> replace_all ic (Plus is_space) (lit " ") s = s.
Proof.
  induction s as [|c s IH]; [intros; apply replace_all_nil|].
  intros [Hc Hs]. rewrite replace_all_cons.
  destruct (is_space c) eqn:Ec.
  - destruct (Hc eq_refl) as [-> Hd].
    rewrite drop_while_id by exact Hd. by rewrite IH.
  - by rewrite IH.
Qed.

(** The output of the three last steps is left alone by each of them. *)
Lemma tidy_settled s :
  no_punctuation (tidy s) /\ single_spaced (tidy s) /\ trim (tidy s) = tidy s.
Proof.
  unfold tidy. repeat split.
  - apply no_punctuation_trim_end, no_punctuation_drop_while.
    apply collapse_spaces_clean, remove_punctuation_clean.
  - apply single_spaced_trim_end, single_spaced_drop_while.
    apply collapse_spaces_single.
  - apply trim_idem.
Qed.

Lemma tidy_idem s : tidy (tidy s) = tidy s.
Proof.
  destruct (tidy_settled s) as (Hp & Hs & Ht).
  unfold tidy at 1.
  by rewrite remove_punctuation_id, collapse_spaces_id.
Qed.

End NormalizerFacts.

(** C2, as stated, fails: "Alvim Borettslag - all" (Norway) normalizes to
    "Alvim Borettslag", because the suffix "Borettslag" is looked for before
    "- all" is removed; a second pass then strips it and returns "Alvim". *)
Lemma normalizeName_second_pass_differs :
  Normalizer.normalizeName (JS.lit "Alvim Borettslag - all") (JS.lit "Norway")
    = JS.lit "Alvim Borettslag"
  /\ Normalizer.normalizeName (JS.lit "Alvim Borettslag") (JS.lit "Norway")
    = JS.lit "Alvim"
  /\ Normalizer.normalizeName
       (Normalizer.normalizeName (JS.lit "Alvim Borettslag - all")
          (JS.lit "Norway"))
       (JS.lit "Norway")
     <> Normalizer.normalizeName (JS.lit "Alvim Borettslag - all")
          (JS.lit "Norway").
Proof. vm_compute. repeat split; congruence. Qed.

(** C2, amended. Normalizing a normalized name is a no-op whenever no prefix,
    suffix or noise pattern of the country matches the normalized name any
    more: the punctuation, white-space and trimming steps never change the
    output of the normalizer. *)
Theorem normalizeName_idempotent_once_settled (s c : JS.jsstring) :
  Normalizer.remove_affixes c (Normalizer.normalizeName s c)
    = Normalizer.normalizeName s c ->
  Normalizer.normalizeName (Normalizer.normalizeName s c) c
    = Normalizer.normalizeName s c.
Proof.
  intros Hsettled.
  assert (Ht : JS.trim (Normalizer.normalizeName s c)
               = Normalizer.normalizeName s c).
  { apply NormalizerFacts.tidy_settled. }
  unfold Normalizer.normalizeName at 1. rewrite Ht, Hsettled.
  apply NormalizerFacts.tidy_idem.
Qed.

(** An instance: "Sameiet Solsiden Borettslag" normalizes to "Solsiden", which
    no pattern matches any more. *)
Lemma normalizeName_idempotent_once_settled_witness :
  Normalizer.remove_affixes (JS.lit "Norway")
    (Normalizer.normalizeName (JS.lit "Sameiet Solsiden Borettslag")
       (JS.lit "Norway"))
  = Normalizer.normalizeName (JS.lit "Sameiet Solsiden Borettslag")
      (JS.lit "Norway")
  /\ Normalizer.normalizeName
       (Normalizer.normalizeName (JS.lit "Sameiet Solsiden Borettslag")
          (JS.lit "Norway"))
       (JS.lit "Norway")
     = Normalizer.normalizeName (JS.lit "Sameiet Solsiden Borettslag")
         (JS.lit "Norway").
Proof.
  split.
  - vm_compute. reflexivity.
  - apply (normalizeName_idempotent_once_settled
             (JS.lit "Sameiet Solsiden Borettslag") (JS.lit "Norway")).
    vm_compute. reflexivity.
Defined.

Module StorageFacts.
Import JS Storage.

Lemma Forall2_map_same {A} (P : A -> A -> Prop) (g : A -> A) (l : list A) :
  (forall x, P x (g x)) -> Forall2 P l (map g l).
Proof. intros H. induction l; constructor; auto. Qed.

Lemma crm_fields_only_refl r : crm_fields_only r r.
Proof. by repeat split. Qed.

(** The statement of [asset_map_update_facility_from_hubspot], failed or not,
    leaves every row as it was outside the CRM fields. *)
Lemma update_from_hubspot_frame now db fid hid a c p :
  Forall2 crm_fields_only db
    (default db (asset_map_update_facility_from_hubspot now db fid hid a c p)).
Proof.
  unfold asset_map_update_facility_from_hubspot.
  destruct (_ && _); simpl.
  - apply Forall_Forall2_diag, Forall_forall.
    intros; apply crm_fields_only_refl.
  - apply Forall2_map_same. intros r.
    destruct (eqb (id r) fid); by repeat split.
Qed.

Lemma crm_update_only_refl fid r : StorageSpec.crm_update_only fid r r.
Proof.
  unfold StorageSpec.crm_update_only. by destruct (eqb (id r) fid).
Qed.

(** The same, row by row: only the rows of the facility can change. *)
Lemma update_from_hubspot_only now db fid hid a c p :
  Forall2 (StorageSpec.crm_update_only fid) db
    (default db (asset_map_update_facility_from_hubspot now db fid hid a c p)).
Proof.
  unfold asset_map_update_facility_from_hubspot.
  destruct (_ && _); simpl.
  - apply Forall_Forall2_diag, Forall_forall.
    intros; apply crm_update_only_refl.
  - apply Forall2_map_same. intros r. unfold StorageSpec.crm_update_only.
    destruct (eqb (id r) fid); by repeat split.
Qed.

Lemma update_geocode_failed now db fid :
  Forall2 (marked_failed fid) db
    (asset_map_update_facility_geocode now db fid None None failed None).
Proof.
  apply Forall2_map_same. intros r. unfold marked_failed.
  destruct (eqb (id r) fid); [by repeat split|done].
Qed.

(** The backlog queries commute with a change of the rows that they do not
    look at. *)
Section Unseen.
Variable g : facility_row -> facility_row.

Lemma filter_map_unseen (P : facility_row -> bool) rows :
  (forall r, P (g r) = P r) ->
  List.filter P (map g rows) = map g (List.filter P rows).
Proof.
  intros HP. induction rows as [|r rows IH]; [done|]. simpl.
  rewrite HP, IH. by destruct (P r).
Qed.

Lemma insert_sorted_unseen leb r rows :
  (forall a b, leb (g a) (g b) = leb a b) ->
  insert_sorted leb (g r) (map g rows) = map g (insert_sorted leb r rows).
Proof.
  intros Hleb. induction rows as [|r' rows IH]; [done|]. simpl.
  rewrite Hleb, IH. by destruct (leb r r').
Qed.

Lemma order_by_unseen leb rows :
  (forall a b, leb (g a) (g b) = leb a b) ->
  order_by leb (map g rows) = map g (order_by leb rows).
Proof.
  intros Hleb. unfold order_by.
  induction rows as [|r rows IH]; [done|]. simpl.
  by rewrite IH, insert_sorted_unseen.
Qed.

Lemma geocoding_backlog_unseen rows p_country p_limit :
  (forall r, address (g r) = address r /\ latitude (g r) = latitude r
             /\ country (g r) = country r /\ name (g r) = name r) ->
  asset_map_get_facilities_for_geocoding (map g rows) p_country p_limit
  = map g (asset_map_get_facilities_for_geocoding rows p_country p_limit).
Proof.
  intros Hg. unfold asset_map_get_facilities_for_geocoding.
  rewrite filter_map_unseen, order_by_unseen, <- fmap_take; [done| |].
  - intros a b. unfold by_country_then_name.
    destruct (Hg a) as (_ & _ & -> & ->).
    by destruct (Hg b) as (_ & _ & -> & ->).
  - intros r. unfold needs_geocoding, country_matches.
    by destruct (Hg r) as (-> & -> & -> & _).
Qed.
End Unseen.

(** The failure update takes no facility out of the geocoding backlog and
    puts none in. *)
Lemma geocoding_backlog_after_failure now db fid p_country p_limit :
  map id (asset_map_get_facilities_for_geocoding
            (asset_map_update_facility_geocode now db fid None None failed None)
            p_country p_limit)
  = map id (asset_map_get_facilities_for_geocoding db p_country p_limit).
Proof.
  unfold asset_map_update_facility_geocode.
  rewrite geocoding_backlog_unseen.
  - rewrite map_map. apply map_ext. intros r. by destruct (eqb (id r) fid).
  - intros r. by destruct (eqb (id r) fid).
Qed.

End StorageFacts.

(** C10. Whatever the outcome of the call, [updateFacility] changes only rows
    of the facility it is called for, and in them at most the CRM reference
    id, the address, the city, the postal code and the time stamp of the
    update: the coordinates, the geocode status and the geocode confidence of
    the facility are as they were, and the rows of every other facility are
    untouched. *)
Theorem updateFacility_changes_crm_fields_only {L} (svc : Effects.services)
    (f : Matcher.Facility) (c : Effects.HubSpotCompany)
    (st : Effects.state L) :
  Forall2 (StorageSpec.crm_update_only (Matcher.id f)) (Effects.db st)
    (Effects.db (snd (Sync.updateFacility svc f c st))).
Proof.
  unfold Sync.updateFacility, Rpc.rpc_write.
  unfold mbind, Effects.prog_bind, Effects.bind, Effects.emit. simpl.
  destruct (Effects.rpc_rejects svc _); simpl.
  - apply Forall_Forall2_diag, Forall_forall.
    intros; apply StorageFacts.crm_update_only_refl.
  - unfold Effects.write_db. simpl.
    pose proof (StorageFacts.update_from_hubspot_only (Effects.clock st)
      (Effects.db st) (Matcher.id f) (Effects.company_id c)
      (Sync.or_null (Effects.prop_address (Effects.properties c)))
      (Sync.or_null (Effects.prop_city (Effects.properties c)))
      (Sync.or_null (Effects.prop_zip (Effects.properties c)))) as H.
    destruct (Storage.asset_map_update_facility_from_hubspot _ _ _ _ _ _ _);
      exact H.
Qed.

(** C3, as stated, fails: the failure update applied to a facility that has
    stored coordinates sets the status to failed and keeps the coordinates. *)
Lemma failure_update_keeps_stored_coordinates :
  let st := Examples.start [Examples.oslo_row] tt in
  let st' := snd (Geocoder.markFacilityFailed Examples.nothing_found
                    (JS.lit "f1") st) in
  map Storage.geocode_status (Effects.db st') = [Storage.failed]
  /\ map Storage.latitude (Effects.db st') = [Some (5991 # 100)]
  /\ map Storage.longitude (Effects.db st') = [Some (1075 # 100)].
Proof. vm_compute. repeat split. Qed.

(** C3, amended. When the failure update goes through, the row of the facility
    ends with status failed and no confidence, never pending; its coordinates
    are the ones stored before, so they are null when they were null, as the
    latitude of every facility of the geocoding backlog is. No other row
    changes. *)
Theorem markFacilityFailed_stores_failed {L} (svc : Effects.services)
    (facilityId : JS.jsstring) (st : Effects.state L) :
  Effects.rpc_rejects svc
    (Effects.RpcUpdate (JS.lit "asset_map_update_facility_geocode") facilityId)
    = false ->
  Forall2 (Storage.marked_failed facilityId) (Effects.db st)
    (Effects.db (snd (Geocoder.markFacilityFailed svc facilityId st))).
Proof.
  intros Hok. unfold Geocoder.markFacilityFailed, Rpc.rpc_write.
  unfold mbind, Effects.prog_bind, Effects.bind, Effects.emit. simpl.
  rewrite Hok. unfold Effects.write_db. simpl.
  apply StorageFacts.update_geocode_failed.
Qed.

(** An instance: a pending facility of the backlog. *)
Lemma markFacilityFailed_stores_failed_witness :
  Effects.rpc_rejects Examples.nothing_found
    (Effects.RpcUpdate (JS.lit "asset_map_update_facility_geocode")
       (JS.lit "f7")) = false
  /\ Forall2 (Storage.marked_failed (JS.lit "f7"))
       [Examples.norwegian_row "f7" "Solsiden" "Storgata 5" "0155"]
       (Effects.db (snd (Geocoder.markFacilityFailed Examples.nothing_found
          (JS.lit "f7")
          (Examples.start
             [Examples.norwegian_row "f7" "Solsiden" "Storgata 5" "0155"]
             tt)))).
Proof.
  split; [reflexivity|].
  apply (markFacilityFailed_stores_failed Examples.nothing_found (JS.lit "f7")
           (Examples.start
              [Examples.norwegian_row "f7" "Solsiden" "Storgata 5" "0155"]
              tt)).
  reflexivity.
Defined.

(** C8. National-registry path. The first request asks for the street
    address followed by a space and the postal code, without white space at
    the ends. When it returns candidates, that single request is all that is
    sent and the first candidate is taken: the result has its coordinates,
    the provider "kartverket", and confidence 0.95 if its postal code is the
    facility's and 0.75 otherwise. When it returns no candidate, exactly one
    more request is sent, for the street address followed by a space and the
    city; its first candidate, if any, is taken with confidence 0.60, and
    otherwise, also when that request fails, there is no result. *)
Theorem geocodeKartverket_confidence {L} (svc : Effects.services)
    (f : Geocoder.FacilityToGeocode) (st : Effects.state L) :
  let street_and_postal_code :=
    JS.trim (Geocoder.address f ++ [32%N]
             ++ default (JS.lit "null") (Geocoder.postal_code f)) in
  let street_and_city :=
    Geocoder.address f ++ [32%N]
    ++ default (JS.lit "null") (Geocoder.city f) in
  let at_point best confidence :=
    {| Geocoder.latitude := fst (Effects.representasjonspunkt best);
       Geocoder.longitude := snd (Effects.representasjonspunkt best);
       Geocoder.confidence := confidence;
       Geocoder.provider := JS.lit "kartverket" |} in
  let run := Geocoder.geocodeKartverket svc f st in
  (forall data best rest,
     Effects.kartverket_answer svc street_and_postal_code
       = Effects.HttpOk (Some data) ->
     Effects.adresser data = Some (best :: rest) ->
     Effects.log (snd run)
       = Effects.log st ++ [Effects.KartverketFetch street_and_postal_code]
     /\ (Some (Effects.postnummer best) = Geocoder.postal_code f ->
         fst run = Effects.Return (Some (at_point best (95 # 100))))
     /\ (Some (Effects.postnummer best) <> Geocoder.postal_code f ->
         fst run = Effects.Return (Some (at_point best (75 # 100)))))
  /\ (forall data,
        Effects.kartverket_answer svc street_and_postal_code
          = Effects.HttpOk (Some data) ->
        default [] (Effects.adresser data) = [] ->
        Effects.log (snd run)
          = Effects.log st
            ++ [Effects.KartverketFetch street_and_postal_code;
                Effects.KartverketFetch street_and_city]
        /\ (forall data2 best rest,
              Effects.kartverket_answer svc street_and_city
                = Effects.HttpOk (Some data2) ->
              Effects.adresser data2 = Some (best :: rest) ->
              fst run = Effects.Return (Some (at_point best (6 # 10))))
        /\ ((forall data2,
               Effects.kartverket_answer svc street_and_city
                 = Effects.HttpOk (Some data2) ->
               default [] (Effects.adresser data2) = []) ->
            fst run = Effects.Return None)).
Proof.
  cbv zeta. unfold Geocoder.geocodeKartverket.
  unfold Geocoder.primary_query, Geocoder.fallback_query, Geocoder.template,
    Geocoder.kartverket_hit.
  change (JS.lit " ") with [32%N].
  set (q1 := JS.trim _). set (q2 := Geocoder.address f ++ _).
  unfold Effects.try_catch, Geocoder.fetch_json.
  unfold mbind, mret, Effects.prog_bind, Effects.prog_ret, Effects.bind,
    Effects.ret, Effects.emit, Effects.throw.
  split.
  - intros data best rest -> ->. cbn.
    split; [done|]. split; intros Hpost.
    + by rewrite bool_decide_eq_true_2.
    + by rewrite bool_decide_eq_false_2.
  - intros data -> Hnone.
    assert (Hfirst : match Effects.adresser data with
                     | Some (_ :: _) => False
                     | _ => True
                     end).
    { by destruct (Effects.adresser data) as [[|? ?]|]. }
    split; [|split].
    + destruct (Effects.adresser data) as [[|? ?]|]; try done;
        destruct (Effects.kartverket_answer svc q2)
          as [| |[[[[|? ?]|]]|]]; cbn; by rewrite <- app_assoc.
    + intros data2 best rest -> ->.
      by destruct (Effects.adresser data) as [[|? ?]|].
    + intros Hnone2.
      destruct (Effects.adresser data) as [[|? ?]|]; try done;
        destruct (Effects.kartverket_answer svc q2)
          as [| |[data2|]] eqn:E2; try done;
        specialize (Hnone2 data2 eq_refl);
        by destruct (Effects.adresser data2) as [[|? ?]|].
Qed.

(** An instance: "Kongens gate 1" with postal code 0150, which the registry
    knows under that postal code. *)
Lemma geocodeKartverket_confidence_witness :
  let f := Examples.to_geocode "f2" "Kongens gate 1" "0150" "Oslo" "Norway" in
  let run := Geocoder.geocodeKartverket Examples.registry f
               (Examples.start [] tt) in
  Effects.kartverket_answer Examples.registry (JS.lit "Kongens gate 1 0150")
    = Effects.HttpOk
        (Some {| Effects.adresser := Some [Examples.kongens_gate] |})
  /\ Effects.log (snd run)
     = [Effects.KartverketFetch (JS.lit "Kongens gate 1 0150")]
  /\ fst run
     = Effects.Return
         (Some {| Geocoder.latitude := 599087 # 10000;
                  Geocoder.longitude := 107416 # 10000;
                  Geocoder.confidence := 95 # 100;
                  Geocoder.provider := JS.lit "kartverket" |}).
Proof.
  split; [reflexivity|].
  destruct (geocodeKartverket_confidence Examples.registry
              (Examples.to_geocode "f2" "Kongens gate 1" "0150" "Oslo" "Norway")
              (Examples.start [] tt)) as [Hfound _].
  destruct (Hfound {| Effects.adresser := Some [Examples.kongens_gate] |}
              Examples.kongens_gate [] eq_refl eq_refl)
    as (Hlog & Hsame & _).
  split; [exact Hlog|]. exact (Hsame eq_refl).
Defined.

(** C7, as stated, fails for the geocoding stage: without the key of the
    commercial service the run is not aborted. The Swedish facility is
    processed, marked as failed and counted, and the run ends normally. *)
Lemma missing_here_key_is_not_fatal :
  let rows := [Examples.new_row "f3" "Brf Eken" "Sweden"
                 (Some "Ekgatan 3"%string)] in
  let run := Geocoder.main Examples.no_here_key Examples.nothing_found
               {| Geocoder.countryFilter := None; Geocoder.limit := 100;
                  Geocoder.dryRun := false |}
               (Examples.start rows
                  {| Geocoder.success := 0; Geocoder.failed := 0 |}) in
  fst run = Effects.Return tt
  /\ Geocoder.failed (Effects.locals (snd run)) = 1
  /\ map Storage.geocode_status (Effects.db (snd run)) = [Storage.failed]
  /\ Effects.log (snd run)
     = [Effects.RpcBacklog (JS.lit "asset_map_get_facilities_for_geocoding");
        Effects.RpcUpdate (JS.lit "asset_map_update_facility_geocode")
          (JS.lit "f3")].
Proof. vm_compute. repeat split. Qed.

(** C7, amended. In the matching stage a missing credential (CRM key, storage
    URL or storage key) ends the process with status 1 before the backlog is
    fetched: no call is made and no record is processed. In the geocoding
    stage a missing key of the commercial service is not fatal: a facility
    sent to that service gets no result, without any request; when the run is
    not a dry run and the write goes through, the facility is stored as
    failed and counted as failed, and the loop goes on to the next record. *)
Theorem missing_credentials (env : Effects.environment)
    (svc : Effects.services) :
  (forall opts st,
     Effects.truthy (Effects.HUBSPOT_API_KEY env) = false
     \/ Effects.truthy (Effects.SUPABASE_URL env) = false
     \/ Effects.truthy (Effects.SUPABASE_SERVICE_KEY env) = false ->
     Sync.syncHubSpotAddresses env svc opts st = (Effects.Exit 1, st))
  /\ (forall L f (st : Effects.state L),
        Effects.truthy (Effects.HERE_API_KEY env) = false ->
        Geocoder.geocodeHere env svc f st = (Effects.Return None, st))
  /\ (forall f st,
        Effects.truthy (Effects.HERE_API_KEY env) = false ->
        JS.eqb (Geocoder.country f) (JS.lit "Norway") = false ->
        Effects.rpc_rejects svc
          (Effects.RpcUpdate (JS.lit "asset_map_update_facility_geocode")
             (Geocoder.id f)) = false ->
        let run := Geocoder.geocode_one env svc false tt f st in
        fst run = Effects.Return tt
        /\ Geocoder.failed (Effects.locals (snd run))
           = S (Geocoder.failed (Effects.locals st))
        /\ Forall2 (Storage.marked_failed (Geocoder.id f)) (Effects.db st)
             (Effects.db (snd run))).
Proof.
  assert (Hhere : forall L f (st : Effects.state L),
            Effects.truthy (Effects.HERE_API_KEY env) = false ->
            Geocoder.geocodeHere env svc f st = (Effects.Return None, st)).
  { intros L f st H. unfold Geocoder.geocodeHere.
    destruct (Effects.HERE_API_KEY env) as [[|c key]|]; try discriminate;
      reflexivity. }
  split; [|split; [exact Hhere|]].
  - intros opts st H. unfold Sync.syncHubSpotAddresses.
    destruct H as [-> | [-> | ->]]; simpl;
      rewrite ?orb_true_r; reflexivity.
  - intros f st Hkey Hcountry Hok.
    assert (Hrun : Geocoder.geocode_one env svc false tt f st
              = (Effects.Return tt,
                 {| Effects.db :=
                      Storage.asset_map_update_facility_geocode
                        (Effects.clock st) (Effects.db st) (Geocoder.id f)
                        None None Storage.failed None;
                    Effects.clock := S (Effects.clock st);
                    Effects.log := Effects.log st ++
                      [Effects.RpcUpdate
                         (JS.lit "asset_map_update_facility_geocode")
                         (Geocoder.id f)];
                    Effects.locals :=
                      {| Geocoder.success :=
                           Geocoder.success (Effects.locals st);
                         Geocoder.failed :=
                           S (Geocoder.failed (Effects.locals st)) |} |})).
    { unfold Geocoder.geocode_one, Geocoder.geocodeFacility.
      rewrite Hcountry.
      unfold mbind, Effects.prog_bind, Effects.bind at 1.
      rewrite Hhere by done.
      unfold Geocoder.markFacilityFailed, Rpc.rpc_write.
      unfold mbind, Effects.prog_bind, Effects.bind, Effects.emit.
      cbv beta iota zeta. rewrite Hok. reflexivity. }
    cbv zeta. rewrite Hrun.
    split; [reflexivity|]. split; [reflexivity|].
    apply StorageFacts.update_geocode_failed.
Qed.

(** An instance of each part: the matching stage without its CRM key, and a
    Swedish facility without the key of the commercial service. *)
Lemma missing_credentials_witness :
  let swedish := Examples.to_geocode "f3" "Ekgatan 3" "11122" "Stockholm"
                   "Sweden" in
  let st := Examples.start
              [Examples.new_row "f3" "Brf Eken" "Sweden"
                 (Some "Ekgatan 3"%string)]
              {| Geocoder.success := 0; Geocoder.failed := 0 |} in
  Sync.syncHubSpotAddresses
    {| Effects.HUBSPOT_API_KEY := None;
       Effects.SUPABASE_URL := Some (JS.lit "https://db");
       Effects.SUPABASE_SERVICE_KEY := Some (JS.lit "key");
       Effects.HERE_API_KEY := None |}
    Examples.nothing_found
    {| Sync.dryRun := false; Sync.limit := None; Sync.country := None;
       Sync.verbose := false |}
    (Examples.start [Examples.new_row "f1" "Solsiden" "Norway" None]
       Sync.no_stats)
  = (Effects.Exit 1,
     Examples.start [Examples.new_row "f1" "Solsiden" "Norway" None]
       Sync.no_stats)
  /\ Geocoder.geocodeHere Examples.no_here_key Examples.nothing_found swedish
       st
     = (Effects.Return None, st)
  /\ Geocoder.failed
       (Effects.locals
          (snd (Geocoder.geocode_one Examples.no_here_key
                  Examples.nothing_found false tt swedish st))) = 1.
Proof.
  cbv zeta. split; [|split].
  - apply (missing_credentials
             {| Effects.HUBSPOT_API_KEY := None;
                Effects.SUPABASE_URL := Some (JS.lit "https://db");
                Effects.SUPABASE_SERVICE_KEY := Some (JS.lit "key");
                Effects.HERE_API_KEY := None |} Examples.nothing_found).
    left. reflexivity.
  - apply (missing_credentials Examples.no_here_key Examples.nothing_found).
    reflexivity.
  - destruct (missing_credentials Examples.no_here_key Examples.nothing_found)
      as (_ & _ & Hone).
    destruct (Hone (Examples.to_geocode "f3" "Ekgatan 3" "11122" "Stockholm"
                      "Sweden")
                (Examples.start
                   [Examples.new_row "f3" "Brf Eken" "Sweden"
                      (Some "Ekgatan 3"%string)]
                   {| Geocoder.success := 0; Geocoder.failed := 0 |})
                eq_refl eq_refl eq_refl) as (_ & Hfailed & _).
    exact Hfailed.
Defined.

Module MatcherFacts.
Import JS Effects Matcher.

(** A search that answers adds its request to the log and returns. *)
Lemma doSearch_answers {L} svc req response (st : state L) :
  doSearch_answer svc req = Some response ->
  doSearch svc req st = (Return response, logged st [CrmSearch req]).
Proof.
  intros H. unfold doSearch.
  unfold mbind, mret, prog_bind, prog_ret, bind, ret, emit. by rewrite H.
Qed.

Lemma doSearch_fails {L} svc req (st : state L) :
  doSearch_answer svc req = None ->
  doSearch svc req st
  = (Throw (lit "search failed"), logged st [CrmSearch req]).
Proof.
  intros H. unfold doSearch.
  unfold mbind, mret, prog_bind, prog_ret, bind, ret, emit. by rewrite H.
Qed.

Lemma logged_logged {L} (st : state L) xs ys :
  logged (logged st xs) ys = logged st (xs ++ ys).
Proof. unfold logged. simpl. by rewrite app_assoc. Qed.

Lemma logged_nil {L} (st : state L) : logged st [] = st.
Proof. destruct st. unfold logged. simpl. by rewrite app_nil_r. Qed.

(** When no token search returns fewer than 100 results, every token is
    searched and the loop ends with what it held after the first pass: the
    answer to the first token. *)
Lemma token_searches_none_manageable {L} svc tokens :
  forall tokenResult searchToken (st : state L),
    Forall (fun t => exists r, doSearch_answer svc (token_request t) = Some r
                               /\ 100 <= total r) tokens ->
    token_searches svc tokens tokenResult searchToken st
    = (Return
         match tokenResult, tokens with
         | None, t :: _ => (doSearch_answer svc (token_request t), t)
         | _, _ => (tokenResult, searchToken)
         end,
       logged st (map (fun t => CrmSearch (token_request t)) tokens)).
Proof.
  induction tokens as [|t rest IH]; intros tokenResult searchToken st Hall.
  - simpl. rewrite logged_nil. by destruct tokenResult.
  - inversion_clear Hall as [|? ? (r & Hr & Hbig) Hrest].
    cbn [token_searches]. unfold mbind, prog_bind, bind.
    rewrite (doSearch_answers svc _ r) by done.
    assert (Hlt : (total r <? 100) = false) by (apply Nat.ltb_ge; lia).
    rewrite Hlt, orb_false_r.
    destruct tokenResult as [held|]; cbn [Storage.is_null];
      rewrite IH by done; rewrite logged_logged; cbn [map app]; by rewrite ?Hr.
Qed.

(** The loop stops at the first token whose search returns fewer than 100
    results, and ends with the answer to that token, the last one tried. *)
Lemma token_searches_stops_at_manageable {L} svc earlier t later r :
  forall tokenResult searchToken (st : state L),
    Forall (fun t' => exists r',
              doSearch_answer svc (token_request t') = Some r'
              /\ 100 <= total r') earlier ->
    doSearch_answer svc (token_request t) = Some r ->
    total r < 100 ->
    token_searches svc (earlier ++ t :: later) tokenResult searchToken st
    = (Return (Some r, t),
       logged st (map (fun t' => CrmSearch (token_request t'))
                      (earlier ++ [t]))).
Proof.
  induction earlier as [|t0 earlier IH];
    intros tokenResult searchToken st Hall Hr Hsmall.
  - cbn [app token_searches map]. unfold mbind, prog_bind, bind.
    rewrite (doSearch_answers svc _ r) by done.
    assert (Hlt : (total r <? 100) = true) by (by apply Nat.ltb_lt).
    by rewrite Hlt, orb_true_r.
  - inversion_clear Hall as [|? ? (r0 & Hr0 & Hbig) Hrest].
    cbn [app token_searches]. unfold mbind, prog_bind, bind.
    rewrite (doSearch_answers svc _ r0) by done.
    assert (Hlt : (total r0 <? 100) = false) by (apply Nat.ltb_ge; lia).
    rewrite Hlt, orb_false_r.
    destruct (Storage.is_null tokenResult);
      rewrite IH by done; by rewrite logged_logged.
Qed.

Ltac run_prog :=
  unfold mbind, mret, prog_bind, prog_ret, bind, ret, try_catch, emit, throw.

(** Each tier returns, whatever the CRM answers, and only adds to the log. *)
Lemma exact_search_returns svc f :
  exists found, forall L (st : state L),
    exact_search svc f st
    = (Return found, logged st [CrmSearch (exact_request f)]).
Proof.
  unfold exact_search, doSearch.
  destruct (doSearch_answer svc (exact_request f)) as [r|] eqn:E.
  - destruct (results r) as [|c rest] eqn:Er;
      [|destruct (has_address c) eqn:Ea];
      eexists; intros L st; run_prog; rewrite ?E, ?Er, ?Ea; reflexivity.
  - eexists; intros L st; run_prog; rewrite ?E; reflexivity.
Qed.

Lemma normalized_search_returns svc f normalizedName :
  exists found calls, forall L (st : state L),
    normalized_search svc f normalizedName st
    = (Return found, logged st calls).
Proof.
  unfold normalized_search, doSearch.
  match goal with
  | |- context [doSearch_answer svc ?req] =>
      destruct (doSearch_answer svc req) as [r|] eqn:E
  end; eexists; eexists; intros L st; run_prog; rewrite ?E; reflexivity.
Qed.

Lemma token_searches_logs svc tokens :
  forall tokenResult searchToken,
  exists o calls, forall L (st : state L),
    token_searches svc tokens tokenResult searchToken st
    = (match o with
       | Some held => Return held
       | None => Throw (lit "search failed")
       end, logged st calls).
Proof.
  induction tokens as [|t rest IH]; intros tokenResult searchToken.
  - exists (Some (tokenResult, searchToken)), []. intros L st.
    by rewrite logged_nil.
  - cbn [token_searches].
    destruct (doSearch_answer svc (token_request t)) as [r|] eqn:E.
    + destruct (total r <? 100) eqn:Et.
      * exists (Some (Some r, t)); eexists; intros L st.
        unfold mbind, prog_bind, bind.
        rewrite (doSearch_answers svc _ r) by done.
        rewrite Et, orb_true_r. reflexivity.
      * destruct (IH (Some r) t) as (o1 & calls1 & Hrest1).
        destruct (IH tokenResult searchToken) as (o2 & calls2 & Hrest2).
        destruct tokenResult as [held|].
        -- exists o2, ([CrmSearch (token_request t)] ++ calls2). intros L st.
           unfold mbind, prog_bind, bind.
           rewrite (doSearch_answers svc _ r) by done.
           rewrite Et. cbn [Storage.is_null orb].
           rewrite Hrest2. by rewrite logged_logged.
        -- exists o1, ([CrmSearch (token_request t)] ++ calls1). intros L st.
           unfold mbind, prog_bind, bind.
           rewrite (doSearch_answers svc _ r) by done.
           rewrite Et. cbn [Storage.is_null orb].
           rewrite Hrest1. by rewrite logged_logged.
    + exists None; eexists; intros L st. unfold mbind, prog_bind, bind.
      rewrite doSearch_fails by done. reflexivity.
Qed.

Lemma token_search_returns svc f normalizedName tokens :
  exists found calls, forall L (st : state L),
    token_search svc f normalizedName tokens st
    = (Return found, logged st calls).
Proof.
  unfold token_search.
  destruct (token_searches_logs svc tokens None (default [] (head tokens)))
    as (o & calls & Hloop).
  destruct o as [[tokenResult searchToken]|].
  - destruct (fold_left (score_step f normalizedName tokens)
                (scored_candidates tokenResult) (None, 0%Q))
      as [[c|] bestScore] eqn:Ebest;
      eexists; exists calls; intros L st; run_prog;
      rewrite Hloop, Ebest; reflexivity.
  - eexists; exists calls; intros L st; run_prog; rewrite Hloop; reflexivity.
Qed.

(** The matcher always returns a result; it only searches. *)
Lemma searchHubSpotCompany_returns svc f :
  exists result calls, forall L (st : state L),
    searchHubSpotCompany svc f st = (Return result, logged st calls).
Proof.
  unfold searchHubSpotCompany.
  set (normalizedName := Normalizer.normalizeName (name f) (country f)).
  set (tokens := Normalizer.extractTokens normalizedName).
  destruct (exact_search_returns svc f) as (x1 & H1).
  destruct (normalized_search_returns svc f normalizedName)
    as (x2 & calls2 & H2).
  destruct (token_search_returns svc f normalizedName tokens)
    as (x3 & calls3 & H3).
  destruct x1 as [r1|].
  { eexists; eexists; intros L st. unfold mbind, prog_bind, bind at 1.
    rewrite H1. reflexivity. }
  destruct (negb (eqb normalizedName (name f))) eqn:Enorm;
    [destruct x2 as [r2|]|].
  - eexists; eexists; intros L st. unfold mbind, prog_bind, bind at 1.
    rewrite H1. unfold bind at 1. rewrite H2, logged_logged. reflexivity.
  - destruct (0 <? length tokens) eqn:Etok; [destruct x3 as [r3|]|];
      eexists; eexists; intros L st; unfold mbind, prog_bind, bind at 1;
      rewrite H1; unfold bind at 1; rewrite H2; unfold bind at 1;
      rewrite ?H3; unfold mret, prog_ret, ret;
      rewrite ?logged_logged; reflexivity.
  - destruct (0 <? length tokens) eqn:Etok; [destruct x3 as [r3|]|];
      eexists; eexists; intros L st; unfold mbind, prog_bind, bind at 1;
      rewrite H1; unfold bind at 1; unfold mret, prog_ret, ret at 1;
      unfold bind at 1; rewrite ?H3; unfold ret;
      rewrite ?logged_logged; reflexivity.
Qed.

End MatcherFacts.

Module GeocoderFacts.
Import JS Effects Geocoder.

Ltac run_prog :=
  unfold fetch_json, mbind, mret, prog_bind, prog_ret, bind, ret, try_catch,
    emit, throw.

(** Both geocoders return, whatever the services answer, and only add to the
    log. *)
Lemma geocodeKartverket_returns svc f :
  exists result calls, forall L (st : state L),
    geocodeKartverket svc f st = (Return result, logged st calls).
Proof.
  unfold geocodeKartverket.
  destruct (kartverket_answer svc (primary_query f))
    as [| |[[[[|? ?]|]]|]] eqn:E1;
  destruct (kartverket_answer svc (fallback_query f))
    as [| |[[[[|? ?]|]]|]] eqn:E2;
  eexists; eexists; intros L st; run_prog; rewrite ?E1; cbn;
    rewrite ?E2; cbn; rewrite ?MatcherFacts.logged_logged; reflexivity.
Qed.

Lemma geocodeHere_returns env svc f :
  exists result calls, forall L (st : state L),
    geocodeHere env svc f st = (Return result, logged st calls).
Proof.
  unfold geocodeHere.
  destruct (HERE_API_KEY env) as [[|c key]|];
    try (exists None, []; intros L st; run_prog;
         by rewrite MatcherFacts.logged_nil).
  match goal with
  | |- context [here_answer svc ?q] =>
      destruct (here_answer svc q) as [| |[[[[|? ?]|]]|]] eqn:E
  end;
  eexists; eexists; intros L st; run_prog; rewrite ?E; cbn; reflexivity.
Qed.

Lemma geocodeFacility_returns env svc f :
  exists result calls, forall L (st : state L),
    geocodeFacility env svc f st = (Return result, logged st calls).
Proof.
  unfold geocodeFacility. destruct (eqb (country f) (lit "Norway")).
  - apply geocodeKartverket_returns.
  - apply geocodeHere_returns.
Qed.

End GeocoderFacts.


(** In general: when the first result of the exact-name search has a
    non-empty address, the matcher returns that result with tier "exact" and
    confidence 1.0, whatever other candidates the search returned, and sends
    no other request. *)
Lemma exact_tier_takes_first_result {L} (svc : Effects.services)
    (f : Matcher.Facility) (st : Effects.state L)
    (response : Effects.search_response) (first : Effects.HubSpotCompany)
    (others : list Effects.HubSpotCompany) :
  Effects.doSearch_answer svc (Matcher.exact_request f) = Some response ->
  Effects.results response = first :: others ->
  Matcher.has_address first = true ->
  Matcher.searchHubSpotCompany svc f st
  = (Effects.Return {| Matcher.facility := f; Matcher.company := Some first;
                       Matcher.matchType := Matcher.MExact;
                       Matcher.confidence := 1 |},
     Effects.logged st [Effects.CrmSearch (Matcher.exact_request f)]).
Proof.
  intros Hanswer Hfirst Haddress.
  unfold Matcher.searchHubSpotCompany, Matcher.exact_search.
  unfold mbind, Effects.prog_bind, Effects.bind at 1.
  unfold Effects.try_catch, mbind, Effects.prog_bind, Effects.bind.
  rewrite (MatcherFacts.doSearch_answers svc _ response) by done.
  rewrite Hfirst, Haddress. reflexivity.
Qed.

(** An instance: the company with the address comes first. *)
Lemma exact_tier_takes_first_result_witness :
  let f := Examples.new_facility "f1" "Sameiet Solsiden Borettslag" "Norway" in
  let svc :=
    {| Effects.doSearch_answer := fun _ =>
         Some {| Effects.total := 2;
                 Effects.results := [Examples.with_address;
                                     Examples.without_address] |};
       Effects.kartverket_answer := fun _ => Effects.FetchThrows;
       Effects.here_answer := fun _ => Effects.FetchThrows;
       Effects.rpc_rejects := fun _ => false |} in
  Matcher.has_address Examples.with_address = true
  /\ Matcher.searchHubSpotCompany svc f (Examples.start [] tt)
     = (Effects.Return {| Matcher.facility := f;
                          Matcher.company := Some Examples.with_address;
                          Matcher.matchType := Matcher.MExact;
                          Matcher.confidence := 1 |},
        Effects.logged (Examples.start [] tt)
          [Effects.CrmSearch (Matcher.exact_request f)]).
Proof.
  split; [reflexivity|].
  apply (exact_tier_takes_first_result _ _ _
           {| Effects.total := 2;
              Effects.results := [Examples.with_address;
                                  Examples.without_address] |}
           Examples.with_address [Examples.without_address]);
    reflexivity.
Defined.

(** And when the first result has no address, the exact tier yields nothing,
    whatever the results behind it are. *)
Lemma exact_tier_stops_at_first_result {L} (svc : Effects.services)
    (f : Matcher.Facility) (st : Effects.state L)
    (response : Effects.search_response) (first : Effects.HubSpotCompany)
    (others : list Effects.HubSpotCompany) :
  Effects.doSearch_answer svc (Matcher.exact_request f) = Some response ->
  Effects.results response = first :: others ->
  Matcher.has_address first = false ->
  Matcher.exact_search svc f st
  = (Effects.Return None,
     Effects.logged st [Effects.CrmSearch (Matcher.exact_request f)]).
Proof.
  intros Hanswer Hfirst Haddress. unfold Matcher.exact_search.
  unfold Effects.try_catch, mbind, Effects.prog_bind, Effects.bind.
  rewrite (MatcherFacts.doSearch_answers svc _ response) by done.
  by rewrite Hfirst, Haddress.
Qed.

(** C6: what the code does where the claim fails. Both tokens of "Solsiden
    Park" return 100 results or more; both are searched, "park" last, and the
    candidates that are scored are the results for "solsiden", the first
    token: the facility is matched to "Solsiden Hage", although the results
    for "park" hold "Solsiden Park". *)
Lemma token_tier_scores_first_token_results :
  let f := Examples.new_facility "f4" "Solsiden Park" "Norway" in
  let st := Examples.start [] tt in
  let tokens := Normalizer.extractTokens
                  (Normalizer.normalizeName (Matcher.name f)
                     (Matcher.country f)) in
  tokens = [JS.lit "solsiden"; JS.lit "park"]
  /\ Matcher.token_searches Examples.crowded_crm tokens None (JS.lit "solsiden")
       st
     = (Effects.Return (Some Examples.answer_solsiden, JS.lit "solsiden"),
        Effects.logged st
          [Effects.CrmSearch (Matcher.token_request (JS.lit "solsiden"));
           Effects.CrmSearch (Matcher.token_request (JS.lit "park"))])
  /\ Matcher.scored_candidates (Some Examples.answer_solsiden)
     = [Examples.solsiden_hage]
  /\ Effects.doSearch_answer Examples.crowded_crm
       (Matcher.token_request (JS.lit "park"))
     = Some {| Effects.total := 300;
               Effects.results := [Examples.solsiden_park] |}
  /\ Matcher.company <$> Effects.returned
       (fst (Matcher.searchHubSpotCompany Examples.crowded_crm f st))
     = Some (Some Examples.solsiden_hage).
Proof. vm_compute. repeat split. Qed.

(** C1, as stated, fails in both stages. Geocoding: the facility without a
    result is marked as failed, and the backlog query of the next run, which
    looks at the address and the latitude only, returns it again. Matching:
    nothing is stored for a facility without a match, and the backlog query
    returns it again. *)
Lemma facility_without_result_is_selected_again :
  let geo_rows := [Examples.new_row "f2" "Solsiden" "Norway"
                     (Some "Storgata 5"%string)] in
  let geo_run := Geocoder.main Examples.all_credentials Examples.nothing_found
                   {| Geocoder.countryFilter := None; Geocoder.limit := 100;
                      Geocoder.dryRun := false |}
                   (Examples.start geo_rows
                      {| Geocoder.success := 0; Geocoder.failed := 0 |}) in
  let sync_rows := [Examples.new_row "f1" "Solsiden" "Norway" None] in
  let sync_run := Sync.syncHubSpotAddresses Examples.all_credentials
                    Examples.nothing_found
                    {| Sync.dryRun := false; Sync.limit := None;
                       Sync.country := None; Sync.verbose := false |}
                    (Examples.start sync_rows Sync.no_stats) in
  (fst geo_run = Effects.Return tt
   /\ map Storage.geocode_status (Effects.db (snd geo_run)) = [Storage.failed]
   /\ map Storage.id
        (Storage.asset_map_get_facilities_for_geocoding
           (Effects.db (snd geo_run)) None 100) = [JS.lit "f2"])
  /\ (fst sync_run = Effects.Return tt
      /\ Sync.n_none (Sync.byMatchType (Effects.locals (snd sync_run))) = 1
      /\ Effects.db (snd sync_run) = sync_rows
      /\ map Storage.id
           (Storage.asset_map_get_facilities_for_sync
              (Effects.db (snd sync_run)) 5000 None) = [JS.lit "f1"]).
Proof. vm_compute. repeat split. Qed.

(** C1, amended. In a run of the geocoding stage that is not a dry run, a
    facility whose geocoding ends without a result is stored as failed when
    the write goes through; in the matching stage nothing is stored for a
    facility without a match. Neither mark takes the facility out of the
    backlog: the geocoding backlog of the next run holds the same facilities
    as before the failure was stored. *)
Theorem no_result_is_marked_and_stays_in_backlog
    (env : Effects.environment) (svc : Effects.services)
    (fg : Geocoder.FacilityToGeocode)
    (stg : Effects.state Geocoder.counters)
    (fm : Matcher.Facility) (dry : bool) (stm : Effects.state Sync.stats) :
  fst (Geocoder.geocodeFacility env svc fg stg) = Effects.Return None ->
  Effects.rpc_rejects svc
    (Effects.RpcUpdate (JS.lit "asset_map_update_facility_geocode")
       (Geocoder.id fg)) = false ->
  Matcher.company <$>
    Effects.returned (fst (Matcher.searchHubSpotCompany svc fm stm))
    = Some None ->
  let after_geocoding :=
    Effects.db (snd (Geocoder.geocode_one env svc false tt fg stg)) in
  let after_matching :=
    Effects.db (snd (Sync.sync_one svc dry tt fm stm)) in
  Forall2 (Storage.marked_failed (Geocoder.id fg)) (Effects.db stg)
    after_geocoding
  /\ (forall p_country p_limit,
        map Storage.id (Storage.asset_map_get_facilities_for_geocoding
                          after_geocoding p_country p_limit)
        = map Storage.id (Storage.asset_map_get_facilities_for_geocoding
                            (Effects.db stg) p_country p_limit))
  /\ after_matching = Effects.db stm.
Proof.
  intros Hnone Hok Hmatch. cbv zeta.
  destruct (GeocoderFacts.geocodeFacility_returns env svc fg)
    as (result & calls & Hgeo).
  rewrite Hgeo in Hnone. simpl in Hnone. injection Hnone as ->.
  assert (Hdb : Effects.db
            (snd (Geocoder.geocode_one env svc false tt fg stg))
          = Storage.asset_map_update_facility_geocode
              (Effects.clock stg) (Effects.db stg) (Geocoder.id fg)
              None None Storage.failed None).
  { unfold Geocoder.geocode_one.
    unfold mbind, Effects.prog_bind, Effects.bind at 1. rewrite Hgeo.
    unfold Geocoder.markFacilityFailed, Rpc.rpc_write.
    unfold mbind, Effects.prog_bind, Effects.bind, Effects.emit. simpl.
    rewrite Hok. reflexivity. }
  rewrite Hdb. repeat split.
  - apply StorageFacts.update_geocode_failed.
  - intros p_country p_limit.
    apply StorageFacts.geocoding_backlog_after_failure.
  - destruct (MatcherFacts.searchHubSpotCompany_returns svc fm)
      as (r & calls' & Hsearch).
    rewrite Hsearch in Hmatch. simpl in Hmatch.
    unfold Sync.sync_one.
    unfold mbind, Effects.prog_bind, Effects.bind at 1.
    unfold Effects.update_locals at 1. unfold Effects.try_catch.
    unfold Effects.bind at 1. rewrite Hsearch.
    destruct (Matcher.company r); [discriminate|]. reflexivity.
Qed.

(** An instance: services that find nothing, for a facility of each stage. *)
Lemma no_result_is_marked_and_stays_in_backlog_witness :
  let fg := Examples.to_geocode "f2" "Storgata 5" "0155" "Oslo" "Norway" in
  let stg := Examples.start
               [Examples.new_row "f2" "Solsiden" "Norway"
                  (Some "Storgata 5"%string)]
               {| Geocoder.success := 0; Geocoder.failed := 0 |} in
  let fm := Examples.new_facility "f1" "Solsiden" "Norway" in
  let stm := Examples.start [Examples.new_row "f1" "Solsiden" "Norway" None]
               Sync.no_stats in
  fst (Geocoder.geocodeFacility Examples.all_credentials
         Examples.nothing_found fg stg) = Effects.Return None
  /\ Forall2 (Storage.marked_failed (Geocoder.id fg)) (Effects.db stg)
       (Effects.db (snd (Geocoder.geocode_one Examples.all_credentials
                           Examples.nothing_found false tt fg stg)))
  /\ Effects.db (snd (Sync.sync_one Examples.nothing_found false tt fm stm))
     = Effects.db stm.
Proof.
  cbv zeta. split; [reflexivity|].
  destruct (no_result_is_marked_and_stays_in_backlog
              Examples.all_credentials Examples.nothing_found
              (Examples.to_geocode "f2" "Storgata 5" "0155" "Oslo" "Norway")
              (Examples.start
                 [Examples.new_row "f2" "Solsiden" "Norway"
                    (Some "Storgata 5"%string)]
                 {| Geocoder.success := 0; Geocoder.failed := 0 |})
              (Examples.new_facility "f1" "Solsiden" "Norway") false
              (Examples.start [Examples.new_row "f1" "Solsiden" "Norway" None]
                 Sync.no_stats))
    as (Hmarked & _ & Hkept); [reflexivity..|].
  split; [exact Hmarked|exact Hkept].
Defined.

Module SyncFacts.
Import JS Effects Matcher Sync.

Lemma bind_step {L A B} (m : prog L A) (k : A -> prog L B) (st : state L) :
  (m ≫= k) st =
    match m st with
    | (Return a, st') => k a st'
    | (Throw e, st') => (Throw e, st')
    | (Exit code, st') => (Exit code, st')
    end.
Proof. reflexivity. Qed.

Lemma try_catch_step {L A} (m : prog L A) handler (st : state L) :
  try_catch m handler st =
    match m st with
    | (Throw e, st') => handler e st'
    | r => r
    end.
Proof. reflexivity. Qed.

Lemma update_locals_step {L} (g : L -> L) (st : state L) :
  update_locals g st
  = (Return tt, {| db := db st; clock := clock st; log := log st;
                   locals := g (locals st) |}).
Proof. reflexivity. Qed.

Lemma processed_counted c s : processed (count_processed c s) = S (processed s).
Proof. unfold count_processed. by destruct (default _ _). Qed.

Lemma processed_matched c s : processed (count_matched c s) = processed s.
Proof. unfold count_matched. by destruct (default _ _). Qed.

Lemma processed_match_type t s : processed (count_match_type t s) = processed s.
Proof. reflexivity. Qed.

Lemma updateFacility_outcome svc f c (st : state stats) :
  exists o st', updateFacility svc f c st = (o, st')
                /\ locals st' = locals st
                /\ (o = Return tt \/ exists e, o = Throw e).
Proof.
  unfold updateFacility, Rpc.rpc_write.
  rewrite bind_step. unfold emit.
  destruct (rpc_rejects svc _).
  - eexists; eexists; split; [reflexivity|]. split; [done|]. right; eauto.
  - unfold write_db. cbn [db clock log locals logged].
    destruct (Storage.asset_map_update_facility_from_hubspot _ _ _ _ _ _ _);
      eexists; eexists; (split; [reflexivity|]); (split; [done|]);
      [by left|right; eauto].
Qed.

(** One record of the matching stage: whatever happens inside, the loop body
    returns and the record is counted. *)
Lemma sync_one_returns svc dry f (st : state stats) :
  exists st', sync_one svc dry tt f st = (Return tt, st')
              /\ processed (locals st') = S (processed (locals st)).
Proof.
  destruct (MatcherFacts.searchHubSpotCompany_returns svc f)
    as (r & calls & Hsearch).
  unfold sync_one.
  rewrite bind_step, update_locals_step, try_catch_step, bind_step, Hsearch.
  rewrite bind_step, update_locals_step. cbn [db clock log locals logged].
  destruct (company r) as [c|].
  - rewrite bind_step, update_locals_step. cbn [db clock log locals].
    destruct dry.
    + eexists; split; [reflexivity|]. cbn [locals].
      by rewrite processed_matched, processed_match_type, processed_counted.
    + rewrite bind_step.
      match goal with
      | |- context [updateFacility svc f c ?s] =>
          destruct (updateFacility_outcome svc f c s)
            as (o & st' & -> & Hloc & [->|[e ->]])
      end.
      * rewrite update_locals_step.
        eexists; split; [reflexivity|]. cbn [locals]. rewrite Hloc.
        cbn [locals count_updated processed].
        by rewrite processed_matched, processed_match_type, processed_counted.
      * rewrite update_locals_step.
        eexists; split; [reflexivity|]. cbn [locals]. rewrite Hloc.
        cbn [locals count_failed processed].
        by rewrite processed_matched, processed_match_type, processed_counted.
  - eexists; split; [reflexivity|]. cbn [locals].
    by rewrite processed_match_type, processed_counted.
Qed.

(** A batch of the matching stage is processed to its end. *)
Lemma sync_batch_returns svc dry batch : forall (st : state stats),
  exists st', for_each batch (sync_one svc dry) tt st = (Return tt, st')
              /\ processed (locals st')
                 = processed (locals st) + length batch.
Proof.
  induction batch as [|f rest IH]; intros st.
  - exists st. split; [reflexivity|]. simpl. lia.
  - destruct (sync_one_returns svc dry f st) as (st1 & Hone & Hcount).
    destruct (IH st1) as (st' & Hrest & Hcount').
    exists st'. cbn [for_each]. rewrite bind_step, Hone.
    split; [exact Hrest|]. simpl. lia.
Qed.

End SyncFacts.

(** C4: what the code does where the claim fails. The geocoding stage has no
    handler around the processing of a record. The write for the first
    facility is rejected: the exception ends the loop, the second facility is
    never looked up, no counter moves, and nothing is stored. *)
Lemma geocoding_write_failure_ends_the_batch :
  let rows := [Examples.norwegian_row "f1" "Alfa" "Kongens gate 1" "0150";
               Examples.norwegian_row "f2" "Bravo" "Kongens gate 2" "0150"] in
  let run := Geocoder.main Examples.all_credentials Examples.rejecting_f1
               {| Geocoder.countryFilter := None; Geocoder.limit := 100;
                  Geocoder.dryRun := false |}
               (Examples.start rows
                  {| Geocoder.success := 0; Geocoder.failed := 0 |}) in
  fst run = Effects.Throw (JS.lit "RPC failed")
  /\ Effects.log (snd run)
     = [Effects.RpcBacklog (JS.lit "asset_map_get_facilities_for_geocoding");
        Effects.KartverketFetch (JS.lit "Kongens gate 1 0150");
        Effects.RpcUpdate (JS.lit "asset_map_update_facility_geocode")
          (JS.lit "f1")]
  /\ Effects.locals (snd run)
     = {| Geocoder.success := 0; Geocoder.failed := 0 |}
  /\ Effects.db (snd run) = rows.
Proof. vm_compute. repeat split. Qed.

(** The same fault in the matching stage is counted and the batch goes on. *)
Lemma matching_write_failure_is_counted :
  let rows := [Examples.new_row "f1" "Alfa" "Norway" None;
               Examples.new_row "f2" "Bravo" "Norway" None] in
  let run := Sync.syncHubSpotAddresses Examples.all_credentials
               Examples.rejecting_f1
               {| Sync.dryRun := false; Sync.limit := None;
                  Sync.country := None; Sync.verbose := false |}
               (Examples.start rows Sync.no_stats) in
  fst run = Effects.Return tt
  /\ Sync.processed (Effects.locals (snd run)) = 2
  /\ Sync.failed (Effects.locals (snd run)) = 1
  /\ Sync.updated (Effects.locals (snd run)) = 1.
Proof. vm_compute. repeat split. Qed.

(** C9. The similarity scorer is symmetric, and the similarity of a string
    with itself, the empty string included, is 1.0. *)
Theorem similarity_symmetric_reflexive (a b : JS.jsstring) :
  Similarity.similarity a b = Similarity.similarity b a
  /\ (Similarity.similarity a a == 1)%Q.
Proof.
  split.
  - unfold Similarity.similarity.
    destruct (Nat.ltb_spec (length b) (length a)) as [Hab|Hab];
      destruct (Nat.ltb_spec (length a) (length b)) as [Hba|Hba];
      try lia; try reflexivity.
    assert (E : length a = length b) by lia.
    rewrite !SimilarityFacts.final_cost, E.
    rewrite (SimilarityFacts.table_sym a b). reflexivity.
  - unfold Similarity.similarity. rewrite Nat.ltb_irrefl.
    destruct (Nat.eqb_spec (length a) 0) as [E|E]; [reflexivity|].
    rewrite SimilarityFacts.final_cost, SimilarityFacts.table_diag.
    unfold Qeq. simpl Qnum. simpl Qden.
    rewrite Z.sub_0_r, Z.mul_1_r, Z.mul_1_l.
    rewrite <- positive_nat_Z, Nat2Pos.id by done. reflexivity.
Qed.

(** * Further properties of the scorer and the normalizer *)

Module SimilarityBounds.
Import JS Similarity SimilarityFacts.

(** An entry of the table is at most the larger of its two indices and at
    least their difference. *)
Lemma table_le_max s l i : forall j, table s l i j <= Nat.max i j.
Proof.
  induction i as [|i IHi]; intros j; [simpl; lia|].
  induction j as [|j IHj]; [simpl; lia|].
  rewrite table_row. pose proof (IHi j). pose proof (IHi (S j)).
  destruct (char_differs _ _); lia.
Qed.

Lemma table_ge_diff s l i :
  forall j, i - j <= table s l i j /\ j - i <= table s l i j.
Proof.
  induction i as [|i IHi]; intros j; [simpl; lia|].
  induction j as [|j IHj]; [simpl; lia|].
  rewrite table_row. pose proof (IHi j). pose proof (IHi (S j)).
  destruct (char_differs _ _); lia.
Qed.

(** A zero on the diagonal means that the prefixes are the same. *)
Lemma table_zero_prefix s l i :
  i <= length s -> i <= length l -> table s l i i = 0 -> take i s = take i l.
Proof.
  induction i as [|i IH]; intros Hs Hl Hzero; [done|].
  rewrite table_row in Hzero.
  destruct (char_differs (charAt s i) (charAt l i)) eqn:E; [lia|].
  unfold char_differs in E. apply negb_false_iff, bool_decide_eq_true in E.
  unfold charAt in E.
  destruct (lookup_lt_is_Some_2 s i) as [x Hx]; [lia|].
  rewrite Hx in E. symmetry in E.
  rewrite (take_S_r s i x), (take_S_r l i x) by done.
  f_equal. apply IH; [lia|lia|done].
Qed.

End SimilarityBounds.

(** X1. The similarity of two strings is a number between 0 and 1. *)
Theorem similarity_between_0_and_1 (a b : JS.jsstring) :
  (0 <= Similarity.similarity a b)%Q /\ (Similarity.similarity a b <= 1)%Q.
Proof.
  unfold Similarity.similarity.
  set (longer := if length b <? length a then a else b).
  set (shorter := if length b <? length a then b else a).
  destruct (Nat.eqb_spec (length longer) 0) as [E|E];
    [split; [done|apply Qle_refl]|].
  rewrite SimilarityFacts.final_cost.
  pose proof (SimilarityBounds.table_le_max shorter longer (length shorter)
                (length longer)) as Hle.
  assert (Hlen : length shorter <= length longer).
  { subst longer shorter. destruct (Nat.ltb_spec (length b) (length a)); lia. }
  assert (Hpos : Z.pos (Pos.of_nat (length longer))
                 = Z.of_nat (length longer)).
  { rewrite <- (positive_nat_Z (Pos.of_nat (length longer))).
    by rewrite Nat2Pos.id. }
  unfold Qle. cbn [Qnum Qden]. rewrite ?Hpos. split; nia.
Qed.

(** X2. The similarity is 1.0 exactly when the two strings are the same. *)
Theorem similarity_one_iff_equal (a b : JS.jsstring) :
  (Similarity.similarity a b == 1)%Q <-> a = b.
Proof.
  split.
  - unfold Similarity.similarity.
    set (longer := if length b <? length a then a else b).
    set (shorter := if length b <? length a then b else a).
    destruct (Nat.eqb_spec (length longer) 0) as [E|E].
    + intros _. subst longer.
      destruct (Nat.ltb_spec (length b) (length a)) as [H|H].
      * lia.
      * destruct a, b; simpl in *; try lia. reflexivity.
    + rewrite SimilarityFacts.final_cost.
      assert (Hpos : Z.pos (Pos.of_nat (length longer))
                     = Z.of_nat (length longer)).
      { rewrite <- (positive_nat_Z (Pos.of_nat (length longer))).
        by rewrite Nat2Pos.id. }
      unfold Qeq. cbn [Qnum Qden]. rewrite Hpos. intros Hone.
      assert (Hzero : Similarity.table shorter longer (length shorter)
                        (length longer) = 0) by lia.
      pose proof (SimilarityBounds.table_ge_diff shorter longer
                    (length shorter) (length longer)) as [_ Hdiff].
      assert (Hlen : length shorter = length longer).
      { assert (length shorter <= length longer);
          [subst longer shorter;
           destruct (Nat.ltb_spec (length b) (length a)); lia|lia]. }
      rewrite <- Hlen in Hzero.
      apply SimilarityBounds.table_zero_prefix in Hzero; [|lia..].
      rewrite firstn_all in Hzero. rewrite Hlen, firstn_all in Hzero.
      subst longer shorter.
      destruct (Nat.ltb_spec (length b) (length a)); congruence.
  - intros ->. unfold Similarity.similarity. rewrite Nat.ltb_irrefl.
    destruct (Nat.eqb_spec (length b) 0) as [E|E]; [reflexivity|].
    rewrite SimilarityFacts.final_cost, SimilarityFacts.table_diag.
    unfold Qeq. simpl Qnum. simpl Qden.
    rewrite Z.sub_0_r, Z.mul_1_r, Z.mul_1_l.
    rewrite <- positive_nat_Z, Nat2Pos.id by done. reflexivity.
Qed.

Module TokenFacts.
Import JS Regex Normalizer.

(** No piece of a split holds a separator. *)
Lemma split_from_pieces sep s : forall in_run,
  Forall (Forall (fun c => sep c = false)) (split_from sep in_run s).
Proof.
  induction s as [|c s IH]; intros in_run; simpl.
  - repeat constructor.
  - destruct (sep c) eqn:E.
    + destruct in_run; [apply IH|]. constructor; [constructor|apply IH].
    + specialize (IH false). destruct (split_from sep false s) as [|w ws].
      * repeat constructor. done.
      * inversion_clear IH. constructor; [by constructor|done].
Qed.

End TokenFacts.

(** X3. [extractTokens] returns at most four tokens; each one is longer than
    two characters, is not a stopword, and holds no white space, hyphen,
    slash or parenthesis. *)
Theorem extractTokens_tokens (name : JS.jsstring) :
  length (Normalizer.extractTokens name) <= 4
  /\ Forall (fun token =>
       2 < length token
       /\ ~ In token Normalizer.stopwords
       /\ Forall (fun c => Normalizer.is_token_separator c = false) token)
     (Normalizer.extractTokens name).
Proof.
  unfold Normalizer.extractTokens. split.
  - rewrite length_take. lia.
  - apply Forall_forall. intros token Hin.
    apply subseteq_take, list_elem_of_In in Hin.
    apply filter_In in Hin as [Hin Hstop].
    apply filter_In in Hin as [Hin Hlong].
    repeat split.
    + by apply Nat.ltb_lt.
    + intros Hmem. apply negb_true_iff in Hstop.
      assert (existsb (JS.eqb token) Normalizer.stopwords = true); [|congruence].
      apply existsb_exists. exists token. split; [done|].
      unfold JS.eqb. by apply bool_decide_eq_true.
    + pose proof (TokenFacts.split_from_pieces Normalizer.is_token_separator
                    (JS.toLowerCase name) false) as Hall.
      rewrite Forall_forall in Hall. apply Hall. by apply list_elem_of_In.
Qed.

(** X4. A normalized name has no white space at either end, holds no
    punctuation character, and has single U+0020 characters as its only
    white space. *)
Theorem normalizeName_canonical_form (s c : JS.jsstring) :
  JS.trim (Normalizer.normalizeName s c) = Normalizer.normalizeName s c
  /\ Normalizer.no_punctuation (Normalizer.normalizeName s c)
  /\ Normalizer.single_spaced (Normalizer.normalizeName s c).
Proof.
  unfold Normalizer.normalizeName.
  destruct (NormalizerFacts.tidy_settled
              (Normalizer.remove_affixes c (JS.trim s))) as (Hp & Hs & Ht).
  done.
Qed.

Module RegexFacts.
Import JS Regex RegexSpec Normalizer NormalizerFacts.

Lemma star_shrinks p k : shrinks k -> shrinks (fun pos s => star p pos s k).
Proof.
  intros Hk pos s. revert pos.
  induction s as [|c s IH]; intros pos rest; simpl; [apply Hk|].
  destruct (p c); [|apply Hk].
  destruct (star p (S pos) s k) as [r|] eqn:E; [|apply Hk].
  intros [= <-]. apply suffix_cons_r. by apply (IH (S pos)).
Qed.

Lemma run_shrinks ic r : forall k,
  shrinks k -> shrinks (fun pos s => run ic r pos s k).
Proof.
  induction r as [|c| | |r1 IH1 r2 IH2|r1 IH1 r2 IH2|p|p];
    intros k Hk pos s rest; simpl.
  - apply Hk.
  - destruct s as [|x s]; [done|]. destruct (chr_matches ic c x); [|done].
    intros H. apply suffix_cons_r. by apply (Hk (S pos)).
  - destruct (pos =? 0); [apply Hk|done].
  - destruct s; [apply Hk|done].
  - apply (IH1 (fun pos' s' => run ic r2 pos' s' k)). by apply IH2.
  - destruct (run ic r1 pos s k) as [r|] eqn:E.
    + intros [= <-]. by apply (IH1 k Hk pos).
    + by apply IH2.
  - by apply star_shrinks.
  - destruct s as [|x s]; [done|]. destruct (p x); [|done].
    intros H. apply suffix_cons_r. by apply (star_shrinks p k Hk (S pos)).
Qed.

Lemma match_at_shrinks ic r pos s rest :
  match_at ic r pos s = Some rest -> rest `suffix_of` s.
Proof.
  apply (run_shrinks ic r (fun _ rest => Some rest)).
  by intros ? ? ? [= <-].
Qed.

Lemma search_bounds ic r s : forall pos start rest,
  search ic r pos s = Some (start, rest) ->
  exists n, start = pos + n /\ n <= length s /\ length rest <= length s - n.
Proof.
  induction s as [|c s IH]; intros pos start rest; simpl.
  - destruct (match_at ic r pos []) as [r0|] eqn:E; [|done].
    intros [= <- <-]. exists 0. apply match_at_shrinks, suffix_length in E.
    simpl in *. lia.
  - destruct (match_at ic r pos (c :: s)) as [r0|] eqn:E.
    + intros [= <- <-]. exists 0.
      apply match_at_shrinks, suffix_length in E. simpl in *. lia.
    + intros H. destruct (IH _ _ _ H) as (n & -> & Hn & Hrest).
      exists (S n). simpl. lia.
Qed.

(** Removing the first match does not make a string longer. *)
Lemma replace_empty_length ic r s : length (replace ic r [] s) <= length s.
Proof.
  unfold replace. destruct (search ic r 0 s) as [[start rest]|] eqn:E; [|done].
  destruct (search_bounds _ _ _ _ _ _ E) as (n & -> & Hn & Hrest).
  rewrite length_app, length_take. simpl. lia.
Qed.

Lemma replace_all_length ic p by_ s :
  length by_ <= 1 -> length (replace_all ic (Plus p) by_ s) <= length s.
Proof.
  intros Hby.
  induction s as [|c s Hc IH|c s Hc IH] using (runs_ind p).
  - by rewrite replace_all_nil.
  - rewrite replace_all_cons, Hc, length_app.
    pose proof (drop_while_length p s). simpl. lia.
  - rewrite replace_all_cons, Hc. simpl. lia.
Qed.

Lemma trim_end_length s : length (trim_end s) <= length s.
Proof.
  induction s as [|c s IH]; [done|]. rewrite trim_end_cons.
  destruct (trim_end s); [destruct (is_space c)|]; simpl in *; lia.
Qed.

Lemma trim_length s : length (trim s) <= length s.
Proof.
  unfold trim, trim_start.
  pose proof (trim_end_length (drop_while is_space s)).
  pose proof (drop_while_length is_space s). lia.
Qed.

Lemma fold_replace_length (mk : jsstring -> regex) (ws : list jsstring) :
  forall s,
    length (fold_left (fun normalized w => replace true (mk w) [] normalized)
              ws s) <= length s.
Proof.
  induction ws as [|w ws IH]; intros s; [done|]. simpl.
  pose proof (IH (replace true (mk w) [] s)).
  pose proof (replace_empty_length true (mk w) s). lia.
Qed.

End RegexFacts.

(** X5. Normalizing never makes a name longer. *)
Theorem normalizeName_not_longer (s c : JS.jsstring) :
  length (Normalizer.normalizeName s c) <= length s.
Proof.
  unfold Normalizer.normalizeName, Normalizer.tidy, Normalizer.remove_affixes,
    Normalizer.remove_noise, Normalizer.remove_suffixes,
    Normalizer.remove_prefixes.
  repeat match goal with
  | |- context [JS.trim ?x] =>
      lazymatch goal with
      | H : length (JS.trim x) <= _ |- _ => fail
      | _ => pose proof (RegexFacts.trim_length x)
      end
  | |- context [Regex.replace_all ?ic (Regex.Plus ?p) ?b ?x] =>
      lazymatch goal with
      | H : length (Regex.replace_all ic (Regex.Plus p) b x) <= _ |- _ => fail
      | _ => assert (length (Regex.replace_all ic (Regex.Plus p) b x)
                     <= length x)
               by (apply RegexFacts.replace_all_length; simpl; lia)
      end
  | |- context [Regex.replace ?ic ?r [] ?x] =>
      lazymatch goal with
      | H : length (Regex.replace ic r [] x) <= _ |- _ => fail
      | _ => pose proof (RegexFacts.replace_empty_length ic r x)
      end
  | |- context [fold_left (fun n w => Regex.replace true (?mk w) [] n)
                  ?ws ?x] =>
      lazymatch goal with
      | H : length (fold_left _ ws x) <= _ |- _ => fail
      | _ => pose proof (RegexFacts.fold_replace_length mk ws x)
      end
  end.
  lia.
Qed.

(** * Further properties of the Candidate Matcher *)

Module ScoreFacts.
Import JS Similarity Matcher.

Lemma similarity_le_1 a b : (similarity a b <= 1)%Q.
Proof.
  unfold similarity.
  set (longer := if length b <? length a then a else b).
  set (shorter := if length b <? length a then b else a).
  destruct (Nat.eqb_spec (length longer) 0) as [E|E]; [apply Qle_refl|].
  rewrite SimilarityFacts.final_cost.
  assert (Hpos : Z.pos (Pos.of_nat (length longer))
                 = Z.of_nat (length longer)).
  { rewrite <- (positive_nat_Z (Pos.of_nat (length longer))).
    by rewrite Nat2Pos.id. }
  unfold Qle. cbn [Qnum Qden]. rewrite ?Hpos. lia.
Qed.

Lemma token_overlap_le tokens companyTokens :
  token_overlap tokens companyTokens <= length tokens.
Proof.
  unfold token_overlap. induction tokens as [|t tokens IH]; [done|].
  simpl. destruct (existsb _ _); simpl; lia.
Qed.

(** The combined score is at most 1. *)
Lemma combined_score_le_1 f normalizedName tokens c :
  (combined_score f normalizedName tokens c <= 1)%Q.
Proof.
  unfold combined_score.
  match goal with
  | |- (_ / ?d * _ + ?sim * _ <= _)%Q =>
      pose proof (similarity_le_1 (toLowerCase normalizedName)
                    (toLowerCase (Normalizer.normalizeName (name_or_empty c)
                                    (country f)))) as Hsim;
      assert (Hd : (0 < d)%Q)
  end.
  { replace 0%Q with (inject_Z 0) by done. rewrite <- Zlt_Qlt. lia. }
  match goal with
  | |- (?n / ?d * _ + _ <= _)%Q => assert (Hq : (n / d <= 1)%Q)
  end.
  { apply Qle_shift_div_r; [exact Hd|]. rewrite Qmult_1_l, <- Zle_Qle.
    pose proof (token_overlap_le tokens
                  (Normalizer.extractTokens
                     (Normalizer.normalizeName (name_or_empty c)
                        (country f)))).
    lia. }
  lra.
Qed.

End ScoreFacts.

Module MatcherSpecFacts.
Import JS Effects Matcher MatcherSpec MatcherFacts.

Ltac run_prog :=
  unfold mbind, mret, prog_bind, prog_ret, bind, ret, try_catch, emit, throw.

Lemma exact_search_spec svc f :
  exists found,
    (forall L (st : state L),
       exact_search svc f st
       = (Return found, logged st [CrmSearch (exact_request f)]))
    /\ (forall r, found = Some r -> sound_result f r).
Proof.
  unfold exact_search, doSearch.
  destruct (doSearch_answer svc (exact_request f)) as [r|] eqn:E.
  - destruct (results r) as [|c rest] eqn:Er;
      [|destruct (has_address c) eqn:Ea];
      eexists; (split; [intros L st; run_prog; rewrite ?E, ?Er, ?Ea;
                        reflexivity|]);
      intros r0 [= <-].
    split; [done|]. simpl. eauto.
  - eexists; (split; [intros L st; run_prog; rewrite ?E; reflexivity|]).
    done.
Qed.

Lemma first_similar_sound f normalizedName companies r :
  first_similar f normalizedName companies = Some r -> sound_result f r.
Proof.
  induction companies as [|c rest IH]; [done|]. cbn [first_similar].
  destruct (gt _ _ && has_address c) eqn:E; [|exact IH].
  apply andb_true_iff in E as [Hsim Haddr]. intros [= <-].
  split; [done|]. simpl. split; [eauto|]. split; [done|].
  apply ScoreFacts.similarity_le_1.
Qed.

Lemma normalized_search_spec svc f normalizedName :
  exists found call,
    (forall L (st : state L),
       normalized_search svc f normalizedName st
       = (Return found, logged st [CrmSearch call]))
    /\ (forall r, found = Some r -> sound_result f r).
Proof.
  unfold normalized_search, doSearch.
  match goal with
  | |- context [doSearch_answer svc ?req] =>
      destruct (doSearch_answer svc req) as [r|] eqn:E
  end; eexists; eexists;
    (split; [intros L st; run_prog; rewrite ?E; reflexivity|]).
  - intros r0. apply first_similar_sound.
  - done.
Qed.

Lemma token_searches_spec svc tokens :
  forall tokenResult searchToken,
  exists o calls,
    (forall L (st : state L),
       token_searches svc tokens tokenResult searchToken st
       = (match o with
          | Some held => Return held
          | None => Throw (lit "search failed")
          end, logged st calls))
    /\ length calls <= length tokens
    /\ Forall is_search calls.
Proof.
  induction tokens as [|t rest IH]; intros tokenResult searchToken.
  - exists (Some (tokenResult, searchToken)), []. split; [|by split].
    intros L st. by rewrite logged_nil.
  - cbn [token_searches].
    destruct (doSearch_answer svc (token_request t)) as [r|] eqn:E.
    + destruct (total r <? 100) eqn:Et.
      * exists (Some (Some r, t)), [CrmSearch (token_request t)].
        split; [|split; [simpl; lia|by repeat constructor]].
        intros L st. unfold mbind, prog_bind, bind.
        rewrite (doSearch_answers svc _ r) by done.
        rewrite Et, orb_true_r. reflexivity.
      * destruct (IH (Some r) t) as (o1 & calls1 & Hrest1 & Hlen1 & Hs1).
        destruct (IH tokenResult searchToken)
          as (o2 & calls2 & Hrest2 & Hlen2 & Hs2).
        destruct tokenResult as [held|].
        -- exists o2, ([CrmSearch (token_request t)] ++ calls2).
           split; [|split; [simpl; lia|by repeat constructor]].
           intros L st. unfold mbind, prog_bind, bind.
           rewrite (doSearch_answers svc _ r) by done.
           rewrite Et. cbn [Storage.is_null orb].
           rewrite Hrest2. by rewrite logged_logged.
        -- exists o1, ([CrmSearch (token_request t)] ++ calls1).
           split; [|split; [simpl; lia|by repeat constructor]].
           intros L st. unfold mbind, prog_bind, bind.
           rewrite (doSearch_answers svc _ r) by done.
           rewrite Et. cbn [Storage.is_null orb].
           rewrite Hrest1. by rewrite logged_logged.
    + exists None, [CrmSearch (token_request t)].
      split; [|split; [simpl; lia|by repeat constructor]].
      intros L st. unfold mbind, prog_bind, bind.
      rewrite doSearch_fails by done. reflexivity.
Qed.

Lemma score_step_sound f normalizedName tokens best c :
  sound_best best -> sound_best (score_step f normalizedName tokens best c).
Proof.
  intros Hbest. unfold score_step.
  destruct (has_address c) eqn:Ea; [|done]. simpl.
  destruct (gt _ (snd best) && gt _ (55 # 100)) eqn:E; [|done].
  apply andb_true_iff in E as [_ Hthreshold].
  split; [done|]. split; [done|]. apply ScoreFacts.combined_score_le_1.
Qed.

Lemma scoring_sound f normalizedName tokens candidates : forall best,
  sound_best best ->
  sound_best (fold_left (score_step f normalizedName tokens) candidates best).
Proof.
  induction candidates as [|c rest IH]; intros best Hbest; [done|].
  simpl. by apply IH, score_step_sound.
Qed.

Lemma token_search_spec svc f normalizedName tokens :
  exists found calls,
    (forall L (st : state L),
       token_search svc f normalizedName tokens st
       = (Return found, logged st calls))
    /\ length calls <= length tokens
    /\ Forall is_search calls
    /\ (forall r, found = Some r -> sound_result f r).
Proof.
  unfold token_search.
  destruct (token_searches_spec svc tokens None (default [] (head tokens)))
    as (o & calls & Hloop & Hlen & Hsearch).
  destruct o as [[tokenResult searchToken]|].
  - pose proof (scoring_sound f normalizedName tokens
                  (scored_candidates tokenResult) (None, 0%Q) eq_refl)
      as Hsound.
    destruct (fold_left (score_step f normalizedName tokens)
                (scored_candidates tokenResult) (None, 0%Q))
      as [[c|] bestScore] eqn:Ebest;
      eexists; exists calls;
      (split; [intros L st; run_prog; rewrite Hloop, Ebest; reflexivity|]);
      (split; [done|]); (split; [done|]); intros r [= <-].
    destruct Hsound as (Ha & Hs & Hle). split; [done|]. simpl. eauto.
  - eexists; exists calls.
    split; [intros L st; run_prog; rewrite Hloop; reflexivity|]. done.
Qed.

Lemma tokens_at_most_4 name : length (Normalizer.extractTokens name) <= 4.
Proof. unfold Normalizer.extractTokens. rewrite length_take. lia. Qed.

(** The whole matcher: it returns a sound result after one to six searches,
    the first of which is the exact search. *)
Lemma searchHubSpotCompany_spec svc f :
  exists result calls,
    (forall L (st : state L),
       searchHubSpotCompany svc f st = (Return result, logged st calls))
    /\ sound_result f result
    /\ head calls = Some (CrmSearch (exact_request f))
    /\ length calls <= 6
    /\ Forall is_search calls.
Proof.
  unfold searchHubSpotCompany.
  set (normalizedName := Normalizer.normalizeName (name f) (country f)).
  set (tokens := Normalizer.extractTokens normalizedName).
  pose proof (tokens_at_most_4 normalizedName) as Htokens. fold tokens in Htokens.
  destruct (exact_search_spec svc f) as (x1 & H1 & S1).
  destruct (normalized_search_spec svc f normalizedName)
    as (x2 & call2 & H2 & S2).
  destruct (token_search_spec svc f normalizedName tokens)
    as (x3 & calls3 & H3 & Hlen3 & Hsearch3 & S3).
  assert (Hnone : sound_result f {| facility := f; company := None;
                                    matchType := MNone; confidence := 0 |})
    by (by split).
  destruct x1 as [r1|].
  { eexists; eexists. split.
    - intros L st. unfold mbind, prog_bind, bind at 1. rewrite H1. reflexivity.
    - split; [by apply S1|]. split; [done|]. split; [simpl; lia|].
      by repeat constructor. }
  destruct (negb (eqb normalizedName (name f))) eqn:Enorm;
    [destruct x2 as [r2|]|].
  - eexists; eexists. split.
    + intros L st. unfold mbind, prog_bind, bind at 1.
      rewrite H1. unfold bind at 1. rewrite H2, logged_logged. reflexivity.
    + split; [by apply S2|]. split; [done|]. split; [simpl; lia|].
      by repeat constructor.
  - destruct (0 <? length tokens) eqn:Etok; [destruct x3 as [r3|]|];
      eexists; eexists;
      (split; [intros L st; unfold mbind, prog_bind, bind at 1;
               rewrite H1; unfold bind at 1; rewrite H2; unfold bind at 1;
               rewrite ?H3; unfold mret, prog_ret, ret;
               rewrite ?logged_logged; reflexivity|]);
      (split; [first [exact Hnone|by apply S3]|]); (split; [done|]);
      (split; [rewrite ?length_app; simpl; lia|]);
      repeat (apply Forall_app; split); try done; by repeat constructor.
  - destruct (0 <? length tokens) eqn:Etok; [destruct x3 as [r3|]|];
      eexists; eexists;
      (split; [intros L st; unfold mbind, prog_bind, bind at 1;
               rewrite H1; unfold bind at 1; unfold mret, prog_ret, ret at 1;
               unfold bind at 1; rewrite ?H3; unfold ret;
               rewrite ?logged_logged; reflexivity|]);
      (split; [first [exact Hnone|by apply S3]|]); (split; [done|]);
      (split; [rewrite ?length_app; simpl; lia|]);
      repeat (apply Forall_app; split); try done; by repeat constructor.
Qed.

End MatcherSpecFacts.

(** X6. For a facility whose country is no property name that objects
    inherit, the matcher never throws and never ends the process, whatever
    the CRM answers and whichever searches fail. It sends between one and six
    searches, the exact-name search first, and does nothing else: the table,
    the clock and the locals of the script are as before. *)
Theorem searchHubSpotCompany_only_searches {L} (svc : Effects.services)
    (f : Matcher.Facility) (st : Effects.state L) :
  Objects.plain_key (Matcher.country f) = true ->
  exists result calls,
    Matcher.searchHubSpotCompany svc f st
    = (Effects.Return result, Effects.logged st calls)
    /\ head calls = Some (Effects.CrmSearch (Matcher.exact_request f))
    /\ length calls <= 6
    /\ Forall MatcherSpec.is_search calls.
Proof.
  intros _.
  destruct (MatcherSpecFacts.searchHubSpotCompany_spec svc f)
    as (result & calls & Hrun & _ & Hhead & Hlen & Hsearch).
  exists result, calls. by rewrite Hrun.
Qed.

(** An instance: a facility of Norway. *)
Lemma searchHubSpotCompany_only_searches_witness :
  let f := Examples.new_facility "f1" "Sameiet Solsiden Borettslag" "Norway" in
  Objects.plain_key (Matcher.country f) = true
  /\ exists result calls,
       Matcher.searchHubSpotCompany Examples.crm_with_duplicates f
         (Examples.start [] tt)
       = (Effects.Return result, Effects.logged (Examples.start [] tt) calls)
       /\ head calls = Some (Effects.CrmSearch (Matcher.exact_request f))
       /\ length calls <= 6
       /\ Forall MatcherSpec.is_search calls.
Proof.
  split; [reflexivity|].
  apply (searchHubSpotCompany_only_searches Examples.crm_with_duplicates
           (Examples.new_facility "f1" "Sameiet Solsiden Borettslag" "Norway")
           (Examples.start [] tt)).
  reflexivity.
Defined.


Module MatcherDown.
Import JS Effects Matcher.

(** X8. When every search of the CRM fails, the matcher still returns, for a
    facility whose country is no property name that objects inherit: the
    result is "none" with confidence 0. *)
Theorem searchHubSpotCompany_without_crm {L} (svc : services) (f : Facility)
    (st : state L) :
  Objects.plain_key (country f) = true ->
  (forall req, doSearch_answer svc req = None) ->
  fst (searchHubSpotCompany svc f st)
  = Return {| facility := f; company := None; matchType := MNone;
              confidence := 0 |}.
Proof.
  intros _ Hdown. unfold searchHubSpotCompany.
  assert (Hexact : forall st' : state L,
            fst (exact_search svc f st') = Return None).
  { intros st'. unfold exact_search, try_catch.
    unfold mbind, prog_bind, bind.
    by rewrite MatcherFacts.doSearch_fails. }
  assert (Hnorm : forall n (st' : state L),
            fst (normalized_search svc f n st') = Return None).
  { intros n st'. unfold normalized_search, try_catch.
    unfold mbind, prog_bind, bind.
    by rewrite MatcherFacts.doSearch_fails. }
  assert (Htoken : forall n t rest (st' : state L),
            fst (token_search svc f n (t :: rest) st') = Return None).
  { intros n t rest st'. unfold token_search, try_catch.
    cbn [token_searches].
    unfold mbind, prog_bind, bind.
    by rewrite MatcherFacts.doSearch_fails. }
  unfold mbind, prog_bind, bind at 1.
  specialize (Hexact st).
  destruct (exact_search svc f st) as [o1 st1]. simpl in Hexact.
  subst o1.
  set (n := Normalizer.normalizeName (name f) (country f)).
  assert (Hsecond : exists st2,
            (if negb (eqb n (name f))
             then normalized_search svc f n
             else mret None) st1 = (Return None, st2)).
  { destruct (negb _).
    - specialize (Hnorm n st1).
      destruct (normalized_search svc f n st1) as [o2 st2].
      simpl in Hnorm. subst o2. eauto.
    - eexists. reflexivity. }
  destruct Hsecond as [st2 Hsecond].
  unfold bind at 1. rewrite Hsecond.
  unfold bind.
  destruct (Normalizer.extractTokens n) as [|t rest]; [reflexivity|].
  cbn [length Nat.ltb Nat.leb].
  specialize (Htoken n t rest st2).
  destruct (token_search svc f n (t :: rest) st2) as [o3 st3].
  simpl in Htoken. by subst o3.
Qed.

End MatcherDown.

(** An instance: "Sameiet Solsiden Borettslag" while the CRM is down. *)
Lemma searchHubSpotCompany_without_crm_witness :
  let f := Examples.new_facility "f1" "Sameiet Solsiden Borettslag" "Norway" in
  Objects.plain_key (Matcher.country f) = true
  /\ (forall req, Effects.doSearch_answer Examples2.crm_down req = None)
  /\ fst (Matcher.searchHubSpotCompany Examples2.crm_down f
            (Examples.start [] tt))
     = Effects.Return {| Matcher.facility := f; Matcher.company := None;
                         Matcher.matchType := Matcher.MNone;
                         Matcher.confidence := 0 |}.
Proof.
  split; [reflexivity|]. split; [reflexivity|].
  apply (MatcherDown.searchHubSpotCompany_without_crm Examples2.crm_down
           (Examples.new_facility "f1" "Sameiet Solsiden Borettslag" "Norway")
           (Examples.start [] tt));
    reflexivity.
Defined.

(** * What the steps of the scripts leave alone *)

Module FrameFacts.
Import JS Effects Frame.

Lemma quiet_ret {L A} P (a : A) : quiet (L := L) P (mret a).
Proof. intros st. repeat split. exists []. by rewrite app_nil_r. Qed.

Lemma quiet_throw {L A} P e : quiet (L := L) (A := A) P (throw e).
Proof. intros st. repeat split. exists []. by rewrite app_nil_r. Qed.

Lemma quiet_exit {L A} P code : quiet (L := L) (A := A) P (exit code).
Proof. intros st. repeat split. exists []. by rewrite app_nil_r. Qed.

Lemma quiet_emit {L} (P : event -> Prop) e : P e -> quiet (L := L) P (emit e).
Proof. intros He st. repeat split. exists [e]. split; [done|by constructor]. Qed.

Lemma quiet_update_locals {L} P (g : L -> L) : quiet P (update_locals g).
Proof. intros st. repeat split. exists []. simpl. by rewrite app_nil_r. Qed.

Lemma quiet_read_db {L} P : quiet (L := L) P read_db.
Proof. intros st. repeat split. exists []. simpl. by rewrite app_nil_r. Qed.

Lemma quiet_bind {L A B} P (m : prog L A) (k : A -> prog L B) :
  quiet P m -> (forall a, quiet P (k a)) -> quiet P (m ≫= k).
Proof.
  intros Hm Hk st. unfold mbind, prog_bind, bind.
  specialize (Hm st). destruct (m st) as [[a|e|code] st1]; simpl in Hm;
    [|done..].
  destruct Hm as (Hdb & Hclock & calls1 & Hlog & Hcalls).
  destruct (Hk a st1) as (Hdb' & Hclock' & calls2 & Hlog' & Hcalls').
  split; [congruence|]. split; [congruence|].
  exists (calls1 ++ calls2). rewrite Hlog', Hlog, app_assoc.
  split; [done|by apply Forall_app].
Qed.

Lemma quiet_try_catch {L A} P (m : prog L A) handler :
  quiet P m -> (forall e, quiet P (handler e)) -> quiet P (try_catch m handler).
Proof.
  intros Hm Hh st. unfold try_catch.
  specialize (Hm st). destruct (m st) as [[a|e|code] st1]; simpl in Hm;
    [done| |done].
  destruct Hm as (Hdb & Hclock & calls1 & Hlog & Hcalls).
  destruct (Hh e st1) as (Hdb' & Hclock' & calls2 & Hlog' & Hcalls').
  split; [congruence|]. split; [congruence|].
  exists (calls1 ++ calls2). rewrite Hlog', Hlog, app_assoc.
  split; [done|by apply Forall_app].
Qed.

Lemma quiet_for_each {L A X} P (xs : list X) (body : A -> X -> prog L A) :
  (forall acc x, quiet P (body acc x)) ->
  forall acc, quiet P (for_each xs body acc).
Proof.
  intros Hbody. induction xs as [|x xs IH]; intros acc; cbn [for_each].
  - apply (quiet_ret P acc).
  - apply quiet_bind; [apply Hbody|apply IH].
Qed.

Lemma quiet_logged {L A} (P : event -> Prop) (m : prog L A) :
  (forall st, exists o calls, m st = (o, logged st calls) /\ Forall P calls) ->
  quiet P m.
Proof.
  intros H st. destruct (H st) as (o & calls & -> & Hcalls).
  repeat split. by exists calls.
Qed.

Lemma quiet_weaken {L A} (P Q : event -> Prop) (m : prog L A) :
  (forall e, P e -> Q e) -> quiet P m -> quiet Q m.
Proof.
  intros HPQ Hm st. destruct (Hm st) as (Hdb & Hclock & calls & Hlog & Hcalls).
  repeat split; [done..|]. exists calls. split; [done|].
  by apply (Forall_impl _ _ _ Hcalls).
Qed.

Lemma quiet_searchHubSpotCompany {L} svc f :
  quiet (L := L) MatcherSpec.is_search (Matcher.searchHubSpotCompany svc f).
Proof.
  apply quiet_logged. intros st.
  destruct (MatcherSpecFacts.searchHubSpotCompany_spec svc f)
    as (r & calls & Hrun & _ & _ & _ & Hcalls).
  exists (Return r), calls. by rewrite Hrun.
Qed.

Lemma quiet_rpc_read {L A} (P : event -> Prop) svc fn
    (query : Storage.table -> A) :
  P (RpcBacklog fn) -> quiet (L := L) P (Rpc.rpc_read svc fn query).
Proof.
  intros HP. unfold Rpc.rpc_read. apply quiet_bind; [by apply quiet_emit|].
  intros _. destruct (rpc_rejects svc _); [apply quiet_throw|].
  apply quiet_bind; [apply quiet_read_db|]. intros rows. apply quiet_ret.
Qed.

Lemma quiet_fetch_json {L Body} (P : event -> Prop) e
    (answer : fetch_result Body) :
  P e -> quiet (L := L) P (Geocoder.fetch_json e answer).
Proof.
  intros HP. unfold Geocoder.fetch_json.
  apply quiet_bind; [by apply quiet_emit|]. intros _.
  destruct answer as [| |[data|]];
    [apply quiet_throw|apply quiet_ret|apply quiet_ret|apply quiet_throw].
Qed.

Lemma quiet_geocodeKartverket {L} svc f :
  quiet (L := L) is_kartverket (Geocoder.geocodeKartverket svc f).
Proof.
  unfold Geocoder.geocodeKartverket.
  apply quiet_try_catch; [|intros; apply quiet_ret].
  apply quiet_bind; [by apply quiet_fetch_json|].
  intros [data|]; [|apply quiet_ret].
  destruct (adresser data) as [[|best rest]|]; try apply quiet_ret;
    (apply quiet_bind; [by apply quiet_fetch_json|]);
    intros [data2|]; try apply quiet_ret;
    destruct (adresser data2) as [[|best2 rest2]|]; apply quiet_ret.
Qed.

Lemma quiet_geocodeHere {L} env svc f :
  quiet (L := L) is_here (Geocoder.geocodeHere env svc f).
Proof.
  unfold Geocoder.geocodeHere.
  destruct (HERE_API_KEY env) as [[|c key]|]; try apply quiet_ret.
  apply quiet_try_catch; [|intros; apply quiet_ret].
  apply quiet_bind; [by apply quiet_fetch_json|].
  intros [data|]; [|apply quiet_ret].
  destruct (items data) as [[|best rest]|]; apply quiet_ret.
Qed.

End FrameFacts.

Module DryRun.
Import JS Effects Frame FrameFacts.

(** X10. A dry run of the matching stage writes nothing: whatever the
    services answer and however the run ends, the table is as before and no
    call to an updating stored procedure is made. *)
Theorem sync_dry_run_writes_nothing (env : environment) (svc : services)
    (opts : Sync.options) (st : state Sync.stats) :
  Sync.dryRun opts = true ->
  let st' := snd (Sync.syncHubSpotAddresses env svc opts st) in
  db st' = db st
  /\ exists calls, log st' = log st ++ calls /\ Forall is_read calls.
Proof.
  intros Hdry.
  assert (Hone : forall acc f, quiet is_read (Sync.sync_one svc true acc f)).
  { intros acc f. unfold Sync.sync_one.
    apply quiet_bind; [apply quiet_update_locals|]. intros _.
    apply quiet_try_catch; [|intros; apply quiet_update_locals].
    apply quiet_bind.
    { apply (quiet_weaken MatcherSpec.is_search);
        [by intros []|apply quiet_searchHubSpotCompany]. }
    intros result. apply quiet_bind; [apply quiet_update_locals|]. intros _.
    destruct (Matcher.company result); [|apply quiet_ret].
    apply quiet_bind; [apply quiet_update_locals|]. intros _.
    apply quiet_ret. }
  assert (Hrun : quiet is_read (Sync.syncHubSpotAddresses env svc opts)).
  { unfold Sync.syncHubSpotAddresses. rewrite Hdry.
    destruct (_ || _); [apply quiet_exit|].
    apply quiet_bind; [by apply quiet_rpc_read|]. intros facilities.
    destruct (length facilities =? 0); [apply quiet_ret|].
    apply quiet_bind; [apply quiet_update_locals|]. intros _.
    apply quiet_for_each. intros acc i. apply quiet_for_each. apply Hone. }
  destruct (Hrun st) as (Hdb & _ & Hlog). by split.
Qed.

(** An instance: a dry run on a facility that has a match. *)
Lemma sync_dry_run_writes_nothing_witness :
  let rows := [Examples.new_row "f1" "Alfa" "Norway" None] in
  let run := Sync.syncHubSpotAddresses Examples.all_credentials
               Examples.rejecting_f1
               {| Sync.dryRun := true; Sync.limit := None;
                  Sync.country := None; Sync.verbose := false |}
               (Examples.start rows Sync.no_stats) in
  Sync.matched (locals (snd run)) = 1 /\ db (snd run) = rows.
Proof.
  split; [reflexivity|].
  apply (sync_dry_run_writes_nothing Examples.all_credentials
           Examples.rejecting_f1
           {| Sync.dryRun := true; Sync.limit := None;
              Sync.country := None; Sync.verbose := false |}
           (Examples.start [Examples.new_row "f1" "Alfa" "Norway" None]
              Sync.no_stats)).
  reflexivity.
Defined.

(** X11. A dry run of the geocoding stage writes nothing: the table is as
    before and no call to an updating stored procedure is made. *)
Theorem geocoding_dry_run_writes_nothing (env : environment) (svc : services)
    (opts : Geocoder.options) (st : state Geocoder.counters) :
  Geocoder.dryRun opts = true ->
  let st' := snd (Geocoder.main env svc opts st) in
  db st' = db st
  /\ exists calls, log st' = log st ++ calls /\ Forall is_read calls.
Proof.
  intros Hdry.
  assert (Hone : forall acc f,
            quiet is_read (Geocoder.geocode_one env svc true acc f)).
  { intros acc f. unfold Geocoder.geocode_one.
    apply quiet_bind.
    { unfold Geocoder.geocodeFacility. destruct (eqb _ _).
      - apply (quiet_weaken is_kartverket);
          [by intros []|apply quiet_geocodeKartverket].
      - apply (quiet_weaken is_here);
          [by intros []|apply quiet_geocodeHere]. }
    intros [r|]; (apply quiet_bind; [apply quiet_ret|]); intros _;
      apply quiet_update_locals. }
  assert (Hrun : quiet is_read (Geocoder.main env svc opts)).
  { unfold Geocoder.main. rewrite Hdry.
    apply quiet_bind; [by apply quiet_rpc_read|]. intros facilities.
    destruct (length facilities =? 0); [apply quiet_ret|].
    apply quiet_bind; [apply quiet_update_locals|]. intros _.
    apply quiet_for_each. apply Hone. }
  destruct (Hrun st) as (Hdb & _ & Hlog). by split.
Qed.

(** An instance: a dry run on an address the registry knows. *)
Lemma geocoding_dry_run_writes_nothing_witness :
  let rows := [Examples.norwegian_row "f2" "Kongens" "Kongens gate 1" "0150"] in
  let run := Geocoder.main Examples.all_credentials Examples.registry
               {| Geocoder.countryFilter := None; Geocoder.limit := 100;
                  Geocoder.dryRun := true |}
               (Examples.start rows
                  {| Geocoder.success := 0; Geocoder.failed := 0 |}) in
  Geocoder.success (locals (snd run)) = 1 /\ db (snd run) = rows.
Proof.
  split; [reflexivity|].
  apply (geocoding_dry_run_writes_nothing Examples.all_credentials
           Examples.registry
           {| Geocoder.countryFilter := None; Geocoder.limit := 100;
              Geocoder.dryRun := true |}
           (Examples.start
              [Examples.norwegian_row "f2" "Kongens" "Kongens gate 1" "0150"]
              {| Geocoder.success := 0; Geocoder.failed := 0 |})).
  reflexivity.
Defined.

End DryRun.

Module Router.
Import JS Effects Frame FrameFacts.

(** X12. Dispatch of the router. A facility of Norway is sent to the national
    registry only, a facility of any other country to the commercial service
    only; in both cases the router returns, with or without a result, and
    leaves the table alone. *)
Theorem geocodeFacility_dispatch {L} (env : environment) (svc : services)
    (f : Geocoder.FacilityToGeocode) (st : state L) :
  let run := Geocoder.geocodeFacility env svc f st in
  (exists result, fst run = Return result)
  /\ db (snd run) = db st
  /\ exists calls,
       log (snd run) = log st ++ calls
       /\ Forall (if eqb (Geocoder.country f) (lit "Norway")
                  then is_kartverket else is_here) calls.
Proof.
  cbv zeta. split.
  - destruct (GeocoderFacts.geocodeFacility_returns env svc f)
      as (result & calls & Hrun).
    exists result. by rewrite Hrun.
  - unfold Geocoder.geocodeFacility.
    destruct (eqb (Geocoder.country f) (lit "Norway")).
    + destruct (quiet_geocodeKartverket svc f st) as (Hdb & _ & Hlog).
      by split.
    + destruct (quiet_geocodeHere env svc f st) as (Hdb & _ & Hlog).
      by split.
Qed.

End Router.


Module RouterMore.
Import JS Effects Geocoder GeocoderSpec.

(** X13. Commercial-service path with a configured key: exactly one request
    is sent, with the query built from the non-empty address fields; the
    first item returned is taken, with the relevance score of the service as
    confidence, or 0.7 when the score is missing or zero; no item, an error
    status, a network failure or an unreadable answer give no result. *)
Theorem geocodeHere_result {L} (env : environment) (svc : services)
    (f : FacilityToGeocode) (st : state L) (c : N) (key : list N) :
  HERE_API_KEY env = Some (c :: key) ->
  geocodeHere env svc f st
  = (Return match here_items svc (here_query f) with
            | Some (best :: _) => Some (here_hit best)
            | _ => None
            end,
     logged st [HereFetch (here_query f) (c :: key)]).
Proof.
  intros Hkey. unfold geocodeHere, here_items. rewrite Hkey.
  fold (here_query f).
  unfold try_catch, fetch_json.
  unfold mbind, mret, prog_bind, prog_ret, bind, ret, emit, throw.
  destruct (here_answer svc (here_query f)) as [| |[[[[|best rest]|]]|]];
    reflexivity.
Qed.

(** An instance: a Swedish facility, and a service that finds nothing. *)
Lemma geocodeHere_result_witness :
  let f := Examples.to_geocode "f3" "Ekgatan 3" "11122" "Stockholm" "Sweden" in
  here_query f = lit "Ekgatan 3, 11122, Stockholm, Sweden"
  /\ geocodeHere Examples.all_credentials Examples.nothing_found f
       (Examples.start [] tt)
     = (Return None,
        logged (Examples.start [] tt)
          [HereFetch (lit "Ekgatan 3, 11122, Stockholm, Sweden")
             (lit "here-1")]).
Proof.
  split; [reflexivity|].
  exact (geocodeHere_result Examples.all_credentials Examples.nothing_found
           (Examples.to_geocode "f3" "Ekgatan 3" "11122" "Stockholm" "Sweden")
           (Examples.start [] tt) 104%N (lit "ere-1") eq_refl).
Defined.

(** X14. National-registry path, when the first request fails (network
    failure, error status, unreadable answer): there is no result, and the
    fallback request with the city is not sent. *)
Theorem geocodeKartverket_first_request_fails {L} (svc : services)
    (f : FacilityToGeocode) (st : state L) :
  candidates svc (primary_query f) = None ->
  geocodeKartverket svc f st
  = (Return None, logged st [KartverketFetch (primary_query f)]).
Proof.
  unfold candidates, geocodeKartverket, try_catch, fetch_json.
  unfold mbind, mret, prog_bind, prog_ret, bind, ret, emit, throw.
  destruct (kartverket_answer svc (primary_query f)) as [| |[data|]];
    [reflexivity..|done|reflexivity].
Qed.

(** An instance: the registry cannot be reached. *)
Lemma geocodeKartverket_first_request_fails_witness :
  let f := Examples.to_geocode "f2" "Kongens gate 1" "0150" "Oslo" "Norway" in
  geocodeKartverket Examples2.crm_down f (Examples.start [] tt)
  = (Return None,
     logged (Examples.start [] tt)
       [KartverketFetch (lit "Kongens gate 1 0150")]).
Proof.
  exact (geocodeKartverket_first_request_fails Examples2.crm_down
           (Examples.to_geocode "f2" "Kongens gate 1" "0150" "Oslo" "Norway")
           (Examples.start [] tt) eq_refl).
Defined.

End RouterMore.


(** * The stored procedures *)

Module BacklogFacts.
Import JS Storage StorageSpec.

Lemma insert_sorted_perm leb r rows : insert_sorted leb r rows ≡ₚ r :: rows.
Proof.
  induction rows as [|r' rows IH]; [done|]. simpl.
  destruct (leb r r'); [done|]. rewrite IH. apply Permutation_swap.
Qed.

Lemma order_by_perm leb rows : order_by leb rows ≡ₚ rows.
Proof.
  unfold order_by. induction rows as [|r rows IH]; [done|]. simpl.
  by rewrite insert_sorted_perm, IH.
Qed.

Lemma filter_sublist (P : facility_row -> bool) rows :
  List.filter P rows `sublist_of` rows.
Proof.
  induction rows as [|r rows IH]; [done|]. simpl.
  destruct (P r); by constructor.
Qed.

Lemma text_leb_total a : forall b, text_leb a b = true \/ text_leb b a = true.
Proof.
  induction a as [|x a IH]; intros [|y b]; simpl; auto.
  destruct (N.ltb_spec x y), (N.ltb_spec y x); simpl; auto; try lia.
  assert (x = y) as -> by lia. rewrite N.eqb_refl. simpl. apply IH.
Qed.

Lemma by_country_then_name_total a b :
  by_country_then_name a b = true \/ by_country_then_name b a = true.
Proof.
  unfold by_country_then_name, eqb.
  destruct (decide (country a = country b)) as [E|E].
  - rewrite !bool_decide_eq_true_2 by done. apply text_leb_total.
  - rewrite !bool_decide_eq_false_2 by congruence. apply text_leb_total.
Qed.

Lemma text_leb_trans a : forall b c,
  text_leb a b = true -> text_leb b c = true -> text_leb a c = true.
Proof.
  induction a as [|x a IH]; intros [|y b] [|z c]; simpl; try done.
  destruct (N.ltb_spec x y), (N.ltb_spec y z), (N.ltb_spec x z),
    (N.eqb_spec x y), (N.eqb_spec y z), (N.eqb_spec x z);
    simpl; try done; try lia.
  apply IH.
Qed.

Lemma text_leb_antisym a : forall b,
  text_leb a b = true -> text_leb b a = true -> a = b.
Proof.
  induction a as [|x a IH]; intros [|y b]; simpl; try done.
  destruct (N.ltb_spec x y), (N.ltb_spec y x),
    (N.eqb_spec x y), (N.eqb_spec y x); simpl; try done; try lia.
  intros H1 H2. subst. f_equal. by apply IH.
Qed.

Lemma by_country_then_name_trans a b c :
  by_country_then_name a b = true -> by_country_then_name b c = true ->
  by_country_then_name a c = true.
Proof.
  unfold by_country_then_name, eqb.
  repeat case_bool_decide; try congruence.
  - apply text_leb_trans.
  - intros Hab Hbc. exfalso.
    assert (country b = country c); [|done].
    apply text_leb_antisym; congruence.
  - apply text_leb_trans.
Qed.

Section Order.
Variable leb : facility_row -> facility_row -> bool.
Hypothesis leb_total : forall a b, leb a b = true \/ leb b a = true.
Hypothesis leb_trans :
  forall a b c, leb a b = true -> leb b c = true -> leb a c = true.

Lemma insert_sorted_sorted r rows :
  Sorted (fun a b => leb a b = true) rows ->
  Sorted (fun a b => leb a b = true) (insert_sorted leb r rows).
Proof.
  induction 1 as [|r' rows Hs IH Hd]; simpl.
  - repeat constructor.
  - destruct (leb r r') eqn:E.
    + constructor; [by constructor|by constructor].
    + constructor; [exact IH|].
      assert (leb r' r = true) by (destruct (leb_total r r'); congruence).
      destruct Hd as [|r'' rows' Hd]; simpl; [by constructor|].
      destruct (leb r r''); by constructor.
Qed.

Lemma order_by_sorted rows :
  Sorted (fun a b => leb a b = true) (order_by leb rows).
Proof.
  unfold order_by. induction rows as [|r rows IH]; simpl.
  - constructor.
  - by apply insert_sorted_sorted.
Qed.

Lemma sorted_take n : forall rows,
  Sorted (fun a b => leb a b = true) rows ->
  Sorted (fun a b => leb a b = true) (take n rows).
Proof.
  induction n as [|n IH]; intros rows Hs.
  - rewrite take_0. constructor.
  - destruct Hs as [|r rows Hs Hd]; simpl; [constructor|].
    constructor; [by apply IH|].
    destruct Hd as [|r' rows' Hd]; [rewrite take_nil; constructor|].
    destruct n; simpl; by constructor.
Qed.

(** What the two backlog queries have in common. *)
Lemma query_rows (P : facility_row -> bool) db n :
  let rows := take n (order_by leb (List.filter P db)) in
  length rows <= n
  /\ rows ⊆+ db
  /\ Forall (fun r => P r = true) rows
  /\ in_order leb rows.
Proof.
  intros rows. split; [|split; [|split]].
  - subst rows. rewrite length_take. lia.
  - subst rows. etrans; [apply sublist_submseteq, sublist_take|].
    rewrite order_by_perm. apply sublist_submseteq, filter_sublist.
  - apply Forall_forall. intros r Hr. subst rows.
    apply elem_of_take in Hr as (i & Hr & _).
    apply list_elem_of_lookup_2 in Hr. rewrite order_by_perm in Hr.
    apply list_elem_of_In, filter_In in Hr. tauto.
  - subst rows. apply Sorted_StronglySorted.
    + intros a b c. apply leb_trans.
    + apply sorted_take, order_by_sorted.
Qed.
End Order.

Lemma query_complete (P : facility_row -> bool) leb db n :
  count_where P db <= n ->
  take n (order_by leb (List.filter P db)) ≡ₚ List.filter P db.
Proof.
  unfold count_where. intros Hn. rewrite take_ge; [apply order_by_perm|].
  by rewrite order_by_perm.
Qed.

End BacklogFacts.

(** X15. The geocoding backlog query returns at most [p_limit] rows, each a
    row of the table (none more often than the table has it) that has an
    address, has no latitude and is of the requested country when one is
    given; the rows come ordered by country, then name: each row is before
    every later one in that order. *)
Theorem geocoding_backlog_rows (db : Storage.table)
    (p_country : option JS.jsstring) (p_limit : nat) :
  let rows := Storage.asset_map_get_facilities_for_geocoding
                db p_country p_limit in
  length rows <= p_limit
  /\ rows ⊆+ db
  /\ Forall (fun r => Storage.address r <> None
                      /\ Storage.latitude r = None
                      /\ forall c, p_country = Some c -> Storage.country r = c)
       rows
  /\ StorageSpec.in_order Storage.by_country_then_name rows.
Proof.
  destruct (BacklogFacts.query_rows Storage.by_country_then_name
              BacklogFacts.by_country_then_name_total
              BacklogFacts.by_country_then_name_trans
              (Storage.needs_geocoding p_country) db p_limit)
    as (Hlen & Hsub & Hwhere & Hord).
  cbv zeta. unfold Storage.asset_map_get_facilities_for_geocoding.
  repeat split; try done.
  eapply Forall_impl; [exact Hwhere|]. intros r. cbv beta.
  unfold Storage.needs_geocoding, Storage.country_matches, JS.eqb.
  destruct (Storage.address r), (Storage.latitude r); simpl; try done.
  intros Hc. repeat split; [done|]. intros c ->.
  by apply bool_decide_eq_true in Hc.
Qed.

(** X16. The matching backlog query returns at most [p_limit] rows, each a
    row of the table that has neither an address nor a CRM reference and is
    of the requested country when one is given; the rows come ordered by
    name. *)
Theorem sync_backlog_rows (db : Storage.table) (p_limit : nat)
    (p_country : option JS.jsstring) :
  let rows := Storage.asset_map_get_facilities_for_sync
                db p_limit p_country in
  length rows <= p_limit
  /\ rows ⊆+ db
  /\ Forall (fun r => Storage.address r = None
                      /\ Storage.hubspot_id r = None
                      /\ forall c, p_country = Some c -> Storage.country r = c)
       rows
  /\ StorageSpec.in_order
       (fun a b => Storage.text_leb (Storage.name a) (Storage.name b)) rows.
Proof.
  destruct (BacklogFacts.query_rows
              (fun a b => Storage.text_leb (Storage.name a) (Storage.name b))
              (fun a b => BacklogFacts.text_leb_total _ _)
              (fun a b c => BacklogFacts.text_leb_trans _ _ _)
              (Storage.needs_sync p_country) db p_limit)
    as (Hlen & Hsub & Hwhere & Hord).
  cbv zeta. unfold Storage.asset_map_get_facilities_for_sync.
  repeat split; try done.
  eapply Forall_impl; [exact Hwhere|]. intros r. cbv beta.
  unfold Storage.needs_sync, Storage.country_matches, JS.eqb.
  destruct (Storage.address r), (Storage.hubspot_id r); simpl; try done.
  intros Hc. repeat split. intros c ->.
  by apply bool_decide_eq_true in Hc.
Qed.

(** X17. With a limit of at least the number of rows that wait for
    geocoding, as the statistics procedure counts them, the geocoding backlog
    query without a country returns all of them: the rows of the table that
    have an address and no latitude, each as often as the table has it. *)
Theorem geocoding_backlog_complete (db : Storage.table) (p_limit : nat) :
  StorageSpec.needs_geocoding (StorageSpec.asset_map_get_geocode_stats db)
    <= p_limit ->
  Storage.asset_map_get_facilities_for_geocoding db None p_limit
  ≡ₚ List.filter (fun f => negb (Storage.is_null (Storage.address f))
                           && Storage.is_null (Storage.latitude f)) db.
Proof.
  intros Hn. unfold Storage.asset_map_get_facilities_for_geocoding.
  assert (E : forall rows,
            List.filter (Storage.needs_geocoding None) rows
            = List.filter (fun f => negb (Storage.is_null (Storage.address f))
                                    && Storage.is_null (Storage.latitude f))
                rows).
  { intros rows. apply filter_ext. intros r.
    unfold Storage.needs_geocoding. simpl. apply andb_true_r. }
  rewrite E. by apply BacklogFacts.query_complete.
Qed.

(** An instance: one of two rows waits for geocoding. *)
Lemma geocoding_backlog_complete_witness :
  let db := [Examples.oslo_row;
             Examples.norwegian_row "f2" "Bravo" "Kongens gate 2" "0150"] in
  Storage.asset_map_get_facilities_for_geocoding db None 1
  ≡ₚ List.filter (fun f => negb (Storage.is_null (Storage.address f))
                           && Storage.is_null (Storage.latitude f)) db.
Proof.
  apply (geocoding_backlog_complete
           [Examples.oslo_row;
            Examples.norwegian_row "f2" "Bravo" "Kongens gate 2" "0150"] 1).
  vm_compute. lia.
Defined.


Module CountFacts.
Import JS Storage StorageSpec.

Lemma count_where_cons P r db :
  count_where P (r :: db) = Nat.b2n (P r) + count_where P db.
Proof. unfold count_where. simpl. by destruct (P r). Qed.

Lemma count_where_le P db : count_where P db <= length db.
Proof.
  induction db as [|r db IH]; [done|].
  rewrite count_where_cons. simpl. destruct (P r); simpl; lia.
Qed.

(** A row counts for at most one country. *)
Lemma one_country r :
  Nat.b2n (needs_in "Norway" r) + Nat.b2n (needs_in "Sweden" r)
  + Nat.b2n (needs_in "Denmark" r)
  <= Nat.b2n (negb (is_null (address r)) && is_null (latitude r)).
Proof.
  unfold needs_in, eqb.
  destruct (negb (is_null (address r)) && is_null (latitude r)); simpl;
    [|lia].
  repeat case_bool_decide; simpl; try lia;
    match goal with
    | H1 : country r = _, H2 : country r = _ |- _ =>
        rewrite H1 in H2; vm_compute in H2; discriminate
    end.
Qed.

End CountFacts.

(** X18. The statistics procedure. The geocoded rows and the rows that wait
    for geocoding are different rows of the table, and so are the rows
    without an address and those that wait; the counts of the three
    countries together do not exceed the count of waiting rows, which is
    the size of the geocoding backlog when no limit cuts it. *)
Theorem geocode_stats_consistent (db : Storage.table) :
  let s := StorageSpec.asset_map_get_geocode_stats db in
  StorageSpec.geocoded s + StorageSpec.needs_geocoding s
    <= StorageSpec.total_facilities s
  /\ StorageSpec.needs_geocoding s + StorageSpec.no_address s
       <= StorageSpec.total_facilities s
  /\ StorageSpec.norway_needs s + StorageSpec.sweden_needs s
     + StorageSpec.denmark_needs s <= StorageSpec.needs_geocoding s
  /\ StorageSpec.needs_geocoding s
     = length (Storage.asset_map_get_facilities_for_geocoding
                 db None (length db))
  /\ StorageSpec.norway_needs s
     = length (Storage.asset_map_get_facilities_for_geocoding
                 db (Some (JS.lit "Norway")) (length db)).
Proof.
  cbv zeta. unfold StorageSpec.asset_map_get_geocode_stats.
  cbn [StorageSpec.geocoded StorageSpec.needs_geocoding
       StorageSpec.total_facilities StorageSpec.no_address
       StorageSpec.norway_needs StorageSpec.sweden_needs
       StorageSpec.denmark_needs].
  split; [|split; [|split; [|split]]].
  - induction db as [|r db IH]; [done|].
    rewrite !CountFacts.count_where_cons. simpl.
    destruct (Storage.address r), (Storage.latitude r); simpl; lia.
  - induction db as [|r db IH]; [done|].
    rewrite !CountFacts.count_where_cons. simpl.
    destruct (Storage.address r), (Storage.latitude r); simpl; lia.
  - induction db as [|r db IH]; [done|].
    rewrite !CountFacts.count_where_cons.
    pose proof (CountFacts.one_country r). lia.
  - unfold Storage.asset_map_get_facilities_for_geocoding.
    rewrite BacklogFacts.query_complete
      by apply CountFacts.count_where_le.
    unfold StorageSpec.count_where. f_equal. apply filter_ext. intros r.
    unfold Storage.needs_geocoding. simpl. by rewrite andb_true_r.
  - unfold Storage.asset_map_get_facilities_for_geocoding.
    rewrite BacklogFacts.query_complete
      by apply CountFacts.count_where_le.
    reflexivity.
Qed.

Module UpdateFacts.
Import JS Effects Storage StorageSpec.

(** Every row of a backlog is a row of the table that the query selects. *)
Lemma in_geocoding_backlog r db p n :
  r ∈ asset_map_get_facilities_for_geocoding db p n ->
  r ∈ db /\ Storage.needs_geocoding p r = true.
Proof.
  unfold asset_map_get_facilities_for_geocoding. intros Hr.
  apply elem_of_take in Hr as (i & Hr & _).
  apply list_elem_of_lookup_2 in Hr. rewrite BacklogFacts.order_by_perm in Hr.
  apply list_elem_of_In, filter_In in Hr as [Hr HP].
  by apply list_elem_of_In in Hr.
Qed.

Lemma in_sync_backlog r db n p :
  r ∈ asset_map_get_facilities_for_sync db n p ->
  r ∈ db /\ needs_sync p r = true.
Proof.
  unfold asset_map_get_facilities_for_sync. intros Hr.
  apply elem_of_take in Hr as (i & Hr & _).
  apply list_elem_of_lookup_2 in Hr. rewrite BacklogFacts.order_by_perm in Hr.
  apply list_elem_of_In, filter_In in Hr as [Hr HP].
  by apply list_elem_of_In in Hr.
Qed.

(** With a limit as large as the table, a row the query selects is in the
    backlog. *)
Lemma geocoding_backlog_has r db p :
  r ∈ db -> Storage.needs_geocoding p r = true ->
  r ∈ asset_map_get_facilities_for_geocoding db p (length db).
Proof.
  intros Hr HP. unfold asset_map_get_facilities_for_geocoding.
  rewrite BacklogFacts.query_complete by apply CountFacts.count_where_le.
  apply list_elem_of_In, filter_In. by rewrite <- list_elem_of_In.
Qed.

Lemma rpc_write_accepted {L} svc fn fid statement (st : state L) :
  rpc_rejects svc (RpcUpdate fn fid) = false ->
  Rpc.rpc_write svc fn fid statement st
  = write_db statement (logged st [RpcUpdate fn fid]).
Proof.
  intros Hok. unfold Rpc.rpc_write.
  unfold mbind, prog_bind, bind, emit. by rewrite Hok.
Qed.

(** X19. A result that is stored. For a result whose coordinates and
    confidence the columns hold as they are ([DECIMAL(10, 8)],
    [DECIMAL(11, 8)] and [DECIMAL(3, 2)]), when the endpoint accepts the
    call: the rows of the facility get the coordinates and the confidence of
    the result and the status "success"; every other column but the time
    stamp, and every other row, stay as they were; the facility is in no
    geocoding backlog any more; and every row of it is on the map, with its
    columns, at [[longitude, latitude]]. *)
Theorem updateFacilityGeocode_stores_result {L} (svc : services)
    (facilityId : jsstring) (result : Geocoder.GeocodeResult) (st : state L) :
  fits_decimal 10 8 (Geocoder.latitude result) = true ->
  fits_decimal 11 8 (Geocoder.longitude result) = true ->
  fits_decimal 3 2 (Geocoder.confidence result) = true ->
  rpc_rejects svc
    (RpcUpdate (lit "asset_map_update_facility_geocode") facilityId) = false ->
  let run := Geocoder.updateFacilityGeocode svc facilityId result st in
  fst run = Return tt
  /\ Forall2 (marked_success facilityId (Geocoder.latitude result)
                (Geocoder.longitude result) (Geocoder.confidence result))
       (db st) (db (snd run))
  /\ (forall p n,
        facilityId
        ∉ map id (asset_map_get_facilities_for_geocoding (db (snd run)) p n))
  /\ (forall r, r ∈ db st -> id r = facilityId ->
        {| GeoJSON.properties :=
             {| GeoJSON.p_id := facilityId;
                GeoJSON.p_name := name r;
                GeoJSON.p_country := country r;
                GeoJSON.p_city := city r;
                GeoJSON.p_address := address r;
                GeoJSON.p_postal_code := postal_code r;
                GeoJSON.p_charger_count := charger_count r |};
           GeoJSON.coordinates := (Some (Geocoder.longitude result),
                                   Some (Geocoder.latitude result)) |}
        ∈ GeoJSON.facilitiesToGeoJSON (db (snd run))).
Proof.
  intros _ _ _ Hok. cbv zeta. unfold Geocoder.updateFacilityGeocode.
  rewrite (rpc_write_accepted _ _ _ _ _ Hok). unfold write_db.
  cbn [fst snd db clock log locals logged].
  unfold asset_map_update_facility_geocode.
  set (g := fun f : facility_row => if eqb (id f) facilityId then _ else f).
  assert (Hg : forall r, eqb (id r) facilityId = true ->
                 latitude (g r) = Some (Geocoder.latitude result)
                 /\ longitude (g r) = Some (Geocoder.longitude result)
                 /\ id (g r) = id r /\ name (g r) = name r
                 /\ country (g r) = country r /\ city (g r) = city r
                 /\ address (g r) = address r
                 /\ postal_code (g r) = postal_code r
                 /\ charger_count (g r) = charger_count r).
  { intros r E. subst g. cbv beta. by rewrite E. }
  assert (Hid : forall r, id (g r) = id r).
  { intros r. subst g. cbv beta. by destruct (eqb (id r) facilityId). }
  split; [done|]. split; [|split].
  - apply StorageFacts.Forall2_map_same. intros r. unfold marked_success.
    subst g. cbv beta. destruct (eqb (id r) facilityId); [by repeat split|done].
  - intros p n Hin. apply list_elem_of_fmap in Hin as (r' & Hr' & Hin).
    apply in_geocoding_backlog in Hin as [Hin HP].
    apply list_elem_of_fmap in Hin as (r & -> & Hin).
    rewrite Hid in Hr'.
    destruct (Hg r) as (Hlat & _).
    { unfold eqb. by apply bool_decide_eq_true. }
    unfold Storage.needs_geocoding in HP. rewrite Hlat in HP. simpl in HP.
    by rewrite andb_false_r in HP.
  - intros r Hr Hfid.
    destruct (Hg r) as (Hlat & Hlon & Hid' & Hname & Hcountry & Hcity
                        & Haddress & Hpostal & Hcount).
    { unfold eqb. by apply bool_decide_eq_true. }
    unfold GeoJSON.facilitiesToGeoJSON. apply list_elem_of_fmap.
    exists (g r). split.
    + rewrite Hlat, Hlon, Hid', Hname, Hcountry, Hcity, Haddress, Hpostal,
        Hcount. by rewrite Hfid.
    + apply list_elem_of_In, filter_In. split.
      * apply list_elem_of_In, list_elem_of_fmap. by exists r.
      * by rewrite Hlat, Hlon.
Qed.

(** An instance: the coordinates of Kongens gate 1 for facility f2. *)
Lemma updateFacilityGeocode_stores_result_witness :
  let row := Examples.norwegian_row "f2" "Kongens" "Kongens gate 1" "0150" in
  let result := {| Geocoder.latitude := 599087 # 10000;
                   Geocoder.longitude := 107416 # 10000;
                   Geocoder.confidence := 95 # 100;
                   Geocoder.provider := lit "kartverket" |} in
  let run := Geocoder.updateFacilityGeocode Examples.registry (lit "f2")
               result (Examples.start [row] tt) in
  asset_map_get_facilities_for_geocoding [row] None 100 = [row]
  /\ lit "f2"
     ∉ map id (asset_map_get_facilities_for_geocoding (db (snd run)) None 100).
Proof.
  split; [reflexivity|].
  apply (updateFacilityGeocode_stores_result Examples.registry (lit "f2")
           {| Geocoder.latitude := 599087 # 10000;
              Geocoder.longitude := 107416 # 10000;
              Geocoder.confidence := 95 # 100;
              Geocoder.provider := lit "kartverket" |}
           (Examples.start
              [Examples.norwegian_row "f2" "Kongens" "Kongens gate 1" "0150"]
              tt));
    reflexivity.
Defined.

(** X20. From the matching stage to the geocoding stage: when the update of
    a facility from a CRM company succeeds, the facility is in no matching
    backlog any more; and when the company has an address, as every matched
    company has, each row of the facility without a latitude now waits for
    geocoding, with the address of the company. *)
Theorem updateFacility_hands_over {L} (svc : services) (f : Matcher.Facility)
    (c : HubSpotCompany) (st : state L) :
  fst (Sync.updateFacility svc f c st) = Return tt ->
  let db' := db (snd (Sync.updateFacility svc f c st)) in
  (forall n p,
     Matcher.id f ∉ map id (asset_map_get_facilities_for_sync db' n p))
  /\ (Matcher.has_address c = true ->
      forall r, r ∈ db st -> id r = Matcher.id f -> latitude r = None ->
        exists r',
          r' ∈ asset_map_get_facilities_for_geocoding db' None (length db')
          /\ id r' = Matcher.id f
          /\ name r' = name r
          /\ address r' = prop_address (properties c)).
Proof.
  unfold Sync.updateFacility, Rpc.rpc_write.
  unfold mbind, prog_bind, bind, emit, throw.
  destruct (rpc_rejects svc _); [done|].
  unfold write_db. cbn [db clock log locals logged].
  unfold asset_map_update_facility_from_hubspot.
  destruct (_ && _); [done|].
  cbn [fst snd db]. intros _.
  set (g := fun r : facility_row => if eqb (id r) (Matcher.id f) then _ else r).
  assert (Hid : forall r, id (g r) = id r).
  { intros r. subst g. cbv beta. by destruct (eqb (id r) (Matcher.id f)). }
  split.
  - intros n p Hin. apply list_elem_of_fmap in Hin as (r' & Hr' & Hin).
    apply in_sync_backlog in Hin as [Hin HP].
    apply list_elem_of_fmap in Hin as (r & -> & Hin).
    rewrite Hid in Hr'. unfold needs_sync in HP. subst g. cbv beta in HP.
    assert (E : eqb (id r) (Matcher.id f) = true)
      by (unfold eqb; by apply bool_decide_eq_true).
    rewrite E in HP. cbn [hubspot_id is_null] in HP.
    by rewrite andb_false_r in HP.
  - intros Haddr r Hr Hfid Hlat. exists (g r).
    assert (E : eqb (id r) (Matcher.id f) = true)
      by (unfold eqb; by apply bool_decide_eq_true).
    assert (Hor : Sync.or_null (prop_address (properties c))
                  = prop_address (properties c)).
    { unfold Sync.or_null. unfold Matcher.has_address in Haddr.
      by rewrite Haddr. }
    split; [|split; [by rewrite Hid|split]].
    + rewrite length_map.
      pose proof (geocoding_backlog_has (g r) (map g (db st)) None) as Hin.
      rewrite length_map in Hin. apply Hin.
      * apply list_elem_of_fmap. by exists r.
      * unfold Storage.needs_geocoding. subst g. cbv beta. rewrite E.
        cbn [address latitude country_matches]. rewrite Hor, Hlat.
        unfold Matcher.has_address in Haddr.
        by destruct (prop_address (properties c)) as [[|]|].
    + subst g. cbv beta. by rewrite E.
    + subst g. cbv beta. rewrite E. cbn [address]. exact Hor.
Qed.

(** An instance: facility f1 and a company with an address. *)
Lemma updateFacility_hands_over_witness :
  let row := Examples.new_row "f1" "Alfa" "Norway" None in
  let f := Examples.new_facility "f1" "Alfa" "Norway" in
  let db' := db (snd (Sync.updateFacility Examples.nothing_found f
                        Examples.with_address (Examples.start [row] tt))) in
  map id (asset_map_get_facilities_for_sync [row] 10 None) = [lit "f1"]
  /\ forall n p,
       lit "f1" ∉ map id (asset_map_get_facilities_for_sync db' n p).
Proof.
  split; [reflexivity|].
  apply (updateFacility_hands_over Examples.nothing_found
           (Examples.new_facility "f1" "Alfa" "Norway")
           Examples.with_address
           (Examples.start [Examples.new_row "f1" "Alfa" "Norway" None] tt)).
  reflexivity.
Defined.

(** X21. The two versions of the geocode update. For a result with both
    coordinates, the procedure as first defined and as the later migration
    redefines it change the table in the same way. For a call without
    coordinates, both versions give the rows of the facility the status and
    the confidence of the call and leave every other row as it is, but the
    first version clears the coordinates of the facility where the later
    version keeps the stored ones. *)
Theorem update_geocode_versions (now : nat) (db : table) (fid : jsstring)
    (lat lon : Q) (s : status_value) (conf : option Q) :
  asset_map_update_facility_geocode_first now db fid (Some lat) (Some lon)
    s conf
  = asset_map_update_facility_geocode now db fid (Some lat) (Some lon) s conf
  /\ Forall2 (fun r first =>
                if eqb (id r) fid
                then geocode_status first = s
                     /\ geocode_confidence first = conf
                     /\ latitude first = None /\ longitude first = None
                else first = r)
       db (asset_map_update_facility_geocode_first now db fid None None s conf)
  /\ Forall2 (fun r later =>
                if eqb (id r) fid
                then geocode_status later = s
                     /\ geocode_confidence later = conf
                     /\ latitude later = latitude r
                     /\ longitude later = longitude r
                else later = r)
       db (asset_map_update_facility_geocode now db fid None None s conf).
Proof.
  split; [reflexivity|]. split.
  - apply StorageFacts.Forall2_map_same. intros r.
    by destruct (eqb (id r) fid).
  - apply StorageFacts.Forall2_map_same. intros r.
    by destruct (eqb (id r) fid).
Qed.

End UpdateFacts.

(** X22. The map layer. The features come in the order of the rows, one for
    each row that has a latitude and a longitude and none for any other row;
    the feature of a row carries its id, name, country, city, address, postal
    code and charger count, and its coordinates, longitude first. So every
    feature has both coordinates, there are no more features than the
    statistics procedure counts geocoded rows, and a row of a geocoding
    backlog gives no feature. *)
Theorem facilitiesToGeoJSON_features (rows : Storage.table) :
  let features := GeoJSON.facilitiesToGeoJSON rows in
  let on_map r lon lat :=
    {| GeoJSON.properties :=
         {| GeoJSON.p_id := Storage.id r;
            GeoJSON.p_name := Storage.name r;
            GeoJSON.p_country := Storage.country r;
            GeoJSON.p_city := Storage.city r;
            GeoJSON.p_address := Storage.address r;
            GeoJSON.p_postal_code := Storage.postal_code r;
            GeoJSON.p_charger_count := Storage.charger_count r |};
       GeoJSON.coordinates := (Some lon, Some lat) |} in
  (exists located,
     located `sublist_of` rows
     /\ Forall2 (fun r ft =>
                   exists lon lat,
                     Storage.longitude r = Some lon
                     /\ Storage.latitude r = Some lat
                     /\ ft = on_map r lon lat) located features
     /\ forall r lon lat,
          r ∈ rows -> Storage.longitude r = Some lon ->
          Storage.latitude r = Some lat -> r ∈ located)
  /\ length features
     <= StorageSpec.geocoded (StorageSpec.asset_map_get_geocode_stats rows)
  /\ (forall p n,
        GeoJSON.facilitiesToGeoJSON
          (Storage.asset_map_get_facilities_for_geocoding rows p n) = []).
Proof.
  cbv zeta. unfold GeoJSON.facilitiesToGeoJSON.
  split; [|split].
  - eexists. split; [apply BacklogFacts.filter_sublist|]. split.
    + apply Forall2_fmap_r, Forall_Forall2_diag, Forall_forall.
      intros r Hr. apply list_elem_of_In, filter_In in Hr as [_ Hr].
      unfold compose.
      destruct (Storage.latitude r) as [lat|], (Storage.longitude r) as [lon|];
        try done.
      by exists lon, lat.
    + intros r lon lat Hr Hlon Hlat.
      apply list_elem_of_In, filter_In. split; [by apply list_elem_of_In|].
      by rewrite Hlat, Hlon.
  - rewrite length_map. cbn [StorageSpec.geocoded
                              StorageSpec.asset_map_get_geocode_stats].
    induction rows as [|r rows IH]; [done|].
    rewrite CountFacts.count_where_cons. simpl.
    destruct (Storage.latitude r), (Storage.longitude r); simpl; lia.
  - intros p n.
    match goal with
    | |- map _ ?l = [] => assert (l = []) as ->; [|done]
    end.
    destruct (List.filter _ _) as [|r l] eqn:E; [done|exfalso].
    assert (Hr : In r (r :: l)) by (by left). rewrite <- E in Hr.
    apply filter_In in Hr as [Hr Hc].
    apply list_elem_of_In, UpdateFacts.in_geocoding_backlog in Hr as [_ HP].
    unfold Storage.needs_geocoding in HP.
    destruct (Storage.latitude r); simpl in *; [|done].
    by rewrite andb_false_r in HP.
Qed.

(** * Whole runs *)

Module RunFacts.
Import JS Effects Matcher Sync RunSpec SyncFacts.

Lemma count_processed_fields c s :
  processed (count_processed c s) = S (processed s)
  /\ matched (count_processed c s) = matched s
  /\ updated (count_processed c s) = updated s
  /\ failed (count_processed c s) = failed s
  /\ byMatchType (count_processed c s) = byMatchType s.
Proof. unfold count_processed. by destruct (default _ _). Qed.

Lemma count_matched_fields c s :
  processed (count_matched c s) = processed s
  /\ matched (count_matched c s) = S (matched s)
  /\ updated (count_matched c s) = updated s
  /\ failed (count_matched c s) = failed s
  /\ byMatchType (count_matched c s) = byMatchType s.
Proof. unfold count_matched. by destruct (default _ _). Qed.

(** The counters after one record, by what happened to it: [wrote] is
    [None] in a dry run, and otherwise tells whether the update succeeded. *)
Lemma counted_consistent dry c (r : MatchResult) f s :
  MatcherSpec.sound_result f r ->
  consistent dry s ->
  let s1 := count_match_type (matchType r) (count_processed c s) in
  match company r with
  | None => consistent dry s1
  | Some _ =>
      if dry then consistent dry (count_matched c s1)
      else consistent dry (count_updated (count_matched c s1))
           /\ consistent dry (count_failed (count_matched c s1))
  end.
Proof.
  intros [_ Hsound] (Hp & Hf & Hm & Hw). cbv zeta.
  destruct (count_processed_fields c s) as (P1 & P2 & P3 & P4 & P5).
  set (s0 := count_processed c s) in *.
  set (s1 := count_match_type (matchType r) s0).
  assert (F1 : processed s1 = S (processed s) /\ matched s1 = matched s
               /\ updated s1 = updated s /\ failed s1 = failed s).
  { subst s1. unfold count_match_type. simpl. by rewrite P1, P2, P3, P4. }
  destruct F1 as (Q1 & Q2 & Q3 & Q4).
  destruct (count_matched_fields c s1) as (M1 & M2 & M3 & M4 & M5).
  assert (B : byMatchType s1
              = byMatchType (count_match_type (matchType r) s)).
  { subst s1. unfold count_match_type. simpl. by rewrite P5. }
  destruct (matchType r) eqn:Et.
  - destruct Hsound as [(c0 & -> & _) _].
    destruct dry.
    + unfold consistent. rewrite M1, M2, M3, M4, M5, B, Q1, Q2, Q3, Q4.
      simpl. destruct Hw. repeat split; lia.
    + split; unfold consistent; simpl;
        rewrite M1, M2, M3, M4, M5, B, Q1, Q2, Q3, Q4; simpl;
        repeat split; lia.
  - destruct Hsound as [(c0 & -> & _) _].
    destruct dry.
    + unfold consistent. rewrite M1, M2, M3, M4, M5, B, Q1, Q2, Q3, Q4.
      simpl. destruct Hw. repeat split; lia.
    + split; unfold consistent; simpl;
        rewrite M1, M2, M3, M4, M5, B, Q1, Q2, Q3, Q4; simpl;
        repeat split; lia.
  - destruct Hsound as [(c0 & -> & _) _].
    destruct dry.
    + unfold consistent. rewrite M1, M2, M3, M4, M5, B, Q1, Q2, Q3, Q4.
      simpl. destruct Hw. repeat split; lia.
    + split; unfold consistent; simpl;
        rewrite M1, M2, M3, M4, M5, B, Q1, Q2, Q3, Q4; simpl;
        repeat split; lia.
  - done.
  - destruct Hsound as [-> _].
    unfold consistent. rewrite B, Q1, Q2, Q3, Q4. simpl.
    destruct dry; [destruct Hw|]; repeat split; lia.
Qed.

(** One record of the matching stage keeps the statistics consistent. *)
Lemma sync_one_consistent svc dry f (st : state stats) :
  consistent dry (locals st) ->
  exists st', sync_one svc dry tt f st = (Return tt, st')
              /\ consistent dry (locals st')
              /\ processed (locals st') = S (processed (locals st)).
Proof.
  intros Hinv.
  destruct (sync_one_returns svc dry f st) as (st' & Hrun & Hcount).
  exists st'. split; [exact Hrun|]. split; [|exact Hcount].
  destruct (MatcherSpecFacts.searchHubSpotCompany_spec svc f)
    as (r & calls & Hsearch & Hsound & _).
  pose proof (counted_consistent dry (Matcher.country f) r f (locals st)
                Hsound Hinv)
    as Hcounted. cbv zeta in Hcounted.
  revert Hrun. unfold sync_one.
  rewrite bind_step, update_locals_step, try_catch_step, bind_step, Hsearch.
  rewrite bind_step, update_locals_step. cbn [db clock log locals logged].
  destruct (company r) as [c|].
  - rewrite bind_step, update_locals_step. cbn [db clock log locals].
    destruct dry.
    + intros [= <-]. exact Hcounted.
    + rewrite bind_step.
      match goal with
      | |- context [updateFacility svc f c ?s] =>
          destruct (updateFacility_outcome svc f c s)
            as (o & st1 & -> & Hloc & [->|[e ->]])
      end; rewrite update_locals_step; intros [= <-]; cbn [locals];
        rewrite Hloc; cbn [locals]; apply Hcounted.
  - intros [= <-]. exact Hcounted.
Qed.

Lemma sync_batch_consistent svc dry batch : forall (st : state stats),
  consistent dry (locals st) ->
  exists st', for_each batch (sync_one svc dry) tt st = (Return tt, st')
              /\ consistent dry (locals st')
              /\ processed (locals st')
                 = processed (locals st) + length batch.
Proof.
  induction batch as [|f rest IH]; intros st Hinv.
  - exists st. split; [reflexivity|]. split; [done|]. simpl. lia.
  - destruct (sync_one_consistent svc dry f st Hinv)
      as (st1 & Hone & Hinv1 & Hcount).
    destruct (IH st1 Hinv1) as (st' & Hrest & Hinv' & Hcount').
    exists st'. cbn [for_each]. rewrite bind_step, Hone.
    split; [exact Hrest|]. split; [done|]. simpl. lia.
Qed.

Lemma sync_batches_consistent svc dry (facilities : list Facility) starts :
  forall (st : state stats),
  consistent dry (locals st) ->
  exists st',
    for_each starts
      (fun _ i => for_each (take BATCH_SIZE (drop i facilities))
                    (sync_one svc dry) tt) tt st
    = (Return tt, st')
    /\ consistent dry (locals st')
    /\ processed (locals st')
       = processed (locals st)
         + sum_list (map (fun i => length (take BATCH_SIZE (drop i facilities)))
                       starts).
Proof.
  induction starts as [|i rest IH]; intros st Hinv.
  - exists st. split; [reflexivity|]. split; [done|]. simpl. lia.
  - destruct (sync_batch_consistent svc dry
                (take BATCH_SIZE (drop i facilities)) st Hinv)
      as (st1 & Hone & Hinv1 & Hcount).
    destruct (IH st1 Hinv1) as (st' & Hrest & Hinv' & Hcount').
    exists st'. cbn [for_each]. rewrite bind_step, Hone.
    split; [exact Hrest|]. split; [done|]. simpl. lia.
Qed.

(** The batches cover the list: their sizes add up to its length. *)
Lemma batches_cover {A} (l : list A) :
  sum_list (map (fun i => length (take BATCH_SIZE (drop i l)))
              (batch_starts (length l)))
  = length l.
Proof.
  unfold batch_starts. rewrite map_map.
  assert (H : forall m,
            sum_list (map (fun k => length (take BATCH_SIZE
                                              (drop (k * BATCH_SIZE) l)))
                        (seq 0 m))
            = Nat.min (m * BATCH_SIZE) (length l)).
  { induction m as [|m IH]; [done|].
    rewrite seq_S, map_app, sum_list_with_app, IH. cbn [map sum_list_with].
    rewrite length_take, length_drop. unfold BATCH_SIZE, Datatypes.id. lia. }
  rewrite H. unfold BATCH_SIZE.
  pose proof (Nat.div_mod_eq (length l + 50 - 1) 50).
  pose proof (Nat.mod_upper_bound (length l + 50 - 1) 50).
  lia.
Qed.

End RunFacts.

Module LookupFacts.
Import JS Effects Matcher MatcherSpec Frame FrameFacts Sync RunSpec SyncFacts.

Lemma quiet_doSearch {L} (P : event -> Prop) svc req :
  P (CrmSearch req) -> quiet (L := L) P (doSearch svc req).
Proof.
  intros HP. unfold doSearch. apply quiet_bind; [by apply quiet_emit|].
  intros _. destruct (doSearch_answer svc req);
    [apply quiet_ret|apply quiet_throw].
Qed.

Lemma quiet_token_searches {L} svc tokens : forall tokenResult searchToken,
  quiet (L := L) is_token_search
    (token_searches svc tokens tokenResult searchToken).
Proof.
  induction tokens as [|t rest IH]; intros tokenResult searchToken;
    cbn [token_searches]; [apply quiet_ret|].
  apply quiet_bind; [by apply quiet_doSearch|]. intros result.
  destruct (_ || _); [destruct (total result <? 100)|];
    [apply quiet_ret|apply IH..].
Qed.

Lemma quiet_normalized_search {L} svc f normalizedName :
  quiet (L := L) is_token_search (normalized_search svc f normalizedName).
Proof.
  unfold normalized_search.
  apply quiet_try_catch; [|intros; apply quiet_ret].
  apply quiet_bind; [by apply quiet_doSearch|]. intros; apply quiet_ret.
Qed.

Lemma quiet_token_search {L} svc f normalizedName tokens :
  quiet (L := L) is_token_search (token_search svc f normalizedName tokens).
Proof.
  unfold token_search.
  apply quiet_try_catch; [|intros; apply quiet_ret].
  apply quiet_bind; [apply quiet_token_searches|].
  intros [tokenResult searchToken].
  destruct (fold_left _ _ _) as [[c|] s]; apply quiet_ret.
Qed.

(** Searches by token are no exact lookups and no updates. *)
Lemma token_calls calls :
  Forall is_token_search calls ->
  exact_lookups calls = [] /\ updated_ids calls = [].
Proof.
  induction 1 as [|e calls He _ [IH1 IH2]]; [done|].
  destruct e as [req| | | |]; try done. simpl in He.
  unfold exact_lookups, updated_ids in *. cbn [omap list_omap].
  by rewrite He, IH1, IH2.
Qed.

(** The matcher looks the facility up by its name once; everything else it
    sends is a search by token. *)
Lemma searchHubSpotCompany_lookups {L} svc f (st : state L) :
  exists calls,
    log (snd (searchHubSpotCompany svc f st)) = log st ++ calls
    /\ exact_lookups calls = [name f] /\ updated_ids calls = [].
Proof.
  destruct (MatcherSpecFacts.exact_search_spec svc f) as (found & Hexact & _).
  unfold searchHubSpotCompany.
  match goal with
  | |- context [mbind ?k (exact_search svc f)] =>
      assert (Hk : forall a, quiet (L := L) is_token_search (k a))
  end.
  { intros [r|]; [apply quiet_ret|].
    apply quiet_bind.
    { destruct (negb _); [apply quiet_normalized_search|apply quiet_ret]. }
    intros [r|]; [apply quiet_ret|].
    apply quiet_bind.
    { destruct (0 <? _); [apply quiet_token_search|apply quiet_ret]. }
    intros [r|]; apply quiet_ret. }
  unfold mbind at 1. unfold prog_bind, bind at 1. rewrite Hexact.
  match goal with
  | |- context [log (snd (?k (logged st ?c)))] =>
      destruct (Hk found (logged st c)) as (_ & _ & calls & Hlog & Hcalls)
  end.
  destruct (token_calls calls Hcalls) as [E1 E2].
  exists (CrmSearch (exact_request f) :: calls).
  split; [|split].
  - etrans; [exact Hlog|]. cbn [log logged]. by rewrite <- app_assoc.
  - unfold exact_lookups in *. cbn [omap list_omap exact_request
                                   req_operator req_value]. by rewrite E1.
  - unfold updated_ids in *. cbn [omap list_omap]. exact E2.
Qed.

Lemma updateFacility_call svc f c (st : state stats) :
  log (snd (updateFacility svc f c st))
  = log st ++ [RpcUpdate (lit "asset_map_update_facility_from_hubspot")
                 (Matcher.id f)].
Proof.
  unfold updateFacility, Rpc.rpc_write.
  rewrite bind_step. unfold emit.
  destruct (rpc_rejects svc _); [done|].
  unfold write_db. cbn [db clock log locals logged].
  by destruct (Storage.asset_map_update_facility_from_hubspot _ _ _ _ _ _ _).
Qed.

Lemma matched_match_type t s : matched (count_match_type t s) = matched s.
Proof. reflexivity. Qed.

(** The calls of one record of the matching stage. *)
Lemma sync_one_calls svc dry f (st : state stats) :
  exists calls,
    log (snd (sync_one svc dry tt f st)) = log st ++ calls
    /\ exact_lookups calls = [Matcher.name f]
    /\ updated_ids calls `sublist_of` [Matcher.id f]
    /\ if dry then updated_ids calls = []
       else matched (locals (snd (sync_one svc dry tt f st)))
            = matched (locals st) + length (updated_ids calls).
Proof.
  destruct (MatcherFacts.searchHubSpotCompany_returns svc f)
    as (r & calls & Hsearch).
  unfold sync_one.
  rewrite bind_step, update_locals_step, try_catch_step, bind_step.
  match goal with
  | |- context [searchHubSpotCompany svc f ?s] =>
      destruct (searchHubSpotCompany_lookups svc f s)
        as (calls' & Hlog & Hexact & Hupd)
  end.
  rewrite Hsearch in Hlog |- *. cbn [snd log logged] in Hlog.
  apply app_inv_head in Hlog. subst calls'.
  rewrite bind_step, update_locals_step. cbn [db clock log locals logged].
  destruct (RunFacts.count_processed_fields (Matcher.country f) (locals st))
    as (_ & Hm & _).
  destruct (company r) as [c|].
  - rewrite bind_step, update_locals_step. cbn [db clock log locals].
    destruct (RunFacts.count_matched_fields (Matcher.country f)
                (count_match_type (matchType r)
                   (count_processed (Matcher.country f) (locals st))))
      as (_ & Hm' & _).
    destruct dry.
    + exists calls. cbn [snd log]. rewrite Hupd.
      repeat split; [done|apply sublist_nil_l].
    + rewrite bind_step.
      match goal with
      | |- context [updateFacility svc f c ?s] =>
          pose proof (updateFacility_call svc f c s) as Hcall;
          destruct (updateFacility_outcome svc f c s)
            as (o & st' & Hrun & Hloc & [->|[e ->]])
      end; rewrite Hrun in Hcall |- *; cbn [snd log] in Hcall;
        rewrite update_locals_step; cbn [snd log locals];
        (eexists; split; [rewrite Hcall, <- app_assoc; reflexivity|]);
        unfold exact_lookups, updated_ids in *;
        rewrite !omap_app, Hexact, Hupd; cbn [omap list_omap app length];
        (split; [done|]); (split; [done|]);
        rewrite Hloc; cbn [locals count_updated count_failed matched];
        rewrite Hm', matched_match_type, Hm; lia.
  - unfold mret, prog_ret, ret. exists calls. cbn [snd log locals].
    rewrite Hupd. repeat split; [done|apply sublist_nil_l|].
    destruct dry; [done|].
    rewrite matched_match_type, Hm. simpl. lia.
Qed.

Lemma sync_batch_calls svc dry batch : forall (st : state stats),
  exists calls,
    log (snd (for_each batch (sync_one svc dry) tt st)) = log st ++ calls
    /\ exact_lookups calls = map Matcher.name batch
    /\ updated_ids calls `sublist_of` map Matcher.id batch
    /\ if dry then updated_ids calls = []
       else matched (locals (snd (for_each batch (sync_one svc dry) tt st)))
            = matched (locals st) + length (updated_ids calls).
Proof.
  induction batch as [|f rest IH]; intros st.
  - exists []. cbn [for_each flat_map]. unfold ret. cbn.
    rewrite app_nil_r. repeat split; [constructor|].
    destruct dry; [done|lia].
  - destruct (sync_one_returns svc dry f st) as (st1 & Hone & _).
    destruct (sync_one_calls svc dry f st)
      as (calls1 & Hlog1 & He1 & Hu1 & Hm1).
    rewrite Hone in Hlog1, Hm1. cbn [snd] in Hlog1, Hm1.
    destruct (IH st1) as (calls2 & Hlog2 & He2 & Hu2 & Hm2).
    cbn [for_each]. rewrite bind_step, Hone.
    exists (calls1 ++ calls2). split; [|split; [|split]].
    + rewrite Hlog2, Hlog1. by rewrite app_assoc.
    + unfold exact_lookups in *. by rewrite omap_app, He1, He2.
    + unfold updated_ids in *. rewrite omap_app.
      change (map Matcher.id (f :: rest))
        with ([Matcher.id f] ++ map Matcher.id rest).
      by apply sublist_app.
    + unfold updated_ids in *. rewrite omap_app.
      destruct dry; [by rewrite Hm1, Hm2|].
      rewrite Hm2, Hm1, length_app. lia.
Qed.

Lemma sync_batches_calls svc dry (facilities : list Facility) starts :
  forall (st : state stats),
  let run :=
    for_each starts
      (fun _ i => for_each (take BATCH_SIZE (drop i facilities))
                    (sync_one svc dry) tt) tt st in
  let processed :=
    flat_map (fun i => take BATCH_SIZE (drop i facilities)) starts in
  exists calls,
    log (snd run) = log st ++ calls
    /\ exact_lookups calls = map Matcher.name processed
    /\ updated_ids calls `sublist_of` map Matcher.id processed
    /\ if dry then updated_ids calls = []
       else matched (locals (snd run))
            = matched (locals st) + length (updated_ids calls).
Proof.
  induction starts as [|i rest IH]; intros st; cbv zeta.
  - exists []. cbn [for_each flat_map]. unfold ret. cbn.
    rewrite app_nil_r. repeat split; [constructor|].
    destruct dry; [done|lia].
  - destruct (sync_batch_returns svc dry
                (take BATCH_SIZE (drop i facilities)) st)
      as (st1 & Hone & _).
    destruct (sync_batch_calls svc dry
                (take BATCH_SIZE (drop i facilities)) st)
      as (calls1 & Hlog1 & He1 & Hu1 & Hm1).
    rewrite Hone in Hlog1, Hm1. cbn [snd] in Hlog1, Hm1.
    destruct (IH st1) as (calls2 & Hlog2 & He2 & Hu2 & Hm2).
    cbn [for_each flat_map]. rewrite bind_step, Hone.
    exists (calls1 ++ calls2). split; [|split; [|split]].
    + rewrite Hlog2, Hlog1. by rewrite app_assoc.
    + unfold exact_lookups in *. by rewrite omap_app, He1, He2, map_app.
    + unfold updated_ids in *. rewrite omap_app, map_app.
      by apply sublist_app.
    + unfold updated_ids in *. rewrite omap_app.
      destruct dry; [by rewrite Hm1, Hm2|].
      rewrite Hm2, Hm1, length_app. lia.
Qed.

(** The batches, one after the other, are the list. *)
Lemma batches_concat {A} (l : list A) :
  flat_map (fun i => take BATCH_SIZE (drop i l)) (batch_starts (length l))
  = l.
Proof.
  unfold batch_starts.
  assert (H : forall m,
            flat_map (fun i => take BATCH_SIZE (drop i l))
              (map (fun k => k * BATCH_SIZE) (seq 0 m))
            = take (m * BATCH_SIZE) l).
  { induction m as [|m IH]; [done|].
    rewrite seq_S, map_app, flat_map_app, IH. cbn [map flat_map].
    rewrite app_nil_r, Nat.add_0_l, take_take_drop. f_equal.
    unfold BATCH_SIZE. lia. }
  rewrite H. apply take_ge. unfold BATCH_SIZE.
  pose proof (Nat.div_mod_eq (length l + 50 - 1) 50).
  pose proof (Nat.mod_upper_bound (length l + 50 - 1) 50).
  lia.
Qed.

End LookupFacts.

Module SyncRun.
Import JS Effects Matcher Sync RunSpec.

(** X23. A run of the matching stage with its credentials and a backlog it
    can read, in which no country is a property name that objects inherit.
    The run returns, whatever the CRM answers and whether the updates
    succeed. Each facility of the backlog is processed once, in the order of
    the backlog: after the reading of the backlog, the exact-name searches of
    the run are those for the names of the backlog, one each and in that
    order, and the calls of the updating procedure are for facilities of the
    backlog, at most one each and in that order; a dry run makes none, and
    otherwise there is one for each matched facility. The statistics fit
    together: the processed facilities are as many as the backlog holds,
    each has one match type, never "fuzzy"; the matched ones are those of the
    three tiers; a dry run neither updates nor fails, and otherwise each
    matched facility is either updated or failed. With an empty backlog the
    run ends at once. *)
Theorem syncHubSpotAddresses_statistics (env : environment) (svc : services)
    (opts : options) (st : state stats) :
  truthy (HUBSPOT_API_KEY env) = true ->
  truthy (SUPABASE_URL env) = true ->
  truthy (SUPABASE_SERVICE_KEY env) = true ->
  rpc_rejects svc (RpcBacklog (lit "asset_map_get_facilities_for_sync"))
    = false ->
  let backlog :=
    Storage.asset_map_get_facilities_for_sync (db st)
      (match limit opts with Some (S n) => S n | _ => 5000 end)
      (or_null (country opts)) in
  Forall (fun r => Objects.plain_key (Storage.country r) = true) backlog ->
  exists st' calls,
    syncHubSpotAddresses env svc opts st = (Return tt, st')
    /\ log st'
       = log st
         ++ RpcBacklog (lit "asset_map_get_facilities_for_sync") :: calls
    /\ exact_lookups calls = map Storage.name backlog
    /\ updated_ids calls `sublist_of` map Storage.id backlog
    /\ if length backlog =? 0
       then st' = logged st [RpcBacklog
                               (lit "asset_map_get_facilities_for_sync")]
       else processed (locals st') = length backlog
            /\ consistent (dryRun opts) (locals st')
            /\ if dryRun opts then updated_ids calls = []
               else length (updated_ids calls) = matched (locals st').
Proof.
  intros H1 H2 H3 Hread backlog _.
  unfold syncHubSpotAddresses. rewrite H1, H2, H3. cbn [negb orb].
  rewrite SyncFacts.bind_step.
  unfold fetchFacilitiesWithoutAddresses, Rpc.rpc_read.
  rewrite SyncFacts.bind_step. unfold emit. rewrite Hread.
  rewrite SyncFacts.bind_step. unfold read_db, mret, prog_ret, ret.
  cbn [db clock log locals logged]. fold backlog.
  rewrite length_map.
  destruct (length backlog =? 0) eqn:E.
  - exists (logged st [RpcBacklog (lit "asset_map_get_facilities_for_sync")]),
      [].
    apply Nat.eqb_eq, length_zero_iff_nil in E. rewrite E.
    repeat split. constructor.
  - rewrite SyncFacts.bind_step, SyncFacts.update_locals_step.
    cbn [db clock log locals].
    match goal with
    | |- context [for_each ?starts ?body tt ?s] =>
        destruct (RunFacts.sync_batches_consistent svc (dryRun opts)
                    (map to_facility backlog) starts s)
          as (st' & Hrun & Hinv & Hcount);
        [|destruct (LookupFacts.sync_batches_calls svc (dryRun opts)
                      (map to_facility backlog) starts s)
            as (calls & Hlog & Hexact & Hupdated & Hmatched)]
    end.
    { cbn [locals]. unfold consistent, no_stats. simpl.
      by destruct (dryRun opts). }
    rewrite Hrun in Hlog, Hmatched. cbn [snd log locals] in Hlog, Hmatched.
    pose proof (LookupFacts.batches_concat (map to_facility backlog))
      as Hall.
    rewrite length_map in Hall. rewrite Hall in Hexact, Hupdated.
    rewrite map_map in Hexact, Hupdated.
    exists st', calls. split; [exact Hrun|]. split; [|split; [|split]].
    + rewrite Hlog. cbn [log logged]. by rewrite <- ?app_assoc.
    + exact Hexact.
    + exact Hupdated.
    + split; [|split; [exact Hinv|]].
      * rewrite Hcount. cbn [locals no_stats processed].
        pose proof (RunFacts.batches_cover (map to_facility backlog))
          as Hcover.
        rewrite length_map in Hcover. by rewrite Hcover.
      * destruct (dryRun opts); [exact Hmatched|].
        rewrite Hmatched. by cbn [no_stats matched].
Qed.

(** An instance: two facilities of Norway, a CRM that matches both, and an
    endpoint that rejects the update of the first. *)
Lemma syncHubSpotAddresses_statistics_witness :
  let rows := [Examples.new_row "f1" "Alfa" "Norway" None;
               Examples.new_row "f2" "Bravo" "Norway" None] in
  let opts := {| dryRun := false; limit := None; country := None;
                 verbose := false |} in
  exists st' calls,
    syncHubSpotAddresses Examples.all_credentials Examples.rejecting_f1 opts
      (Examples.start rows no_stats) = (Return tt, st')
    /\ exact_lookups calls = [lit "Alfa"; lit "Bravo"]
    /\ updated_ids calls `sublist_of` [lit "f1"; lit "f2"]
    /\ processed (locals st') = 2.
Proof.
  destruct (syncHubSpotAddresses_statistics Examples.all_credentials
              Examples.rejecting_f1
              {| dryRun := false; limit := None; country := None;
                 verbose := false |}
              (Examples.start [Examples.new_row "f1" "Alfa" "Norway" None;
                               Examples.new_row "f2" "Bravo" "Norway" None]
                 no_stats)
              eq_refl eq_refl eq_refl eq_refl)
    as (st' & calls & Hrun & _ & Hexact & Hupdated & Hstats).
  { by repeat constructor. }
  exists st', calls. split; [exact Hrun|]. split; [exact Hexact|].
  split; [exact Hupdated|]. exact (proj1 Hstats).
Defined.

End SyncRun.


Module GeocodingRun.
Import JS Effects Geocoder RunSpec SyncFacts.

Lemma geocoded_only_refl db : Forall2 (geocoded_only []) db db.
Proof.
  apply Forall_Forall2_diag, Forall_forall. intros r _.
  unfold geocoded_only. repeat split; try done.
  intros H. by apply elem_of_nil in H.
Qed.

(** One more update, for facility [fid], of a table that a run on [ids] has
    produced. *)
Lemma geocoded_only_step ids fid now lat lon s conf db0 db1 :
  (s = Storage.success /\ lat <> None /\ lon <> None) \/ s = Storage.failed ->
  Forall2 (geocoded_only ids) db0 db1 ->
  Forall2 (geocoded_only (ids ++ [fid])) db0
    (Storage.asset_map_update_facility_geocode now db1 fid lat lon s conf).
Proof.
  intros Hs Hrun. unfold Storage.asset_map_update_facility_geocode.
  apply Forall2_fmap_r. eapply Forall2_impl; [exact Hrun|].
  intros r r1 (Hid & H1 & H2 & H3 & H4 & H5 & H6 & H7 & Hout & Hin).
  unfold compose, eqb. case_bool_decide as E.
  - unfold geocoded_only.
    cbn [Storage.id Storage.hubspot_id Storage.name Storage.address
         Storage.city Storage.postal_code Storage.country
         Storage.charger_count Storage.geocode_status Storage.latitude
         Storage.longitude].
    repeat split; try done.
    + intros Hnot. exfalso. apply Hnot. apply elem_of_app. right.
      apply list_elem_of_singleton. congruence.
    + intros _. destruct Hs as [(-> & Hlat & Hlon) | ->]; [left|by right].
      repeat split; [by destruct lat|by destruct lon].
  - unfold geocoded_only. repeat split; try done.
    + intros Hnot. apply Hout. intros Hids. apply Hnot.
      apply elem_of_app. by left.
    + intros Hids. apply elem_of_app in Hids as [Hids|Hids]; [by apply Hin|].
      apply list_elem_of_singleton in Hids. congruence.
Qed.

(** One facility of the geocoding stage, when the endpoint accepts every
    call. *)
Lemma geocode_one_settles env svc dry f ids db0 (st : state counters) :
  (forall e, rpc_rejects svc e = false) ->
  (dry = false -> Forall2 (geocoded_only ids) db0 (db st)) ->
  exists st',
    geocode_one env svc dry tt f st = (Return tt, st')
    /\ success (locals st') + failed (locals st')
       = S (success (locals st) + failed (locals st))
    /\ (dry = false -> Forall2 (geocoded_only (ids ++ [id f])) db0 (db st')).
Proof.
  intros Hok Hrun.
  destruct (GeocoderFacts.geocodeFacility_returns env svc f)
    as (result & calls & Hgeo).
  unfold geocode_one. rewrite bind_step, Hgeo.
  destruct result as [r|]; destruct dry.
  - rewrite bind_step. unfold mret, prog_ret, ret.
    rewrite update_locals_step. eexists. split; [reflexivity|].
    cbn [locals logged success failed]. split; [lia|done].
  - rewrite bind_step. unfold updateFacilityGeocode.
    rewrite (UpdateFacts.rpc_write_accepted _ _ _ _ _ (Hok _)).
    unfold write_db. cbn [db clock log locals logged].
    rewrite update_locals_step. eexists. split; [reflexivity|].
    cbn [db locals success failed]. split; [lia|]. intros _.
    apply geocoded_only_step; [by left|by apply Hrun].
  - rewrite bind_step. unfold mret, prog_ret, ret.
    rewrite update_locals_step. eexists. split; [reflexivity|].
    cbn [locals logged success failed]. split; [lia|done].
  - rewrite bind_step. unfold markFacilityFailed.
    rewrite (UpdateFacts.rpc_write_accepted _ _ _ _ _ (Hok _)).
    unfold write_db. cbn [db clock log locals logged].
    rewrite update_locals_step. eexists. split; [reflexivity|].
    cbn [db locals success failed]. split; [lia|]. intros _.
    apply geocoded_only_step; [by right|by apply Hrun].
Qed.

Lemma geocode_all_settles env svc dry fs : forall ids db0 (st : state counters),
  (forall e, rpc_rejects svc e = false) ->
  (dry = false -> Forall2 (geocoded_only ids) db0 (db st)) ->
  exists st',
    for_each fs (geocode_one env svc dry) tt st = (Return tt, st')
    /\ success (locals st') + failed (locals st')
       = success (locals st) + failed (locals st) + length fs
    /\ (dry = false
        -> Forall2 (geocoded_only (ids ++ map id fs)) db0 (db st')).
Proof.
  induction fs as [|f fs IH]; intros ids db0 st Hok Hrun.
  - exists st. split; [reflexivity|]. split; [simpl; lia|].
    simpl. by rewrite app_nil_r.
  - destruct (geocode_one_settles env svc dry f ids db0 st Hok Hrun)
      as (st1 & Hone & Hcount & Hrun1).
    destruct (IH (ids ++ [id f]) db0 st1 Hok Hrun1)
      as (st' & Hrest & Hcount' & Hrun').
    exists st'. cbn [for_each]. rewrite bind_step, Hone.
    split; [exact Hrest|]. split; [simpl; lia|].
    intros Hdry. specialize (Hrun' Hdry).
    by rewrite <- app_assoc in Hrun'.
Qed.



End GeocodingRun.


(** * The tiers of the matcher *)

Module TierFacts.
Import JS Effects Matcher TierSpec.

Lemma gt_true a b : gt a b = true <-> (b < a)%Q.
Proof.
  unfold gt. rewrite negb_true_iff. split.
  - intros H. apply Qnot_le_lt. intros Hle.
    apply Qle_bool_iff in Hle. congruence.
  - intros H. destruct (Qle_bool a b) eqn:E; [|done].
    apply Qle_bool_iff in E. lra.
Qed.

Lemma gt_false a b : gt a b = false <-> (a <= b)%Q.
Proof.
  unfold gt. rewrite negb_false_iff. apply Qle_bool_iff.
Qed.

(** The loop of the normalized tier returns the first company that is
    similar enough. *)
Lemma first_similar_first f normalizedName companies :
  match first_similar f normalizedName companies with
  | Some r =>
      exists before c after,
        companies = before ++ c :: after
        /\ Forall (fun c' => similar_enough f normalizedName c' = false) before
        /\ similar_enough f normalizedName c = true
        /\ r = {| facility := f; company := Some c; matchType := MNormalized;
                  confidence := name_similarity f normalizedName c |}
  | None =>
      Forall (fun c' => similar_enough f normalizedName c' = false) companies
  end.
Proof.
  induction companies as [|c rest IH]; [by constructor|].
  cbn [first_similar]. fold (name_similarity f normalizedName c).
  fold (similar_enough f normalizedName c).
  destruct (similar_enough f normalizedName c) eqn:E.
  - exists [], c, rest. by repeat split.
  - destruct (first_similar f normalizedName rest) as [r|].
    + destruct IH as (before & c' & after & -> & Hbefore & Hc' & ->).
      exists (c :: before), c', after. repeat split; try done.
      by constructor.
    + by constructor.
Qed.

(** The scoring loop after the candidates [seen], started at [(null, 0)]. *)
Lemma scoring_best score threshold seen :
  (0 <= threshold)%Q ->
  let best := fold_left (score_step_by score threshold) seen (None, 0%Q) in
  match fst best with
  | Some c =>
      exists before after,
        seen = before ++ c :: after
        /\ has_address c = true /\ snd best = score c
        /\ (threshold < score c)%Q
        /\ Forall (fun c' => has_address c' = true -> (score c' < score c)%Q)
             before
        /\ Forall (fun c' => has_address c' = true -> (score c' <= score c)%Q)
             after
  | None =>
      snd best = 0%Q
      /\ Forall (fun c' => has_address c' = true -> (score c' <= threshold)%Q)
           seen
  end.
Proof.
  intros Hthreshold. cbv zeta.
  induction seen as [|x seen IH] using rev_ind; [by split|].
  rewrite fold_left_app. cbn [fold_left].
  destruct (fold_left (score_step_by score threshold) seen (None, 0%Q))
    as [[c|] s]; cbn [fst snd] in IH; unfold score_step_by; cbn [fst snd].
  - destruct IH as (before & after & -> & Hc & -> & Hthr & Hbefore & Hafter).
    destruct (has_address x) eqn:Ex; cbn [negb].
    + destruct (gt (score x) (score c) && gt (score x) threshold)
        eqn:E; cbn [fst snd].
      * apply andb_true_iff in E as [E1 E2].
        apply gt_true in E1. apply gt_true in E2.
        exists (before ++ c :: after), []. repeat split; try done.
        -- apply Forall_app. split; [|constructor].
           ++ eapply Forall_impl; [exact Hbefore|]. intros c' H Hc'.
              specialize (H Hc'). simpl in H. lra.
           ++ intros _. exact E1.
           ++ eapply Forall_impl; [exact Hafter|]. intros c' H Hc'.
              specialize (H Hc'). simpl in H. lra.
      * exists before, (after ++ [x]). rewrite <- app_assoc. cbn [app].
        repeat split; try done.
        apply Forall_app. split; [done|]. constructor; [|constructor].
        intros _. apply andb_false_iff in E as [E|E]; apply gt_false in E;
          lra.
    + exists before, (after ++ [x]). rewrite <- app_assoc. cbn [app].
      repeat split; try done.
      apply Forall_app. split; [done|]. constructor; [|constructor]. congruence.
  - destruct IH as [-> Hseen].
    destruct (has_address x) eqn:Ex; cbn [negb].
    + destruct (gt (score x) 0 && gt (score x) threshold) eqn:E;
        cbn [fst snd].
      * apply andb_true_iff in E as [E1 E2].
        apply gt_true in E1. apply gt_true in E2.
        exists seen, []. repeat split; try done.
        eapply Forall_impl; [exact Hseen|]. intros c' H Hc'.
        specialize (H Hc'). simpl in H. lra.
      * split; [done|]. apply Forall_app. split; [done|].
        constructor; [|constructor].
        intros _. apply andb_false_iff in E as [E|E]; apply gt_false in E;
          lra.
    + split; [done|]. apply Forall_app. split; [done|].
      constructor; [|constructor]. congruence.
Qed.

End TierFacts.

Module Tiers.
Import JS Effects Matcher TierSpec.


(** X26. The scoring loop of the token tier, whatever values its arithmetic
    gives to the combined scores and to the threshold 0.55. Among the
    candidates that have an address, the loop chooses one whose score is the
    highest, the first of them in the order of the answer, when that score is
    above the threshold, and keeps the score; it chooses none when no
    candidate with an address scores above the threshold. The loop of the
    script is this loop, with its combined score and its threshold. *)
Theorem token_tier_picks_best (score : HubSpotCompany -> Q) (threshold : Q)
    (candidates : list HubSpotCompany) :
  (0 <= threshold)%Q ->
  let best := fold_left (score_step_by score threshold) candidates
                (None, 0%Q) in
  (forall f normalizedName tokens state c,
     score_step f normalizedName tokens state c
     = score_step_by (combined_score f normalizedName tokens) (55 # 100)
         state c)
  /\ match fst best with
     | Some c =>
         exists before after,
           candidates = before ++ c :: after
           /\ has_address c = true /\ snd best = score c
           /\ (threshold < score c)%Q
           /\ Forall (fun c' => has_address c' = true
                                -> (score c' < score c)%Q) before
           /\ Forall (fun c' => has_address c' = true
                                -> (score c' <= score c)%Q) after
     | None =>
         Forall (fun c' => has_address c' = true
                           -> (score c' <= threshold)%Q) candidates
     end.
Proof.
  intros Hthreshold.
  pose proof (TierFacts.scoring_best score threshold candidates Hthreshold)
    as Hbest. cbv zeta in Hbest |- *.
  split; [reflexivity|].
  destruct (fst (fold_left (score_step_by score threshold) candidates
                   (None, 0%Q))); [exact Hbest|].
  by destruct Hbest.
Qed.

(** An instance: two candidates with an address, the second with the higher
    score. *)
Lemma token_tier_picks_best_witness :
  let score := fun c : HubSpotCompany =>
    if eqb (company_id c) (lit "201") then 9 # 10 else 6 # 10 in
  let candidates := [Examples.solsiden_hage; Examples.solsiden_park] in
  (0 <= 55 # 100)%Q
  /\ fold_left (score_step_by score (55 # 100)) candidates (None, 0%Q)
     = (Some Examples.solsiden_park, 9 # 10)
  /\ exists before after,
       candidates = before ++ Examples.solsiden_park :: after
       /\ Forall (fun c' => has_address c' = true
                            -> (score c' < score Examples.solsiden_park)%Q)
            before.
Proof.
  split; [done|]. split; [reflexivity|].
  destruct (token_tier_picks_best
              (fun c : HubSpotCompany =>
                 if eqb (company_id c) (lit "201") then 9 # 10 else 6 # 10)
              (55 # 100)
              [Examples.solsiden_hage; Examples.solsiden_park])
    as [_ (before & after & Hsplit & _ & _ & _ & Hbefore & _)]; [done|].
  exists before, after. split; [exact Hsplit|exact Hbefore].
Defined.

(** X9. The token tier searches the tokens in order and stops at the first
    one whose search returns fewer than 100 results: no later token is
    searched, and the companies of that answer are the ones that are
    scored. *)
Theorem token_tier_stops_at_first_manageable {L} (svc : services)
    (f : Facility) (normalizedName : jsstring)
    (earlier : list jsstring) (t : jsstring) (later : list jsstring)
    (r : search_response) (st : state L) :
  Forall (fun t' => exists r',
            doSearch_answer svc (token_request t') = Some r'
            /\ 100 <= total r') earlier ->
  doSearch_answer svc (token_request t) = Some r ->
  total r < 100 ->
  let tokens := earlier ++ t :: later in
  let best := fold_left (score_step f normalizedName tokens) (results r)
                (None, 0%Q) in
  token_search svc f normalizedName tokens st
  = (Return match fst best with
            | Some c => Some {| facility := f; company := Some c;
                                matchType := MToken;
                                confidence := snd best |}
            | None => None
            end,
     logged st (map (fun t' => CrmSearch (token_request t'))
                  (earlier ++ [t]))).
Proof.
  intros Hearlier Hanswer Hfew. cbv zeta.
  unfold token_search, try_catch.
  unfold mbind, prog_bind, bind at 1.
  rewrite (MatcherFacts.token_searches_stops_at_manageable
             svc earlier t later r) by done.
  cbn [scored_candidates].
  by destruct (fold_left _ _ _) as [[c|] s].
Qed.

(** An instance: "solsiden" returns 150 results, "park" returns 3. *)
Lemma token_tier_stops_at_first_manageable_witness :
  let f := Examples.new_facility "f1" "Solsiden Park Vest" "Norway" in
  exists found,
    token_search Examples2.selective_crm f (lit "solsiden park vest")
      [lit "solsiden"; lit "park"; lit "vest"] (Examples.start [] tt)
    = (Return found,
       logged (Examples.start [] tt)
         [CrmSearch (token_request (lit "solsiden"));
          CrmSearch (token_request (lit "park"))]).
Proof.
  eexists.
  apply (token_tier_stops_at_first_manageable Examples2.selective_crm
           (Examples.new_facility "f1" "Solsiden Park Vest" "Norway")
           (lit "solsiden park vest")
           [lit "solsiden"] (lit "park") [lit "vest"]
           Examples2.answer_few (Examples.start [] tt)).
  - repeat constructor. exists Examples.answer_solsiden.
    split; [reflexivity|]. simpl. lia.
  - reflexivity.
  - simpl. lia.
Defined.

End Tiers.

Module Unreadable.
Import JS Effects.

(** X27. When the database endpoint rejects the reading of the backlog, each
    of the two batch scripts ends with the exception of that call: no
    facility is processed, no other call is made and nothing is stored. *)
Theorem unreadable_backlog_ends_the_run (env : environment) (svc : services)
    (sync_options : Sync.options) (geocoding_options : Geocoder.options)
    (st : state Sync.stats) (st' : state Geocoder.counters) :
  truthy (HUBSPOT_API_KEY env) = true ->
  truthy (SUPABASE_URL env) = true ->
  truthy (SUPABASE_SERVICE_KEY env) = true ->
  (forall fn, rpc_rejects svc (RpcBacklog fn) = true) ->
  Sync.syncHubSpotAddresses env svc sync_options st
  = (Throw (lit "RPC failed"),
     logged st [RpcBacklog (lit "asset_map_get_facilities_for_sync")])
  /\ Geocoder.main env svc geocoding_options st'
     = (Throw (lit "RPC failed"),
        logged st' [RpcBacklog
                      (lit "asset_map_get_facilities_for_geocoding")]).
Proof.
  intros H1 H2 H3 Hdown. split.
  - unfold Sync.syncHubSpotAddresses. rewrite H1, H2, H3. cbn [negb orb].
    unfold Sync.fetchFacilitiesWithoutAddresses, Rpc.rpc_read.
    unfold mbind, prog_bind, bind, emit, throw. by rewrite Hdown.
  - unfold Geocoder.main, Rpc.rpc_read.
    unfold mbind, prog_bind, bind, emit, throw. by rewrite Hdown.
Qed.

(** An instance: two facilities and an endpoint that rejects the reading. *)
Lemma unreadable_backlog_ends_the_run_witness :
  let rows := [Examples.new_row "f1" "Alfa" "Norway" None;
               Examples.norwegian_row "f2" "Bravo" "Kongens gate 2" "0150"] in
  fst (Sync.syncHubSpotAddresses Examples.all_credentials Examples3.db_down
         {| Sync.dryRun := false; Sync.limit := None; Sync.country := None;
            Sync.verbose := false |}
         (Examples.start rows Sync.no_stats))
  = Throw (lit "RPC failed")
  /\ db (snd (Geocoder.main Examples.all_credentials Examples3.db_down
                {| Geocoder.countryFilter := None; Geocoder.limit := 100;
                   Geocoder.dryRun := false |}
                (Examples.start rows
                   {| Geocoder.success := 0; Geocoder.failed := 0 |})))
     = rows.
Proof.
  destruct (unreadable_backlog_ends_the_run Examples.all_credentials
              Examples3.db_down
              {| Sync.dryRun := false; Sync.limit := None;
                 Sync.country := None; Sync.verbose := false |}
              {| Geocoder.countryFilter := None; Geocoder.limit := 100;
                 Geocoder.dryRun := false |}
              (Examples.start
                 [Examples.new_row "f1" "Alfa" "Norway" None;
                  Examples.norwegian_row "f2" "Bravo" "Kongens gate 2" "0150"]
                 Sync.no_stats)
              (Examples.start
                 [Examples.new_row "f1" "Alfa" "Norway" None;
                  Examples.norwegian_row "f2" "Bravo" "Kongens gate 2" "0150"]
                 {| Geocoder.success := 0; Geocoder.failed := 0 |})
              eq_refl eq_refl eq_refl (fun _ => eq_refl)) as [Hs Hg].
  split; [by rewrite Hs|by rewrite Hg].
Defined.

End Unreadable.


(** * The importer and the report *)

Module ImporterFacts.
Import JS Effects Importer.

Lemma get_add_row name row m k :
  get k (add_row name row m)
  = if eqb k name
    then Some match get name m with
              | Some g => {| country := country g;
                             chargerCount := chargerCount g + 1;
                             chargers := chargers g ++ [row] |}
              | None => {| country := Country row; chargerCount := 1;
                           chargers := [row] |}
              end
    else get k m.
Proof.
  induction m as [|[k' g] m IH]; cbn [add_row get].
  - unfold eqb. repeat case_bool_decide; congruence.
  - unfold eqb in *. destruct (decide (k' = name)) as [->|Hne].
    + rewrite !(bool_decide_eq_true_2 (name = name)) by done.
      cbn [get]. unfold eqb. repeat case_bool_decide; congruence.
    + rewrite !(bool_decide_eq_false_2 (k' = name)) by done.
      cbn [get]. unfold eqb. rewrite IH.
      repeat case_bool_decide; congruence.
Qed.

Lemma keys_add_row name row m :
  map fst (add_row name row m)
  = if bool_decide (name ∈ map fst m) then map fst m
    else map fst m ++ [name].
Proof.
  induction m as [|[k g] m IH]; cbn [add_row map fst app].
  - rewrite bool_decide_eq_false_2; [done|]. apply not_elem_of_nil.
  - unfold eqb. destruct (decide (k = name)) as [->|Hne].
    + rewrite (bool_decide_eq_true_2 (name = name)) by done. cbn [map fst].
      rewrite bool_decide_eq_true_2; [done|]. apply elem_of_cons. by left.
    + rewrite (bool_decide_eq_false_2 (k = name)) by done. cbn [map fst].
      rewrite IH. destruct (decide (name ∈ map fst m)) as [Hin|Hnin].
      * rewrite (bool_decide_eq_true_2 (name ∈ map fst m)) by done.
        rewrite bool_decide_eq_true_2; [done|]. apply elem_of_cons.
        by right.
      * rewrite (bool_decide_eq_false_2 (name ∈ map fst m)) by done.
        rewrite bool_decide_eq_false_2; [done|].
        intros [?|?]%elem_of_cons; congruence.
Qed.

Lemma count_add_row name row m :
  sum_list (map (fun e => chargerCount (snd e)) (add_row name row m))
  = S (sum_list (map (fun e => chargerCount (snd e)) m)).
Proof.
  induction m as [|[k g] m IH]; cbn [add_row map snd sum_list_with];
    [done|].
  destruct (eqb k name); cbn [map snd sum_list_with chargerCount].
  - unfold Datatypes.id. lia.
  - rewrite IH. unfold Datatypes.id. lia.
Qed.

Lemma group_by_facility_snoc rows row :
  group_by_facility (rows ++ [row])
  = group_step (group_by_facility rows) row.
Proof. unfold group_by_facility. by rewrite fold_left_app. Qed.

Lemma rows_of_snoc name rows row :
  rows_of name (rows ++ [row])
  = rows_of name rows
    ++ (if bool_decide (facility_of row = Some name) then [row] else []).
Proof. unfold rows_of. rewrite List.filter_app. by cbn [List.filter]. Qed.

Lemma facility_of_not_empty row name :
  facility_of row = Some name -> name <> [].
Proof.
  unfold facility_of. destruct (Facility_Name row) as [n|]; [|done].
  destruct (trim n); [done|]. by intros [= <-].
Qed.

(** The group of a name after the rows [rows]. *)
Lemma get_group rows : forall name,
  get name (group_by_facility rows)
  = match rows_of name rows with
    | [] => None
    | first :: rest =>
        Some {| country := Country first;
                chargerCount := length (first :: rest);
                chargers := first :: rest |}
    end.
Proof.
  induction rows as [|row rows IH] using rev_ind; intros name; [done|].
  rewrite group_by_facility_snoc, rows_of_snoc. unfold group_step.
  destruct (facility_of row) as [n|] eqn:En.
  - rewrite get_add_row. unfold eqb.
    case_bool_decide as E1.
    + subst n. rewrite bool_decide_eq_true_2 by done. rewrite IH.
      destruct (rows_of name rows) as [|first rest]; [done|].
      cbn [app country chargerCount chargers]. do 2 f_equal.
      rewrite !length_cons, length_app. simpl. lia.
    + rewrite bool_decide_eq_false_2 by congruence.
      rewrite app_nil_r. apply IH.
  - rewrite bool_decide_eq_false_2 by done. rewrite app_nil_r. apply IH.
Qed.

Lemma keys_group rows :
  NoDup (map fst (group_by_facility rows))
  /\ Forall (fun name => name <> []) (map fst (group_by_facility rows)).
Proof.
  induction rows as [|row rows [IH1 IH2]] using rev_ind.
  - split; constructor.
  - rewrite group_by_facility_snoc. unfold group_step.
    destruct (facility_of row) as [n|] eqn:En; [|done].
    rewrite keys_add_row. case_bool_decide as E; [done|]. split.
    + apply NoDup_app. split; [done|]. split; [|apply NoDup_singleton].
      intros x Hx Hn. apply list_elem_of_singleton in Hn. by subst.
    + apply Forall_app. split; [done|]. constructor; [|constructor].
      by eapply facility_of_not_empty.
Qed.

Lemma count_group rows :
  sum_list (map (fun e => chargerCount (snd e)) (group_by_facility rows))
  = length (List.filter (fun row => bool_decide (facility_of row <> None))
              rows).
Proof.
  induction rows as [|row rows IH] using rev_ind; [done|].
  rewrite group_by_facility_snoc, List.filter_app, length_app.
  unfold group_step.
  cbn [List.filter].
  destruct (facility_of row) as [n|] eqn:En.
  - rewrite count_add_row, IH. rewrite bool_decide_eq_true_2 by done.
    simpl. lia.
  - rewrite IH. rewrite bool_decide_eq_false_2 by (intros H; by apply H).
    simpl. lia.
Qed.

End ImporterFacts.

(** X28. Grouping by facility in the importer. The facilities have pairwise
    different, non-empty names; the group of a name holds the rows of the
    sheet with that name, white space at its ends apart, in the order of the
    sheet, with their number as charger count and the country of the first of
    them; a name without a row has no group; and the charger counts add up to
    the number of rows that have a name. *)
Theorem group_by_facility_groups (rows : list Importer.ExcelRow) :
  let groups := Importer.group_by_facility rows in
  NoDup (map fst groups)
  /\ Forall (fun name => name <> []) (map fst groups)
  /\ (forall name,
        Importer.get name groups
        = match Importer.rows_of name rows with
          | [] => None
          | first :: rest =>
              Some {| Importer.country := Importer.Country first;
                      Importer.chargerCount := length (first :: rest);
                      Importer.chargers := first :: rest |}
          end)
  /\ sum_list (map Importer.fd_charger_count (Importer.facilitiesData rows))
     = length (List.filter
                 (fun row => bool_decide (Importer.facility_of row <> None))
                 rows).
Proof.
  cbv zeta. destruct (ImporterFacts.keys_group rows) as [Hnodup Hnames].
  split; [exact Hnodup|]. split; [exact Hnames|].
  split; [apply ImporterFacts.get_group|].
  rewrite <- ImporterFacts.count_group. unfold Importer.facilitiesData.
  rewrite map_map. f_equal. apply map_ext. by intros [name data].
Qed.

(** X29. What the importer writes into the columns with a [CHECK]
    constraint passes the constraint, whatever the sheet holds: the three
    normalizers return a value that the column admits or [NULL]. A value the
    column admits is returned as it is, so normalizing twice is the same as
    normalizing once. *)
Theorem normalizers_pass_the_checks (v : option JS.jsstring) :
  (Chargers.check_in Chargers.status_values (Importer.normalizeStatus v)
   = true
   /\ Chargers.check_in Chargers.charger_type_values
        (Importer.normalizeChargerType v) = true
   /\ Chargers.check_in Chargers.ownership_values
        (Importer.normalizeOwnership v) = true)
  /\ Importer.normalizeStatus (Importer.normalizeStatus v)
     = Importer.normalizeStatus v
  /\ Importer.normalizeChargerType (Importer.normalizeChargerType v)
     = Importer.normalizeChargerType v
  /\ Importer.normalizeOwnership (Importer.normalizeOwnership v)
     = Importer.normalizeOwnership v.
Proof.
  unfold Importer.normalizeStatus, Importer.normalizeChargerType,
    Importer.normalizeOwnership.
  destruct (negb (Effects.truthy v)); [by repeat split|].
  cbv zeta. set (s := JS.trim (default [] v)). clearbody s.
  repeat split;
    repeat match goal with
           | |- context [JS.eqb s ?l] => destruct (JS.eqb s l)
           end; reflexivity.
Qed.

Module ReportFacts.
Import JS Report.

(** The loop from [offset] on, when the pages are cut from [rows]. *)
Lemma fetch_from_pages {A} (rows : list A) page :
  (forall offset, page offset = Some (take pageSize (drop offset rows))) ->
  forall fuel offset allFacilities,
    length rows - offset < fuel * pageSize ->
    fetch_from fuel page offset allFacilities
    = Fetched (allFacilities ++ drop offset rows).
Proof.
  intros Hpage. induction fuel as [|fuel IH]; intros offset acc Hfuel;
    [simpl in Hfuel; lia|].
  cbn [fetch_from]. rewrite Hpage.
  rewrite length_take, length_drop.
  destruct (Nat.ltb_spec (Nat.min pageSize (length rows - offset)) pageSize)
    as [Hshort|Hfull].
  - rewrite take_ge; [done|]. rewrite length_drop. lia.
  - rewrite IH.
    + rewrite <- app_assoc. do 2 f_equal.
      rewrite <- (take_drop pageSize (drop offset rows)) at 2.
      by rewrite drop_drop.
    + unfold pageSize in *. lia.
Qed.

End ReportFacts.


